(** * Bezier curves and hodograph: the geometry engine of [main.py]

    A shallow embedding of the pure functions of [main.py] (lerp, dist,
    point_to_segment_distance, binom, bern, de_casteljau,
    de_casteljau_levels, hodograph_control_points, derivative,
    second_derivative, curvature_at, approximate_length) and of the
    collection-editing methods of [BezierCanvas] and [MainWindow].

    Numbers.  The Python floats are read in two ways.  The definitions
    at the top level read them as real numbers (exact arithmetic), with
    [math.hypot a b] as [sqrt (a*a + b*b)] and [float("inf")] as the
    [None] of an [option R]; they carry the polynomial and metric
    content of the code, and what depends only on the order of computed
    values or on the structure of the lists.  Module [Binary64] has the
    numeric functions on binary64 numbers, operation by operation, and
    gives what the program returns bit for bit; module [Computed] has
    the insertion of a control point over the distances as computed.  A
    statement that holds in exact arithmetic only says so, and names the
    place where rounding departs from it.

    Errors.  An [IndexError] of a list access is the [None] of the option
    monad: every function that indexes a list returns an [option], and the
    lemmas show where the result is [Some]. *)

From Stdlib Require Import Floats Uint63.
From Stdlib Require Import Reals Lra Lia.
From stdpp Require Import base option list sorting.

Set Warnings "-inexact-float".

Local Open Scope R_scope.

(** ** Points, interpolation, distances *)

(** A point is the Python dict [{"x": _, "y": _}]; the fields are named
    [px] and [py] so that [x] and [y] stay free for the coordinates that
    the functions take. *)
Record point : Type := Point { px : R; py : R }.

Definition lerp (a b : point) (t : R) : point :=
  {| px := (1 - t) * px a + t * px b;
     py := (1 - t) * py a + t * py b |}.

Definition hypot (a b : R) : R := sqrt (a * a + b * b).

Definition dist (p : point) (x y : R) : R := hypot (px p - x) (py p - y).

Definition point_to_segment_distance (p a b : point) : R :=
  let vx := px b - px a in
  let vy := py b - py a in
  let wx := px p - px a in
  let wy := py p - py a in
  let c1 := vx * wx + vy * wy in
  if Rle_dec c1 0 then hypot (px p - px a) (py p - py a)
  else
    let c2 := vx * vx + vy * vy in
    if Rle_dec c2 c1 then hypot (px p - px b) (py p - py b)
    else
      let t := c1 / c2 in
      let proj := {| px := px a + t * vx; py := py a + t * vy |} in
      hypot (px p - px proj) (py p - py proj).

(** ** Binomial coefficients and the Bernstein basis *)

(** [for i in range(1, k + 1): r = r * (n + 1 - i) / i], from [r = 1]. *)
Definition binom (n k : nat) : R :=
  foldl (fun r i => r * (INR n + 1 - INR i) / INR i) 1 (seq 1 k).

(** [binom(n, i) * (t ** i) * ((1 - t) ** (n - i))].  The callers pass
    [0 <= i <= n] only, where the exponent [n - i] is a natural number. *)
Definition bern (n i : nat) (t : R) : R :=
  binom n i * t ^ i * (1 - t) ^ (n - i).

(** ** De Casteljau evaluation *)

(** [[{"x": p["x"], "y": p["y"]} for p in points]] *)
Definition copy_points (points : list point) : list point :=
  map (fun p => {| px := px p; py := py p |}) points.

(** [tmp[i] = lerp(tmp[i], tmp[i + 1], t)], on the array [tmp]. *)
Definition de_casteljau_step (t : R) (tmp : option (list point)) (i : nat)
  : option (list point) :=
  tmp ← tmp;
  a ← tmp !! i;
  b ← tmp !! (i + 1)%nat;
  Some (<[i := lerp a b t]> tmp).

(** [for i in range(n - r)] *)
Definition de_casteljau_round (t : R) (n : nat) (tmp : option (list point))
  (r : nat) : option (list point) :=
  foldl (de_casteljau_step t) tmp (seq 0 (n - r)).

Definition de_casteljau (points : list point) (t : R) : option point :=
  let tmp := copy_points points in
  let n := length points in
  tmp ← foldl (de_casteljau_round t n) (Some tmp) (seq 1 (n - 1));
  tmp !! 0%nat.

(** [[lerp(cur[i], cur[i + 1], t) for i in range(len(cur) - 1)]] *)
Definition next_row (t : R) (cur : list point) : option (list point) :=
  mapM (fun i => a ← cur !! i; b ← cur !! (i + 1)%nat; Some (lerp a b t))
       (seq 0 (length cur - 1)).

Definition de_casteljau_levels_step (t : R)
  (st : option (list (list point) * list point)) (r : nat)
  : option (list (list point) * list point) :=
  st ← st;
  row ← next_row t st.2;
  Some (st.1 ++ [row], row).

Definition de_casteljau_levels (points : list point) (t : R)
  : option (list (list point)) :=
  let cur := copy_points points in
  fst <$> foldl (de_casteljau_levels_step t) (Some ([cur], cur))
                (seq 1 (length points - 1)).

(** ** Hodograph, derivatives, curvature *)

(** [n = len(points) - 1] is [-1] on the empty list in Python; the guard
    [n <= 0] sends [-1] and [0] the same way, and the truncated
    subtraction of [nat] gives [0] for both. *)
Definition hodograph_control_points (points : list point)
  : option (list point) :=
  let n := (length points - 1)%nat in
  if decide (n <= 0)%nat then Some []
  else
    mapM (fun i =>
            p1 ← points !! (i + 1)%nat;
            p0 ← points !! i;
            Some {| px := INR n * (px p1 - px p0);
                    py := INR n * (py p1 - py p0) |})
         (seq 0 n).

Definition derivative_step (points : list point) (n : nat) (t : R)
  (acc : option (R * R)) (i : nat) : option (R * R) :=
  acc ← acc;
  p1 ← points !! (i + 1)%nat;
  p0 ← points !! i;
  Some (acc.1 + INR n * (px p1 - px p0) * bern (n - 1) i t,
        acc.2 + INR n * (py p1 - py p0) * bern (n - 1) i t).

Definition derivative (points : list point) (t : R) : option point :=
  let n := (length points - 1)%nat in
  if decide (n <= 0)%nat then Some {| px := 0; py := 0 |}
  else
    acc ← foldl (derivative_step points n t) (Some (0, 0)) (seq 0 n);
    Some {| px := acc.1; py := acc.2 |}.

Definition second_derivative_step (points : list point) (n : nat) (t : R)
  (acc : option (R * R)) (i : nat) : option (R * R) :=
  acc ← acc;
  p2 ← points !! (i + 2)%nat;
  p1 ← points !! (i + 1)%nat;
  p0 ← points !! i;
  Some (acc.1 + INR n * (INR n - 1) * (px p2 - 2 * px p1 + px p0)
                * bern (n - 2) i t,
        acc.2 + INR n * (INR n - 1) * (py p2 - 2 * py p1 + py p0)
                * bern (n - 2) i t).

Definition second_derivative (points : list point) (t : R) : option point :=
  let n := (length points - 1)%nat in
  if decide (n <= 1)%nat then Some {| px := 0; py := 0 |}
  else
    acc ← foldl (second_derivative_step points n t) (Some (0, 0))
                (seq 0 (n - 1));
    Some {| px := acc.1; py := acc.2 |}.

(** Python's [/] raises [ZeroDivisionError] on a zero divisor. *)
Definition checked_div (a b : R) : option R :=
  if Req_dec_T b 0 then None else Some (a / b).

(** The threshold [1e-9] of [curvature_at]. *)
Definition EPS : R := / 10 ^ 9.

Definition curvature_at (points : list point) (t : R) : option R :=
  d ← derivative points t;
  dd ← second_derivative points t;
  let v := hypot (px d) (py d) in
  if Rlt_dec v EPS then Some 0
  else checked_div (Rabs (px d * py dd - py d * px dd)) (v ^ 3).

(** ** Arc length by sampling *)

(** One pass of [for i in range(1, steps + 1)]; the state is [(L, prev)].
    [steps] is not zero inside the loop. *)
Definition approximate_length_step (seg : list point) (steps : nat)
  (st : option (R * point)) (i : nat) : option (R * point) :=
  st ← st;
  let tt := INR i / INR steps in
  p ← de_casteljau seg tt;
  Some (st.1 + hypot (px p - px st.2) (py p - py st.2), p).

Definition approximate_length (seg : list point) (steps : nat) : option R :=
  prev ← de_casteljau seg 0;
  fst <$> foldl (approximate_length_step seg steps) (Some (0, prev))
                (seq 1 steps).

(** ** Python helpers: [enumerate], comparisons with [inf], [min(_, key=_)] *)

Fixpoint enumerate_from {A : Type} (start : nat) (l : list A)
  : list (nat * A) :=
  match l with
  | [] => []
  | a :: l' => (start, a) :: enumerate_from (S start) l'
  end.

Definition enumerate {A : Type} (l : list A) : list (nat * A) :=
  enumerate_from 0 l.

(** [d < best_d], where [best_d] starts as [float("inf")] ([None]). *)
Definition lt_inf (d : R) (best_d : option R) : bool :=
  match best_d with
  | None => true
  | Some b => if Rlt_dec d b then true else false
  end.

(** [best_d <= r], false at [inf]. *)
Definition le_inf (best_d : option R) (r : R) : bool :=
  match best_d with
  | None => false
  | Some b => if Rle_dec b r then true else false
  end.

(** [min(l, key=key)]: the first element with the least key; [ValueError]
    on the empty sequence. *)
Definition py_min_step (key : nat -> option R) (st : option (nat * R))
  (i : nat) : option (nat * R) :=
  st ← st;
  k ← key i;
  Some (if Rlt_dec k st.2 then (i, k) else st).

Definition py_min (key : nat -> option R) (l : list nat) : option nat :=
  match l with
  | [] => None
  | i0 :: l' =>
      k0 ← key i0;
      fst <$> foldl (py_min_step key) (Some (i0, k0)) l'
  end.

(** ** The canvas: hit test, insertion, removal *)

Definition HIT_R : R := 10.

(** A collection is the list [app.segments]; its segments are lists of
    points, mutated in place by the canvas, here passed and returned. *)
Abbreviation segment := (list point) (only parsing).
Abbreviation collection := (list (list point)) (only parsing).

Module BezierCanvas.

(** A reference to a point of the collection: the Python code returns
    the dict object itself, which is the object stored at one place of
    one segment; the reference is that place with the value read. *)
Definition point_ref : Type := (nat * nat * point)%type.

Definition closest_step (x y : R) (si : nat)
  (st : option point_ref * option R) (e : nat * point)
  : option point_ref * option R :=
  let d := dist e.2 x y in
  if lt_inf d st.2 then (Some (si, e.1, e.2), Some d) else st.

Definition closest_seg_step (x y : R)
  (st : option point_ref * option R) (e : nat * segment)
  : option point_ref * option R :=
  foldl (closest_step x y e.1) st (enumerate e.2).

Definition _find_closest_point (segments : collection) (x y : R)
  : option point_ref :=
  let st := foldl (closest_seg_step x y) (None, None)
                  (enumerate segments) in
  if le_inf st.2 HIT_R then st.1 else None.

(** The inner loop [for i in range(len(seg) - 1)] of
    [_add_control_point]; the state is [(best_seg, best_d)]. *)
Definition edge_step (p : point) (si : nat) (seg : segment)
  (st : option (nat * option R)) (i : nat) : option (nat * option R) :=
  st ← st;
  a ← seg !! i;
  b ← seg !! (i + 1)%nat;
  let d := point_to_segment_distance p a b in
  Some (if lt_inf d st.2 then (si, Some d) else st).

Definition segment_step (p : point) (x y : R)
  (st : option (nat * option R)) (e : nat * segment)
  : option (nat * option R) :=
  st ← foldl (edge_step p e.1 e.2) st (seq 0 (length e.2 - 1));
  if decide (length e.2 = 1%nat) then
    q ← e.2 !! 0%nat;
    let d := dist q x y in
    Some (if lt_inf d st.2 then (e.1, Some d) else st)
  else Some st.

Definition best_segment (segments : collection) (x y : R)
  : option (nat * option R) :=
  foldl (segment_step {| px := x; py := y |} x y) (Some (0%nat, None))
        (enumerate segments).

Definition _add_control_point (segments : collection) (x y : R)
  : option collection :=
  st ← best_segment segments x y;
  let best_seg := st.1 in
  seg ← segments !! best_seg;
  if decide (length seg = 0%nat) then
    Some (<[best_seg := seg ++ [{| px := x; py := y |}]]> segments)
  else
    idx ← py_min (fun i => q ← seg !! i; Some (dist q x y))
                 (seq 0 (length seg));
    Some (<[best_seg := take (idx + 1) seg
                        ++ {| px := x; py := y |} :: drop (idx + 1) seg]>
            segments).

(** [for i, p in enumerate(seg): if dist(p, x, y) < HIT_R]: the first
    index that passes the test. *)
Fixpoint first_hit (x y : R) (l : list (nat * point)) : option nat :=
  match l with
  | [] => None
  | (i, p) :: l' =>
      if Rlt_dec (dist p x y) HIT_R then Some i else first_hit x y l'
  end.

(** [seg.pop(i); return] ends the whole scan. *)
Fixpoint _remove_point (segments : collection) (x y : R) : collection :=
  match segments with
  | [] => []
  | seg :: rest =>
      if decide (length seg <= 2)%nat then seg :: _remove_point rest x y
      else
        match first_hit x y (enumerate seg) with
        | Some i => delete i seg :: rest
        | None => seg :: _remove_point rest x y
        end
  end.

End BezierCanvas.

(** ** Insertion on the distances as the program computes them

    [_add_control_point] uses the two distance functions only to compare
    their results.  In this module they are parameters: [psd p a b] and
    [dst q x y] stand for the numbers that [point_to_segment_distance]
    and [dist] return in the program's arithmetic, whatever rounding went
    into them (a computed distance is a finite binary64 number, hence a
    real number, and [<] on floats is [<] on these reals).  With the
    exact functions of this file for [psd] and [dst], the definitions
    below are those of [BezierCanvas]. *)

Module Computed.

Section Distances.

Variable psd : point -> point -> point -> R.
Variable dst : point -> R -> R -> R.

Definition edge_step (p : point) (si : nat) (seg : segment)
  (st : option (nat * option R)) (i : nat) : option (nat * option R) :=
  st ← st;
  a ← seg !! i;
  b ← seg !! (i + 1)%nat;
  let d := psd p a b in
  Some (if lt_inf d st.2 then (si, Some d) else st).

Definition segment_step (p : point) (x y : R)
  (st : option (nat * option R)) (e : nat * segment)
  : option (nat * option R) :=
  st ← foldl (edge_step p e.1 e.2) st (seq 0 (length e.2 - 1));
  if decide (length e.2 = 1%nat) then
    q ← e.2 !! 0%nat;
    let d := dst q x y in
    Some (if lt_inf d st.2 then (e.1, Some d) else st)
  else Some st.

Definition best_segment (segments : collection) (x y : R)
  : option (nat * option R) :=
  foldl (segment_step {| px := x; py := y |} x y) (Some (0%nat, None))
        (enumerate segments).

Definition _add_control_point (segments : collection) (x y : R)
  : option collection :=
  st ← best_segment segments x y;
  let best_seg := st.1 in
  seg ← segments !! best_seg;
  if decide (length seg = 0%nat) then
    Some (<[best_seg := seg ++ [{| px := x; py := y |}]]> segments)
  else
    idx ← py_min (fun i => q ← seg !! i; Some (dst q x y))
                 (seq 0 (length seg));
    Some (<[best_seg := take (idx + 1) seg
                        ++ {| px := x; py := y |} :: drop (idx + 1) seg]>
            segments).

(** The computed distances from [p] to the edges of a segment, in edge
    order. *)
Fixpoint edge_dists (p : point) (seg : segment) : list R :=
  match seg with
  | a :: (b :: _) as tl => psd p a b :: edge_dists p tl
  | _ => []
  end.

(** The computed distances a segment enters into the choice of
    [best_seg]: those to its edges, or the one to its point when it has
    exactly one. *)
Definition candidates (x y : R) (seg : segment) : list R :=
  match seg with
  | [q] => [dst q x y]
  | _ => edge_dists {| px := x; py := y |} seg
  end.

Fixpoint cand_entries (x y : R) (l : list (nat * segment)) : list (nat * R) :=
  match l with
  | [] => []
  | e :: l' => ((fun d => (e.1, d)) <$> candidates x y e.2)
               ++ cand_entries x y l'
  end.

(** Segment [s] is the first segment that holds a least computed
    candidate, or segment 0 when no segment has a candidate. *)
Definition selected_segment (segments : collection) (x y : R) (s : nat)
  : Prop :=
  ((forall (sj : nat) (segj : segment),
       segments !! sj = Some segj -> candidates x y segj = [])
   /\ s = 0%nat)
  \/ exists (seg : segment) (d : R),
       segments !! s = Some seg /\ d ∈ candidates x y seg
       /\ forall (sj : nat) (segj : segment) (dj : R),
            segments !! sj = Some segj -> dj ∈ candidates x y segj ->
            d <= dj /\ ((sj < s)%nat -> d < dj).

(** [seg'] is [seg] with the point [(x, y)] as its sole point when [seg]
    is empty, and otherwise put right after the first point of [seg]
    whose computed distance from [(x, y)] is least. *)
Definition inserted_after_nearest (seg : segment) (x y : R) (seg' : segment)
  : Prop :=
  (seg = [] /\ seg' = [{| px := x; py := y |}])
  \/ exists (idx : nat) (q : point),
       seg !! idx = Some q
       /\ (forall (j : nat) (r : point),
              seg !! j = Some r ->
              dst q x y <= dst r x y
              /\ ((j < idx)%nat -> dst q x y < dst r x y))
       /\ seg' = take (idx + 1) seg
                 ++ {| px := x; py := y |} :: drop (idx + 1) seg.

End Distances.

End Computed.

(** ** The main window: segments, reset, total length *)

Module MainWindow.

(** [EMPTY_START = [[]]]; every use goes through [copy.deepcopy], so
    the module-level list is never shared with [app.segments]. *)
Definition EMPTY_START : collection := [[]].

Definition _add_segment (segments : collection) : collection :=
  segments ++ [[ {| px := 150; py := 350 |};
                 {| px := 350; py := 150 |};
                 {| px := 600; py := 350 |} ]].

(** [if len(segments) > 1: segments.pop()] *)
Definition _remove_segment (segments : collection) : collection :=
  if decide (1 < length segments)%nat then removelast segments
  else segments.

Definition _reset (segments : collection) : collection := EMPTY_START.

(** [sum(approximate_length(seg) for seg in segments if len(seg) >= 2)],
    each call with the default [steps=200]. *)
Definition total_len (segments : collection) : option R :=
  foldl (fun acc seg =>
           acc ← acc; l ← approximate_length seg 200; Some (acc + l))
        (Some 0)
        (filter (fun seg => (2 <= length seg)%nat) segments).

(** The editing gestures that reach the collection. *)
Inductive gesture : Type :=
| AddPoint (x y : R)
| RemovePoint (x y : R)
| AddSegment
| RemoveSegment
| ResetAll.

Definition apply_gesture (g : gesture) (segments : collection)
  : option collection :=
  match g with
  | AddPoint x y => BezierCanvas._add_control_point segments x y
  | RemovePoint x y => Some (BezierCanvas._remove_point segments x y)
  | AddSegment => Some (_add_segment segments)
  | RemoveSegment => Some (_remove_segment segments)
  | ResetAll => Some (_reset segments)
  end.

Definition run (gs : list gesture) (segments : collection)
  : option collection :=
  foldl (fun st g => st ← st; apply_gesture g st) (Some segments) gs.

End MainWindow.

(** ** Painting and mouse coordinates *)

Definition STEPS : nat := 200.

(** [sx = r.width() / w if w else 1], and the same for [sy]; then
    [pos.x() / sx, pos.y() / sy].  [w], [h] are the logical canvas size
    and [rw], [rh] the size of the widget's rectangle. *)
Definition _mouse_to_logical (w h rw rh : R) (pos_x pos_y : R)
  : option (R * R) :=
  let sx := if Req_dec_T w 0 then 1 else rw / w in
  let sy := if Req_dec_T h 0 then 1 else rh / h in
  lx ← checked_div pos_x sx;
  ly ← checked_div pos_y sy;
  Some (lx, ly).

(** The factors [paintEvent] hands to [painter.scale(sx, sy)]; it
    returns before that when [w <= 0 or h <= 0] ([None]). *)
Definition paint_scale (w h rw rh : R) : option (R * R) :=
  if Rle_dec w 0 then None
  else if Rle_dec h 0 then None
  else Some (rw / w, rh / h).

(** The vertices [paintEvent] gives the red curve of one segment:
    [moveTo(de_casteljau(seg, 0))], then a [lineTo] for each
    [de_casteljau(seg, i / STEPS)], [i] from 1 to [STEPS]. *)
Definition curve_path_step (seg : segment) (path : option (list point))
  (i : nat) : option (list point) :=
  path ← path;
  p ← de_casteljau seg (INR i / INR STEPS);
  Some (path ++ [p]).

Definition curve_path (seg : segment) : option (list point) :=
  prev ← de_casteljau seg 0;
  foldl (curve_path_step seg) (Some [prev]) (seq 1 STEPS).

(** [for seg in segments: if len(seg) < 2: continue], then the curve. *)
Definition paint_curves (segments : collection) : option (list (list point)) :=
  mapM curve_path (filter (fun seg => ~ (length seg < 2)%nat) segments).

(** The length of a polyline given by its vertices. *)
Fixpoint path_length (path : list point) : R :=
  match path with
  | a :: (b :: _) as tl =>
      hypot (px b - px a) (py b - py a) + path_length tl
  | _ => 0
  end.

(** ** A session: the point dicts as objects, the mouse and the buttons

    The canvas keeps a reference to a point dict between a press and the
    release, and [mouseMoveEvent] writes through it.  Here a dict is an
    address of a store [heap], a segment is a list of addresses, and a
    new dict takes the first address not yet used.  The handlers take the
    logical coordinates that [_mouse_to_logical] has returned. *)

Module Session.

Inductive button : Type := LeftButton | RightButton | MiddleButton.

Record state : Type := State {
  heap : nat -> point;
  next : nat;
  segments : list (list nat);
  _selected_point : option nat
}.

(** The dict at address [a] gets the coordinates [p]. *)
Definition store (h : nat -> point) (a : nat) (p : point) : nat -> point :=
  fun a' => if decide (a' = a) then p else h a'.

(** The collection as the pure functions read it. *)
Definition view (st : state) : collection :=
  fmap (M:=list) (heap st) <$> segments st.

(** [_find_closest_point]: the dict that sits at the place found. *)
Definition _find_closest_point (st : state) (x y : R) : option nat :=
  r ← BezierCanvas._find_closest_point (view st) x y;
  seg ← segments st !! r.1.1;
  seg !! r.1.2.

(** [_add_control_point]: the new dict [{"x": x, "y": y}] is allocated
    and its address goes into the list [segments[best_seg]]. *)
Definition _add_control_point (st : state) (x y : R) : option state :=
  best ← BezierCanvas.best_segment (view st) x y;
  let best_seg := best.1 in
  seg ← segments st !! best_seg;
  let a := next st in
  let heap' := store (heap st) a {| px := x; py := y |} in
  if decide (length seg = 0%nat) then
    Some (State heap' (S a) (<[best_seg := seg ++ [a]]> (segments st))
                (_selected_point st))
  else
    idx ← py_min (fun i => q ← (heap st <$> seg) !! i; Some (dist q x y))
                 (seq 0 (length seg));
    Some (State heap' (S a)
                (<[best_seg := take (idx + 1) seg ++ a :: drop (idx + 1) seg]>
                   (segments st))
                (_selected_point st)).

(** [_remove_point]: [seg.pop(i)] takes the address out of the list; the
    dict itself stays in the store. *)
Fixpoint remove_in (h : nat -> point) (segs : list (list nat)) (x y : R)
  : list (list nat) :=
  match segs with
  | [] => []
  | seg :: rest =>
      if decide (length seg <= 2)%nat then seg :: remove_in h rest x y
      else
        match BezierCanvas.first_hit x y (enumerate (h <$> seg)) with
        | Some i => delete i seg :: rest
        | None => seg :: remove_in h rest x y
        end
  end.

Definition _remove_point (st : state) (x y : R) : state :=
  State (heap st) (next st) (remove_in (heap st) (segments st) x y)
        (_selected_point st).

(** [mousePressEvent]: Shift with the left button adds, the right button
    removes, the left button alone grabs. *)
Definition mousePressEvent (st : state) (b : button) (shift : bool)
  (x y : R) : option state :=
  match b, shift with
  | LeftButton, true => _add_control_point st x y
  | RightButton, _ => Some (_remove_point st x y)
  | LeftButton, false =>
      Some (State (heap st) (next st) (segments st)
                  (_find_closest_point st x y))
  | MiddleButton, _ => Some st
  end.

(** [self._selected_point["x"] = x; self._selected_point["y"] = y] *)
Definition mouseMoveEvent (st : state) (x y : R) : state :=
  match _selected_point st with
  | Some a =>
      State (store (heap st) a {| px := x; py := y |}) (next st)
            (segments st) (_selected_point st)
  | None => st
  end.

Definition mouseReleaseEvent (st : state) (b : button) : state :=
  match b with
  | LeftButton => State (heap st) (next st) (segments st) None
  | _ => st
  end.

(** [MainWindow._add_segment]: three new dicts in a new list. *)
Definition _add_segment (st : state) : state :=
  let a := next st in
  State (store (store (store (heap st) a {| px := 150; py := 350 |})
                      (S a) {| px := 350; py := 150 |})
               (S (S a)) {| px := 600; py := 350 |})
        (S (S (S a)))
        (segments st ++ [[a; S a; S (S a)]])
        (_selected_point st).

Definition _remove_segment (st : state) : state :=
  State (heap st) (next st)
        (if decide (1 < length (segments st))%nat
         then removelast (segments st) else segments st)
        (_selected_point st).

(** [MainWindow._reset]: a new list [[[]]]; the canvas keeps whatever it
    had grabbed. *)
Definition _reset (st : state) : state :=
  State (heap st) (next st) [[]] (_selected_point st).

Inductive event : Type :=
| Press (b : button) (shift : bool) (x y : R)
| Move (x y : R)
| Release (b : button)
| AddSegmentClicked
| RemoveSegmentClicked
| ResetClicked.

Definition handle (e : event) (st : state) : option state :=
  match e with
  | Press b shift x y => mousePressEvent st b shift x y
  | Move x y => Some (mouseMoveEvent st x y)
  | Release b => Some (mouseReleaseEvent st b)
  | AddSegmentClicked => Some (_add_segment st)
  | RemoveSegmentClicked => Some (_remove_segment st)
  | ResetClicked => Some (_reset st)
  end.

Definition run (es : list event) (st : state) : option state :=
  foldl (fun st e => st ← st; handle e st) (Some st) es.

(** [AppState.__init__]: no dict yet, one empty segment, nothing grabbed. *)
Definition initial : state :=
  State (fun _ => {| px := 0; py := 0 |}) 0 [[]] None.

(** The gesture on the collection that an event amounts to, for the
    events that change the lists. *)
Definition gesture_of (e : event) : option MainWindow.gesture :=
  match e with
  | Press LeftButton true x y => Some (MainWindow.AddPoint x y)
  | Press RightButton _ x y => Some (MainWindow.RemovePoint x y)
  | AddSegmentClicked => Some MainWindow.AddSegment
  | RemoveSegmentClicked => Some MainWindow.RemoveSegment
  | ResetClicked => Some MainWindow.ResetAll
  | _ => None
  end.

(** Every dict of the collection has been allocated and sits at one
    place only, and there is a segment. *)
Definition wf (st : state) : Prop :=
  NoDup (mjoin (segments st))
  /\ Forall (fun a => (a < next st)%nat) (mjoin (segments st))
  /\ segments st <> [].

End Session.

(** ** The arithmetic of the program: binary64

    The numeric functions once more, on binary64 numbers and with every
    operation in the order in which Python performs it, so that a result
    here is the result of the program bit for bit.  The coordinates are
    floats, as the canvas supplies them; an [int] of the program (the
    [0] of [L = 0], the [n] of [n * (...)], the [t] of
    [de_casteljau(seg, 0)]) enters an operation as the float of the same
    value.  [IndexError], [ZeroDivisionError] and [OverflowError] are
    the [None] of the option monad. *)

Module Binary64.

Local Open Scope float_scope.

Record point : Type := Point { px : float; py : float }.

(** The float of an [int] (exact below [2^53]). *)
Definition of_int (z : Z) : float :=
  if (z <? 0)%Z then - of_uint63 (Uint63.of_Z (- z))
  else of_uint63 (Uint63.of_Z z).

Definition of_nat (n : nat) : float := of_int (Z.of_nat n).

Section Libm.

(** The two functions of the platform's mathematical library that the
    program reaches: [math.hypot], and C's [pow] behind the operator
    [**] on floats.  They are parameters: a statement below names the
    values of theirs that it uses. *)
Variable hypot : float -> float -> float.
Variable pow : float -> float -> float.

(** [x ** k] for a float [x] and an [int] [k >= 0]: [1.0] when [k] is 0,
    whatever [x] is; otherwise the library's [pow], and [OverflowError]
    when the result for a finite [x] is infinite. *)
Definition py_pow (x : float) (k : nat) : option float :=
  if decide (k = 0%nat) then Some 1
  else
    let w := pow x (of_nat k) in
    if is_infinity w && negb (is_infinity x) then None else Some w.

(** [a / b], [ZeroDivisionError] on a zero divisor of either sign. *)
Definition checked_div (a b : float) : option float :=
  if b =? 0 then None else Some (a / b).

Definition lerp (a b : point) (t : float) : point :=
  {| px := (1 - t) * px a + t * px b;
     py := (1 - t) * py a + t * py b |}.

Definition dist (p : point) (x y : float) : float :=
  hypot (px p - x) (py p - y).

Definition point_to_segment_distance (p a b : point) : float :=
  let vx := px b - px a in
  let vy := py b - py a in
  let wx := px p - px a in
  let wy := py p - py a in
  let c1 := vx * wx + vy * wy in
  if c1 <=? 0 then hypot (px p - px a) (py p - py a)
  else
    let c2 := vx * vx + vy * vy in
    if c2 <=? c1 then hypot (px p - px b) (py p - py b)
    else
      let t := c1 / c2 in
      let proj := {| px := px a + t * vx; py := py a + t * vy |} in
      hypot (px p - px proj) (py p - py proj).

(** [r = r * (n + 1 - i) / i]: the factor [n + 1 - i] is an [int], the
    product and the quotient are floats. *)
Definition binom (n k : nat) : float :=
  foldl (fun r i => r * of_int (Z.of_nat n + 1 - Z.of_nat i) / of_nat i)
        1 (seq 1 k).

(** [binom(n, i) * (t ** i) * ((1 - t) ** (n - i))], for [0 <= i <= n]
    as the callers have it. *)
Definition bern (n i : nat) (t : float) : option float :=
  a ← py_pow t i;
  b ← py_pow (1 - t) (n - i);
  Some (binom n i * a * b).

Definition de_casteljau_step (t : float) (tmp : option (list point))
  (i : nat) : option (list point) :=
  tmp ← tmp;
  a ← tmp !! i;
  b ← tmp !! (i + 1)%nat;
  Some (<[i := lerp a b t]> tmp).

Definition de_casteljau_round (t : float) (n : nat)
  (tmp : option (list point)) (r : nat) : option (list point) :=
  foldl (de_casteljau_step t) tmp (seq 0 (n - r)).

Definition de_casteljau (points : list point) (t : float) : option point :=
  let tmp := map (fun p => {| px := px p; py := py p |}) points in
  let n := length points in
  tmp ← foldl (de_casteljau_round t n) (Some tmp) (seq 1 (n - 1));
  tmp !! 0%nat.

Definition hodograph_control_points (points : list point)
  : option (list point) :=
  let n := (length points - 1)%nat in
  if decide (n <= 0)%nat then Some []
  else
    mapM (fun i =>
            p1 ← points !! (i + 1)%nat;
            p0 ← points !! i;
            Some {| px := of_nat n * (px p1 - px p0);
                    py := of_nat n * (py p1 - py p0) |})
         (seq 0 n).

(** [dx += n * (points[i + 1]["x"] - points[i]["x"]) * bern(n - 1, i, t)] *)
Definition derivative_step (points : list point) (n : nat) (t : float)
  (acc : option (float * float)) (i : nat) : option (float * float) :=
  acc ← acc;
  p1 ← points !! (i + 1)%nat;
  p0 ← points !! i;
  b ← bern (n - 1) i t;
  Some (acc.1 + of_nat n * (px p1 - px p0) * b,
        acc.2 + of_nat n * (py p1 - py p0) * b).

Definition derivative (points : list point) (t : float) : option point :=
  let n := (length points - 1)%nat in
  if decide (n <= 0)%nat then Some {| px := 0; py := 0 |}
  else
    acc ← foldl (derivative_step points n t) (Some (0, 0)) (seq 0 n);
    Some {| px := acc.1; py := acc.2 |}.

(** [n * (n - 1)] is a product of [int]s. *)
Definition second_derivative_step (points : list point) (n : nat)
  (t : float) (acc : option (float * float)) (i : nat)
  : option (float * float) :=
  acc ← acc;
  p2 ← points !! (i + 2)%nat;
  p1 ← points !! (i + 1)%nat;
  p0 ← points !! i;
  b ← bern (n - 2) i t;
  Some (acc.1 + of_nat (n * (n - 1)) * (px p2 - 2 * px p1 + px p0) * b,
        acc.2 + of_nat (n * (n - 1)) * (py p2 - 2 * py p1 + py p0) * b).

Definition second_derivative (points : list point) (t : float)
  : option point :=
  let n := (length points - 1)%nat in
  if decide (n <= 1)%nat then Some {| px := 0; py := 0 |}
  else
    acc ← foldl (second_derivative_step points n t) (Some (0, 0))
                (seq 0 (n - 1));
    Some {| px := acc.1; py := acc.2 |}.

Definition curvature_at (points : list point) (t : float) : option float :=
  d ← derivative points t;
  dd ← second_derivative points t;
  let v := hypot (px d) (py d) in
  if v <? 1e-9 then Some 0
  else
    w ← py_pow v 3;
    checked_div (abs (px d * py dd - py d * px dd)) w.

Definition approximate_length_step (seg : list point) (steps : nat)
  (st : option (float * point)) (i : nat) : option (float * point) :=
  st ← st;
  let tt := of_nat i / of_nat steps in
  p ← de_casteljau seg tt;
  Some (st.1 + hypot (px p - px st.2) (py p - py st.2), p).

Definition approximate_length (seg : list point) (steps : nat)
  : option float :=
  prev ← de_casteljau seg 0;
  fst <$> foldl (approximate_length_step seg steps) (Some (0, prev))
                (seq 1 steps).

End Libm.

End Binary64.

(** ** Closed forms used in the proofs

    Structural counterparts of the index loops above; each is shown equal
    to the loop it describes before it is used. *)

(** One round of interpolation between neighbours. *)
Fixpoint row (t : R) (l : list point) : list point :=
  match l with
  | a :: (b :: _) as tl => lerp a b t :: row t tl
  | _ => []
  end.

(** The rounds of de Casteljau's scheme, each on a fresh list. *)
Definition bezier (points : list point) (t : R) : option point :=
  head (Nat.iter (length points - 1) (row t) points).

(** [levels_from k l] is [l] followed by its [k] successive rows. *)
Fixpoint levels_from (t : R) (k : nat) (l : list point) : list (list point) :=
  match k with
  | O => [l]
  | S k' => l :: levels_from t k' (row t l)
  end.

(** The control polygon of the hodograph, by neighbours. *)
Fixpoint diffs (n : nat) (l : list point) : list point :=
  match l with
  | a :: (b :: _) as tl =>
      {| px := INR n * (px b - px a); py := INR n * (py b - py a) |}
      :: diffs n tl
  | _ => []
  end.

(** Second differences, as [second_derivative] takes them. *)
Fixpoint diffs2 (l : list point) : list point :=
  match l with
  | a :: (b :: c :: _) as tl =>
      {| px := px c - 2 * px b + px a; py := py c - 2 * py b + py a |}
      :: diffs2 tl
  | _ => []
  end.

(** [bernstein_sum f n i t l] is the sum of [f q_j * bern n (i + j) t]
    over the points [q_j] of [l]; [f] is a coordinate. *)
Fixpoint bernstein_sum (f : point -> R) (n i : nat) (t : R) (l : list point)
  : R :=
  match l with
  | [] => 0
  | q :: l' => f q * bern n i t + bernstein_sum f n (S i) t l'
  end.

(** All the points lie on the line [a * x + b * y = c]. *)
Definition on_line (a b c : R) (points : list point) : Prop :=
  Forall (fun p => a * px p + b * py p = c) points.

(** The control points are colinear: some line holds them all. *)
Definition colinear (points : list point) : Prop :=
  exists a b c : R, (a <> 0 \/ b <> 0) /\ on_line a b c points.

(** The curve point at [t]; a segment with no point has none, and the
    default is never read on a segment that has one. *)
Definition curve (seg : list point) (t : R) : point :=
  default {| px := 0; py := 0 |} (bezier seg t).

(** The length of the polyline through [g 0], ..., [g n]. *)
Fixpoint polyline (g : nat -> point) (n : nat) : R :=
  match n with
  | O => 0
  | S n' =>
      polyline g n' + hypot (px (g n) - px (g n')) (py (g n) - py (g n'))
  end.

(** The sample points of [approximate_length]. *)
Definition sample (seg : list point) (steps : nat) (i : nat) : point :=
  curve seg (INR i / INR steps).

(** One comparison of a running minimum: the state is the tag of the
    best entry so far and its value ([None] for [inf]); a new entry wins
    only when strictly smaller. *)
Definition scan_step {T : Type} (st : T * option R) (e : T * R)
  : T * option R :=
  if lt_inf e.2 st.2 then (e.1, Some e.2) else st.

(** Scan order on references: segment order, then point order. *)
Definition scan_before (r r' : BezierCanvas.point_ref) : Prop :=
  (r.1.1 < r'.1.1)%nat \/ (r.1.1 = r'.1.1 /\ (r.1.2 < r'.1.2)%nat).

Definition tag_before (o o' : option BezierCanvas.point_ref) : Prop :=
  match o, o' with
  | Some r, Some r' => scan_before r r'
  | _, _ => False
  end.

(** The reference [r] names a point of the collection. *)
Definition point_at (segments : collection) (r : BezierCanvas.point_ref)
  : Prop :=
  exists seg : segment,
    segments !! r.1.1 = Some seg /\ seg !! r.1.2 = Some r.2.

(** The entries the hit test compares, in the order it meets them. *)
Definition seg_entries (x y : R) (si : nat) (seg : segment)
  : list (option BezierCanvas.point_ref * R) :=
  (fun e => (Some (si, e.1, e.2), dist e.2 x y)) <$> enumerate seg.

Fixpoint entries (x y : R) (l : list (nat * segment))
  : list (option BezierCanvas.point_ref * R) :=
  match l with
  | [] => []
  | e :: l' => seg_entries x y e.1 e.2 ++ entries x y l'
  end.

(** What a segment adds to the total length shown in the window. *)
Definition contribution (seg : segment) : R :=
  if decide (2 <= length seg)%nat
  then polyline (sample seg 200) 200
  else 0.

Fixpoint total_spec (segments : collection) : R :=
  match segments with
  | [] => 0
  | seg :: rest => contribution seg + total_spec rest
  end.

(** The distances from [p] to the edges of a segment, in edge order. *)
Fixpoint edge_dists (p : point) (seg : segment) : list R :=
  match seg with
  | a :: (b :: _) as tl => point_to_segment_distance p a b :: edge_dists p tl
  | _ => []
  end.

(** The distances a segment enters into the choice of [best_seg]: its edge
    distances, or the distance to its point when it has exactly one. *)
Definition candidates (x y : R) (seg : segment) : list R :=
  match seg with
  | [q] => [dist q x y]
  | _ => edge_dists {| px := x; py := y |} seg
  end.

Fixpoint cand_entries (x y : R) (l : list (nat * segment)) : list (nat * R) :=
  match l with
  | [] => []
  | e :: l' => ((fun d => (e.1, d)) <$> candidates x y e.2)
               ++ cand_entries x y l'
  end.

(** Segment [s] is the one [_add_control_point] inserts into: the first
    segment that holds a least candidate, or segment 0 when no segment
    has a candidate. *)
Definition selected_segment (segments : collection) (x y : R) (s : nat)
  : Prop :=
  ((forall (sj : nat) (segj : segment),
       segments !! sj = Some segj -> candidates x y segj = [])
   /\ s = 0%nat)
  \/ exists (seg : segment) (d : R),
       segments !! s = Some seg /\ d ∈ candidates x y seg
       /\ forall (sj : nat) (segj : segment) (dj : R),
            segments !! sj = Some segj -> dj ∈ candidates x y segj ->
            d <= dj /\ ((sj < s)%nat -> d < dj).

(** [seg'] is [seg] with the point [(x, y)] as its sole point when [seg]
    is empty, and otherwise put right after the first point of [seg] at
    the least distance from [(x, y)]. *)
Definition inserted_after_nearest (seg : segment) (x y : R) (seg' : segment)
  : Prop :=
  (seg = [] /\ seg' = [{| px := x; py := y |}])
  \/ exists (idx : nat) (q : point),
       seg !! idx = Some q
       /\ (forall (j : nat) (r : point),
              seg !! j = Some r ->
              dist q x y <= dist r x y
              /\ ((j < idx)%nat -> dist q x y < dist r x y))
       /\ seg' = take (idx + 1) seg
                 ++ {| px := x; py := y |} :: drop (idx + 1) seg.

(** The claim's reading of the choice of segment: the chosen segment has
    an edge at the least edge distance of the whole collection. *)
Definition has_nearest_edge (segments : collection) (x y : R) (s : nat)
  : Prop :=
  exists (seg : segment) (d : R),
    segments !! s = Some seg
    /\ d ∈ edge_dists {| px := x; py := y |} seg
    /\ forall (sj : nat) (segj : segment) (dj : R),
         segments !! sj = Some segj ->
         dj ∈ edge_dists {| px := x; py := y |} segj -> d <= dj.

(** The binomial coefficient as an integer, [n! / (k! (n - k)!)]. *)
Definition zfact (n : nat) : Z := foldl Z.mul 1%Z (Z.of_nat <$> seq 1 n).

Definition choose (n k : nat) : Z :=
  (zfact n / (zfact k * zfact (n - k)))%Z.

(** An affine map of the plane. *)
Definition affine (m11 m12 m21 m22 c1 c2 : R) (p : point) : point :=
  {| px := m11 * px p + m12 * py p + c1;
     py := m21 * px p + m22 * py p + c2 |}.

(** * Properties *)

(** ** Evaluations on small inputs *)

Lemma hypot_eq (a b c : R) :
  0 <= c -> a * a + b * b = c * c -> hypot a b = c.
Proof.
  intros Hc E. unfold hypot. rewrite E. apply sqrt_square, Hc.
Qed.

Example binom_4_2 : binom 4 2 = 6.
Proof. unfold binom. simpl. field. Qed.

Example de_casteljau_half :
  de_casteljau [Point 0 0; Point 4 8; Point 8 0] (1 / 2) = Some (Point 4 4).
Proof.
  unfold de_casteljau. simpl. unfold lerp. simpl.
  f_equal. f_equal; field.
Qed.

(** [tmp[0]] on the empty list. *)
Example de_casteljau_no_point (t : R) : de_casteljau [] t = None.
Proof. reflexivity. Qed.

Example hodograph_quadratic :
  hodograph_control_points [Point 0 0; Point 4 8; Point 8 0]
  = Some [Point 8 16; Point 8 (-16)].
Proof.
  unfold hodograph_control_points. simpl. repeat f_equal; ring.
Qed.

Example derivative_half :
  derivative [Point 0 0; Point 4 8; Point 8 0] (1 / 2) = Some (Point 8 0).
Proof.
  unfold derivative. simpl. unfold bern, binom. simpl.
  f_equal. f_equal; field.
Qed.

Example dist_3_4 : dist (Point 0 0) 3 4 = 5.
Proof. unfold dist. simpl. apply hypot_eq; lra. Qed.

Example remove_point_takes_first :
  BezierCanvas._remove_point [[Point 0 0; Point 5 0; Point 9 0]] 3 4
  = [[Point 5 0; Point 9 0]].
Proof.
  simpl. rewrite dist_3_4.
  unfold HIT_R. destruct (Rlt_dec 5 10) as [_|H]; [reflexivity|lra].
Qed.

Lemma dist_on_axis (a : R) : 0 <= a -> dist (Point a 0) 0 0 = a.
Proof. intros Ha. unfold dist. simpl. apply hypot_eq; [lra|ring]. Qed.

(** [segments[best_seg]] on a collection with no segment. *)
Example add_control_point_no_segment (x y : R) :
  BezierCanvas._add_control_point [] x y = None.
Proof. reflexivity. Qed.

(** ** De Casteljau: the array loop computes the rows *)

Lemma copy_points_id (points : list point) : copy_points points = points.
Proof.
  unfold copy_points. induction points as [|[a b] l IH]; simpl; congruence.
Qed.

Lemma length_row (t : R) (l : list point) :
  length (row t l) = (length l - 1)%nat.
Proof.
  induction l as [|a [|b l] IH]; simpl in *; try reflexivity.
  rewrite IH. lia.
Qed.

Lemma de_casteljau_step_at (t : R) (P G : list point) (a b : point) :
  de_casteljau_step t (Some (P ++ a :: b :: G)) (length P)
  = Some (P ++ lerp a b t :: b :: G).
Proof.
  unfold de_casteljau_step. cbn [mbind option_bind].
  rewrite (list_lookup_middle P (b :: G) a (length P) eq_refl).
  cbn [mbind option_bind].
  replace (P ++ a :: b :: G) with ((P ++ [a]) ++ b :: G)
    by (rewrite <- app_assoc; reflexivity).
  rewrite (list_lookup_middle (P ++ [a]) G b (length P + 1));
    [|rewrite length_app; simpl; lia].
  cbn [mbind option_bind]. rewrite <- app_assoc. cbn [app].
  replace (length P) with (length P + 0)%nat at 1 by lia.
  rewrite insert_app_r. reflexivity.
Qed.

(** The inner loop started at index [length P] rewrites the block
    [a :: A] to its row and leaves one stale cell behind it. *)
Lemma de_casteljau_inner (t : R) (A : list point) :
  forall (a : point) (P G : list point),
    exists c : point,
      foldl (de_casteljau_step t) (Some (P ++ (a :: A) ++ G))
            (seq (length P) (length A))
      = Some (P ++ row t (a :: A) ++ c :: G).
Proof.
  induction A as [|b A IH]; intros a P G.
  - exists a. reflexivity.
  - destruct (IH b (P ++ [lerp a b t]) G) as [c Hc].
    exists c. cbn [length seq foldl app].
    rewrite de_casteljau_step_at.
    rewrite length_app in Hc. cbn [length] in Hc.
    replace (length P + 1)%nat with (S (length P)) in Hc by lia.
    rewrite <- app_assoc in Hc. cbn [app] in Hc. rewrite Hc.
    rewrite <- app_assoc. reflexivity.
Qed.

Lemma length_iter_row (t : R) (k : nat) (l : list point) :
  length (Nat.iter k (row t) l) = (length l - k)%nat.
Proof.
  induction k as [|k IH]; simpl.
  - lia.
  - rewrite length_row, IH. lia.
Qed.

(** Round [r] of the outer loop turns the live block into its row; after
    [k] rounds the block is the [k]-th iterated row. *)
Lemma de_casteljau_outer (t : R) (n k : nat) :
  forall (A G : list point) (r : nat),
    length A = S k -> n = (r + k)%nat ->
    exists G' : list point,
      foldl (de_casteljau_round t n) (Some (A ++ G)) (seq r k)
      = Some (Nat.iter k (row t) A ++ G').
Proof.
  induction k as [|k IH]; intros A G r HA Hn.
  - exists G. reflexivity.
  - destruct A as [|a A]; [discriminate|].
    injection HA as HA.
    destruct (de_casteljau_inner t A a [] G) as [c Hc].
    cbn [app length] in Hc.
    destruct (IH (row t (a :: A)) (c :: G) (S r)) as [G' HG'].
    + rewrite length_row. simpl. lia.
    + lia.
    + exists G'. cbn [seq foldl]. unfold de_casteljau_round at 2.
      replace (n - r)%nat with (length A) by lia.
      cbn [app]. rewrite Hc, HG'. rewrite Nat.iter_succ_r. reflexivity.
Qed.

Lemma de_casteljau_bezier (points : list point) (t : R) :
  de_casteljau points t = bezier points t.
Proof.
  unfold de_casteljau, bezier. rewrite copy_points_id.
  destruct points as [|a l]; [reflexivity|].
  destruct (de_casteljau_outer t (length (a :: l)) (length l) (a :: l) []
              1%nat eq_refl) as [G' HG']; [simpl; lia|].
  rewrite app_nil_r in HG'.
  replace (length (a :: l) - 1)%nat with (length l) by (simpl; lia).
  rewrite HG'. cbn [mbind option_bind].
  pose proof (length_iter_row t (length l) (a :: l)) as Hlen.
  destruct (Nat.iter (length l) (row t) (a :: l)) as [|p q]; [simpl in Hlen; lia|].
  reflexivity.
Qed.

(** A segment with a point always evaluates. *)
Lemma bezier_is_Some (points : list point) (t : R) :
  points <> [] -> is_Some (bezier points t).
Proof.
  intros Hne. unfold bezier.
  pose proof (length_iter_row t (length points - 1) points) as Hlen.
  destruct points as [|a l]; [congruence|].
  destruct (Nat.iter _ _ _) as [|p q]; [simpl in Hlen; lia|].
  simpl. eauto.
Qed.

(** ** Rows at the ends of the parameter interval *)

Lemma lerp_0 (a b : point) : lerp a b 0 = a.
Proof. destruct a as [ax ay]. unfold lerp. simpl. f_equal; ring. Qed.

Lemma lerp_1 (a b : point) : lerp a b 1 = b.
Proof. destruct b as [bx by']. unfold lerp. simpl. f_equal; ring. Qed.

Lemma head_row_0 (l : list point) :
  (2 <= length l)%nat -> head (row 0 l) = head l.
Proof.
  destruct l as [|a [|b l]]; simpl; try lia.
  intros _. rewrite lerp_0. reflexivity.
Qed.

Lemma last_row_1 (l : list point) :
  (2 <= length l)%nat -> last (row 1 l) = last l.
Proof.
  induction l as [|a [|b l] IH]; simpl; try lia.
  intros _. rewrite lerp_1.
  destruct l as [|c l]; [reflexivity|].
  change (last (b :: row 1 (b :: c :: l)) = last (b :: c :: l)).
  rewrite <- IH by (simpl; lia).
  simpl. rewrite lerp_1. reflexivity.
Qed.

Lemma head_iter_row_0 (k : nat) :
  forall l : list point,
    (k < length l)%nat -> head (Nat.iter k (row 0) l) = head l.
Proof.
  induction k as [|k IH]; intros l Hl; [reflexivity|].
  rewrite Nat.iter_succ_r, IH by (rewrite length_row; lia).
  apply head_row_0. lia.
Qed.

Lemma last_iter_row_1 (k : nat) :
  forall l : list point,
    (k < length l)%nat -> last (Nat.iter k (row 1) l) = last l.
Proof.
  induction k as [|k IH]; intros l Hl; [reflexivity|].
  rewrite Nat.iter_succ_r, IH by (rewrite length_row; lia).
  apply last_row_1. lia.
Qed.

(** C1. Endpoint interpolation: on a segment of at least two control
    points, [de_casteljau] at [t = 0] returns the first control point and
    at [t = 1] the last one, exactly. *)
Theorem de_casteljau_endpoints (points : list point) :
  (2 <= length points)%nat ->
  is_Some (head points)
  /\ de_casteljau points 0 = head points
  /\ de_casteljau points 1 = last points.
Proof.
  intros Hlen. split; [|split].
  - destruct points; simpl in *; [lia|eauto].
  - rewrite de_casteljau_bezier. unfold bezier.
    apply head_iter_row_0. lia.
  - rewrite de_casteljau_bezier. unfold bezier.
    rewrite <- (last_iter_row_1 (length points - 1) points) by lia.
    pose proof (length_iter_row 1 (length points - 1) points) as Hl.
    destruct (Nat.iter _ _ _) as [|p [|q l]]; simpl in Hl; try lia.
    reflexivity.
Qed.

Lemma de_casteljau_endpoints_witness :
  de_casteljau [Point 0 0; Point 3 4; Point 10 2] 0 = Some (Point 0 0)
  /\ de_casteljau [Point 0 0; Point 3 4; Point 10 2] 1 = Some (Point 10 2).
Proof.
  refine (proj2 (de_casteljau_endpoints
                   [Point 0 0; Point 3 4; Point 10 2] _)).
  simpl. lia.
Defined.

(** ** The level trace *)

Lemma next_row_from (t : R) (cur : list point) :
  forall P : list point,
    mapM (fun i => a ← (P ++ cur) !! i;
                   b ← (P ++ cur) !! (i + 1)%nat;
                   Some (lerp a b t))
         (seq (length P) (length cur - 1))
    = Some (row t cur).
Proof.
  induction cur as [|a [|b cur] IH]; intros P; try reflexivity.
  replace (length (a :: b :: cur) - 1)%nat with (S (length (b :: cur) - 1))
    by (simpl; lia).
  cbn [seq mapM].
  rewrite (list_lookup_middle P (b :: cur) a (length P) eq_refl).
  cbn [mbind option_bind].
  replace (P ++ a :: b :: cur) with ((P ++ [a]) ++ b :: cur)
    by (rewrite <- app_assoc; reflexivity).
  rewrite (list_lookup_middle (P ++ [a]) cur b (length P + 1));
    [|rewrite length_app; simpl; lia].
  cbn [mbind option_bind].
  specialize (IH (P ++ [a])).
  rewrite length_app in IH. cbn [length] in IH.
  replace (length P + 1)%nat with (S (length P)) in IH by lia.
  cbn [length] in *. rewrite IH. reflexivity.
Qed.

Lemma next_row_row (t : R) (cur : list point) :
  next_row t cur = Some (row t cur).
Proof. exact (next_row_from t cur []). Qed.

Lemma de_casteljau_levels_loop (t : R) (k : nat) :
  forall (pre : list (list point)) (cur : list point) (r : nat),
    foldl (de_casteljau_levels_step t) (Some (pre ++ [cur], cur)) (seq r k)
    = Some (pre ++ levels_from t k cur, Nat.iter k (row t) cur).
Proof.
  induction k as [|k IH]; intros pre cur r; [reflexivity|].
  cbn [seq foldl]. unfold de_casteljau_levels_step at 2.
  cbn [mbind option_bind snd fst]. rewrite next_row_row.
  cbn [mbind option_bind]. rewrite IH.
  rewrite Nat.iter_succ_r, <- app_assoc. reflexivity.
Qed.

Lemma de_casteljau_levels_closed (points : list point) (t : R) :
  de_casteljau_levels points t
  = Some (levels_from t (length points - 1) points).
Proof.
  unfold de_casteljau_levels. rewrite copy_points_id.
  rewrite (de_casteljau_levels_loop t _ [] points 1). reflexivity.
Qed.

Lemma length_levels_from (t : R) (k : nat) :
  forall l : list point, length (levels_from t k l) = S k.
Proof. induction k as [|k IH]; intros l; simpl; [|rewrite IH]; reflexivity. Qed.

Lemma lookup_levels_from (t : R) (k : nat) :
  forall (l : list point) (r : nat),
    (r <= k)%nat ->
    levels_from t k l !! r = Some (Nat.iter r (row t) l).
Proof.
  induction k as [|k IH]; intros l r Hr.
  - replace r with 0%nat by lia. reflexivity.
  - destruct r as [|r]; [reflexivity|].
    cbn [levels_from]. change (levels_from t k (row t l) !! r = Some (Nat.iter (S r) (row t) l)).
    rewrite IH by lia.
    rewrite Nat.iter_succ_r. reflexivity.
Qed.

(** C3. Level trace: for a segment of [n + 1] control points,
    [de_casteljau_levels] returns exactly [n + 1] levels; level 0 is the
    input sequence, each next level is one point shorter than the level
    before it, and the last level is the single point that
    [de_casteljau] returns. *)
Theorem de_casteljau_levels_trace (points : list point) (t : R) (n : nat) :
  length points = S n ->
  exists levels : list (list point),
    de_casteljau_levels points t = Some levels
    /\ length levels = S n
    /\ levels !! 0%nat = Some points
    /\ (forall (r : nat) (lo hi : list point),
           levels !! r = Some lo -> levels !! S r = Some hi ->
           length lo = S (length hi))
    /\ exists p : point,
         last levels = Some [p] /\ de_casteljau points t = Some p.
Proof.
  intros Hlen. exists (levels_from t n points).
  rewrite de_casteljau_levels_closed, Hlen.
  replace (S n - 1)%nat with n by lia.
  split; [reflexivity|]. split; [apply length_levels_from|].
  split; [apply lookup_levels_from; lia|]. split.
  - intros r lo hi Hlo Hhi.
    assert (S r <= n)%nat as Hr.
    { apply lookup_lt_Some in Hhi. rewrite length_levels_from in Hhi. lia. }
    rewrite lookup_levels_from in Hlo, Hhi by lia.
    injection Hlo as <-. injection Hhi as <-.
    cbn [Nat.iter nat_rect]. rewrite length_row, !length_iter_row. lia.
  - rewrite last_lookup, length_levels_from. cbn [pred].
    rewrite lookup_levels_from by lia.
    rewrite de_casteljau_bezier. unfold bezier. rewrite Hlen.
    replace (S n - 1)%nat with n by lia.
    pose proof (length_iter_row t n points) as Hl.
    destruct (Nat.iter n (row t) points) as [|p [|q l]];
      simpl in Hl; try lia.
    exists p. split; reflexivity.
Qed.

Lemma de_casteljau_levels_trace_witness :
  exists levels : list (list point),
    de_casteljau_levels [Point 0 0; Point 4 8; Point 8 0] (1 / 2)
    = Some levels
    /\ length levels = 3%nat
    /\ levels !! 0%nat = Some [Point 0 0; Point 4 8; Point 8 0]
    /\ (forall (r : nat) (lo hi : list point),
           levels !! r = Some lo -> levels !! S r = Some hi ->
           length lo = S (length hi))
    /\ exists p : point,
         last levels = Some [p]
         /\ de_casteljau [Point 0 0; Point 4 8; Point 8 0] (1 / 2) = Some p.
Proof.
  apply (de_casteljau_levels_trace
           [Point 0 0; Point 4 8; Point 8 0] (1 / 2) 2).
  reflexivity.
Defined.

(** ** Binomial coefficients and the Bernstein recurrences *)

Lemma binom_0 (n : nat) : binom n 0 = 1.
Proof. reflexivity. Qed.

Lemma binom_S (n k : nat) :
  binom n (S k) = binom n k * (INR n + 1 - INR (S k)) / INR (S k).
Proof.
  unfold binom. rewrite seq_S, foldl_app. reflexivity.
Qed.

Lemma INR_S_neq_0 (k : nat) : INR (S k) <> 0.
Proof. apply not_0_INR. discriminate. Qed.

Lemma binom_absorb (n k : nat) :
  binom (S n) k * (INR n + 1 - INR k) = binom n k * (INR n + 1).
Proof.
  induction k as [|k IH].
  - rewrite !binom_0. simpl. ring.
  - rewrite !binom_S.
    pose proof (INR_S_neq_0 k) as Hk.
    rewrite (S_INR n). rewrite (S_INR k) in *.
    transitivity (binom (S n) k * (INR n + 1 - INR k)
                  * (INR n + 1 - (INR k + 1)) / (INR k + 1)).
    + field. exact Hk.
    + rewrite IH. field. exact Hk.
Qed.

Lemma binom_pascal (n k : nat) :
  binom (S n) (S k) = binom n (S k) + binom n k.
Proof.
  rewrite !binom_S.
  pose proof (INR_S_neq_0 k) as Hk.
  pose proof (binom_absorb n k) as Ha.
  rewrite (S_INR n). rewrite (S_INR k) in *.
  transitivity (binom (S n) k * (INR n + 1 - INR k) / (INR k + 1)).
  - field. exact Hk.
  - rewrite Ha. field. exact Hk.
Qed.

Lemma binom_above (n : nat) : binom n (S n) = 0.
Proof. rewrite binom_S. unfold Rdiv. rewrite S_INR. ring. Qed.

Lemma binom_diag (n : nat) : binom (S n) (S n) = binom n n.
Proof. rewrite binom_pascal, binom_above. ring. Qed.

Lemma bern_0_0 (t : R) : bern 0 0 t = 1.
Proof. unfold bern. rewrite binom_0. simpl. ring. Qed.

Lemma bern_S_0 (n : nat) (t : R) : bern (S n) 0 t = (1 - t) * bern n 0 t.
Proof.
  unfold bern. rewrite !binom_0, !Nat.sub_0_r. simpl. ring.
Qed.

Lemma bern_S_S (n i : nat) (t : R) :
  (S i <= n)%nat ->
  bern (S n) (S i) t = (1 - t) * bern n (S i) t + t * bern n i t.
Proof.
  intros Hi. unfold bern. rewrite binom_pascal.
  replace (S n - S i)%nat with (S (n - S i)) by lia.
  replace (n - i)%nat with (S (n - S i)) by lia.
  simpl. ring.
Qed.

Lemma bern_S_diag (n : nat) (t : R) : bern (S n) (S n) t = t * bern n n t.
Proof.
  unfold bern. rewrite binom_diag, !Nat.sub_diag. simpl. ring.
Qed.

(** ** De Casteljau's scheme computes the Bernstein form *)

Section BernsteinForm.

Variable f : point -> R.
Variable t : R.
Hypothesis f_lerp :
  forall a b : point, f (lerp a b t) = (1 - t) * f a + t * f b.

Lemma bernstein_sum_row_shift (n : nat) (l : list point) :
  forall (a : point) (i : nat),
    (i + length l)%nat = n ->
    bernstein_sum f (S n) (S i) t (a :: l)
    = bernstein_sum f n (S i) t (row t (a :: l)) + t * f a * bern n i t.
Proof.
  induction l as [|b l IH]; intros a i Hi.
  - simpl in Hi. replace i with n by lia.
    simpl. rewrite bern_S_diag. ring.
  - simpl in Hi.
    change (bernstein_sum f (S n) (S i) t (a :: b :: l))
      with (f a * bern (S n) (S i) t
            + bernstein_sum f (S n) (S (S i)) t (b :: l)).
    change (row t (a :: b :: l)) with (lerp a b t :: row t (b :: l)).
    change (bernstein_sum f n (S i) t (lerp a b t :: row t (b :: l)))
      with (f (lerp a b t) * bern n (S i) t
            + bernstein_sum f n (S (S i)) t (row t (b :: l))).
    rewrite (IH b (S i)) by lia.
    rewrite f_lerp, bern_S_S by lia. ring.
Qed.

Lemma bernstein_sum_row (n : nat) (l : list point) :
  length l = S (S n) ->
  bernstein_sum f (S n) 0 t l = bernstein_sum f n 0 t (row t l).
Proof.
  destruct l as [|a [|b l]]; try discriminate.
  intros Hl. simpl in Hl.
  change (bernstein_sum f (S n) 0 t (a :: b :: l))
    with (f a * bern (S n) 0 t + bernstein_sum f (S n) 1 t (b :: l)).
  change (row t (a :: b :: l)) with (lerp a b t :: row t (b :: l)).
  change (bernstein_sum f n 0 t (lerp a b t :: row t (b :: l)))
    with (f (lerp a b t) * bern n 0 t
          + bernstein_sum f n 1 t (row t (b :: l))).
  rewrite (bernstein_sum_row_shift n l b 0) by lia.
  rewrite f_lerp, bern_S_0. ring.
Qed.

Lemma bezier_bernstein (n : nat) :
  forall (l : list point) (p : point),
    length l = S n -> bezier l t = Some p ->
    f p = bernstein_sum f n 0 t l.
Proof.
  induction n as [|n IH]; intros l p Hl Hp.
  - destruct l as [|a [|b l]]; try discriminate.
    injection Hp as <-. simpl. rewrite bern_0_0. ring.
  - rewrite (bernstein_sum_row n l Hl).
    apply IH; [rewrite length_row; lia|].
    unfold bezier in *. rewrite length_row.
    rewrite Hl in Hp.
    replace (S (S n) - 1)%nat with (S n) in Hp by lia.
    rewrite Nat.iter_succ_r in Hp.
    replace (length l - 1 - 1)%nat with n by lia. exact Hp.
Qed.

End BernsteinForm.

Lemma px_lerp (t : R) (a b : point) :
  px (lerp a b t) = (1 - t) * px a + t * px b.
Proof. reflexivity. Qed.

Lemma py_lerp (t : R) (a b : point) :
  py (lerp a b t) = (1 - t) * py a + t * py b.
Proof. reflexivity. Qed.

(** ** The hodograph and the derivative sums *)

Lemma length_diffs (n : nat) (l : list point) :
  length (diffs n l) = (length l - 1)%nat.
Proof.
  induction l as [|a [|b l] IH]; simpl in *; try reflexivity.
  rewrite IH. lia.
Qed.

Lemma hodograph_from (n : nat) (A : list point) :
  forall P : list point,
    mapM (fun i => p1 ← (P ++ A) !! (i + 1)%nat;
                   p0 ← (P ++ A) !! i;
                   Some {| px := INR n * (px p1 - px p0);
                           py := INR n * (py p1 - py p0) |})
         (seq (length P) (length A - 1))
    = Some (diffs n A).
Proof.
  induction A as [|a [|b A] IH]; intros P; try reflexivity.
  replace (length (a :: b :: A) - 1)%nat with (S (length (b :: A) - 1))
    by (simpl; lia).
  cbn [seq mapM].
  rewrite (list_lookup_middle P (b :: A) a (length P) eq_refl).
  replace (P ++ a :: b :: A) with ((P ++ [a]) ++ b :: A)
    by (rewrite <- app_assoc; reflexivity).
  rewrite (list_lookup_middle (P ++ [a]) A b (length P + 1));
    [|rewrite length_app; simpl; lia].
  cbn [mbind option_bind].
  specialize (IH (P ++ [a])).
  rewrite length_app in IH. cbn [length] in IH.
  replace (length P + 1)%nat with (S (length P)) in IH by lia.
  cbn [length] in *. rewrite IH. reflexivity.
Qed.

Lemma hodograph_closed (points : list point) :
  hodograph_control_points points
  = Some (diffs (length points - 1) points).
Proof.
  unfold hodograph_control_points.
  destruct (decide (length points - 1 <= 0)%nat) as [Hn|Hn].
  - destruct points as [|a [|b l]]; simpl in *; try reflexivity; lia.
  - exact (hodograph_from (length points - 1) points []).
Qed.

Lemma derivative_loop (n : nat) (t : R) (A : list point) :
  forall (P : list point) (acc : R * R),
    foldl (derivative_step (P ++ A) n t) (Some acc)
          (seq (length P) (length A - 1))
    = Some (acc.1 + bernstein_sum px (n - 1) (length P) t (diffs n A),
            acc.2 + bernstein_sum py (n - 1) (length P) t (diffs n A)).
Proof.
  induction A as [|a [|b A] IH]; intros P [dx dy].
  - simpl. do 2 f_equal; ring.
  - simpl. do 2 f_equal; ring.
  - replace (length (a :: b :: A) - 1)%nat with (S (length (b :: A) - 1))
      by (simpl; lia).
    cbn [seq foldl]. unfold derivative_step at 2.
    cbn [mbind option_bind].
    rewrite (list_lookup_middle P (b :: A) a (length P) eq_refl).
    replace (P ++ a :: b :: A) with ((P ++ [a]) ++ b :: A)
      by (rewrite <- app_assoc; reflexivity).
    rewrite (list_lookup_middle (P ++ [a]) A b (length P + 1));
      [|rewrite length_app; simpl; lia].
    cbn [mbind option_bind fst snd].
    specialize (IH (P ++ [a])).
    rewrite length_app in IH. cbn [length] in IH.
    replace (length P + 1)%nat with (S (length P)) in IH by lia.
    cbn [length] in *. rewrite IH.
    cbn [fst snd diffs bernstein_sum px py]. do 2 f_equal; ring.
Qed.

Lemma derivative_closed (points : list point) (t : R) :
  (2 <= length points)%nat ->
  derivative points t
  = Some {| px := bernstein_sum px (length points - 2) 0 t
                    (diffs (length points - 1) points);
            py := bernstein_sum py (length points - 2) 0 t
                    (diffs (length points - 1) points) |}.
Proof.
  intros Hlen. unfold derivative.
  destruct (decide (length points - 1 <= 0)%nat) as [Hn|Hn]; [lia|].
  pose proof (derivative_loop (length points - 1) t points [] (0, 0)) as H.
  cbn [app length] in H. rewrite H.
  cbn [mbind option_bind fst snd].
  replace (length points - 1 - 1)%nat with (length points - 2)%nat by lia.
  do 2 f_equal; ring.
Qed.

(** C2. Derivative consistency: on a segment of at least two control
    points and at every real [t], the Bernstein sum of [derivative] and
    the de Casteljau evaluation of [hodograph_control_points] are the same
    vector. *)
Theorem derivative_is_hodograph (points : list point) (t : R) :
  (2 <= length points)%nat ->
  exists (h : list point) (d : point),
    hodograph_control_points points = Some h
    /\ derivative points t = Some d
    /\ de_casteljau h t = Some d.
Proof.
  intros Hlen.
  set (n := (length points - 1)%nat).
  exists (diffs n points).
  assert (length (diffs n points) = S (length points - 2)) as Hh
    by (rewrite length_diffs; lia).
  destruct (bezier_is_Some (diffs n points) t) as [p Hp].
  { intros E. rewrite E in Hh. discriminate. }
  exists p. split; [apply hodograph_closed|]. split.
  - rewrite (derivative_closed points t Hlen). fold n.
    rewrite <- (bezier_bernstein px t (px_lerp t) _ _ p Hh Hp).
    rewrite <- (bezier_bernstein py t (py_lerp t) _ _ p Hh Hp).
    destruct p; reflexivity.
  - rewrite de_casteljau_bezier. exact Hp.
Qed.

Lemma derivative_is_hodograph_witness :
  exists (h : list point) (d : point),
    hodograph_control_points [Point 0 0; Point 1 2; Point 3 3] (* degree 2 *)
    = Some h
    /\ derivative [Point 0 0; Point 1 2; Point 3 3] (1 / 4) = Some d
    /\ de_casteljau h (1 / 4) = Some d.
Proof.
  apply (derivative_is_hodograph [Point 0 0; Point 1 2; Point 3 3] (1 / 4)).
  simpl. lia.
Defined.

(** ** Second derivative and curvature *)

Lemma lookup_app_plus {A : Type} (P l : list A) (i : nat) :
  (P ++ l) !! (length P + i)%nat = l !! i.
Proof.
  rewrite lookup_app_r by lia. f_equal. lia.
Qed.

Lemma second_derivative_loop (n : nat) (t : R) (A : list point) :
  forall (P : list point) (acc : R * R),
    foldl (second_derivative_step (P ++ A) n t) (Some acc)
          (seq (length P) (length A - 2))
    = Some (acc.1 + bernstein_sum (fun q => INR n * (INR n - 1) * px q)
                      (n - 2) (length P) t (diffs2 A),
            acc.2 + bernstein_sum (fun q => INR n * (INR n - 1) * py q)
                      (n - 2) (length P) t (diffs2 A)).
Proof.
  induction A as [|a [|b [|c A]] IH]; intros P [dx dy].
  - simpl. do 2 f_equal; ring.
  - simpl. do 2 f_equal; ring.
  - simpl. do 2 f_equal; ring.
  - replace (length (a :: b :: c :: A) - 2)%nat
      with (S (length (b :: c :: A) - 2)) by (simpl; lia).
    cbn [seq foldl]. unfold second_derivative_step at 2.
    cbn [mbind option_bind].
    rewrite (lookup_app_plus P (a :: b :: c :: A) 2).
    rewrite (lookup_app_plus P (a :: b :: c :: A) 1).
    rewrite (list_lookup_middle P (b :: c :: A) a (length P) eq_refl).
    cbn [lookup list_lookup mbind option_bind fst snd].
    specialize (IH (P ++ [a])).
    rewrite length_app in IH. cbn [length] in IH.
    replace (length P + 1)%nat with (S (length P)) in IH by lia.
    rewrite <- app_assoc in IH. cbn [app] in IH.
    cbn [length] in *. rewrite IH.
    cbn [fst snd diffs2 bernstein_sum px py]. do 2 f_equal; ring.
Qed.

Lemma sum_on_direction (a b : R) (f g : point -> R) (n : nat) (t : R)
  (l : list point) :
  Forall (fun q => a * f q + b * g q = 0) l ->
  forall i : nat,
    a * bernstein_sum f n i t l + b * bernstein_sum g n i t l = 0.
Proof.
  induction 1 as [|q l Hq Hl IH]; intros i; simpl.
  - ring.
  - specialize (IH (S i)).
    transitivity ((a * f q + b * g q) * bern n i t
                  + (a * bernstein_sum f n (S i) t l
                     + b * bernstein_sum g n (S i) t l)).
    + ring.
    + rewrite Hq, IH. ring.
Qed.

Lemma diffs_on_line (a b c : R) (n : nat) (l : list point) :
  on_line a b c l ->
  Forall (fun q => a * px q + b * py q = 0) (diffs n l).
Proof.
  unfold on_line.
  induction l as [|p [|q l] IH]; intros H; simpl; try constructor.
  - pose proof (Forall_inv H) as Hp. pose proof (Forall_inv_tail H) as H'.
    pose proof (Forall_inv H') as Hq. cbv beta in Hp, Hq.
    simpl. transitivity (INR n * ((a * px q + b * py q)
                                  - (a * px p + b * py p))); [ring|].
    rewrite Hp, Hq. ring.
  - apply IH. exact (Forall_inv_tail H).
Qed.

Lemma diffs2_on_line (a b c k : R) (l : list point) :
  on_line a b c l ->
  Forall (fun q => a * (k * px q) + b * (k * py q) = 0) (diffs2 l).
Proof.
  unfold on_line.
  induction l as [|p [|q [|r l]] IH]; intros H; simpl; try constructor.
  - pose proof (Forall_inv H) as Hp. pose proof (Forall_inv_tail H) as H'.
    pose proof (Forall_inv H') as Hq. pose proof (Forall_inv_tail H') as H''.
    pose proof (Forall_inv H'') as Hr. cbv beta in Hp, Hq, Hr.
    simpl. transitivity (k * ((a * px r + b * py r)
                              - 2 * (a * px q + b * py q)
                              + (a * px p + b * py p))); [ring|].
    rewrite Hp, Hq, Hr. ring.
  - apply IH. exact (Forall_inv_tail H).
Qed.

(** [derivative] always returns, and its vector is parallel to any line
    that holds the control points. *)
Lemma derivative_on_line (points : list point) (t : R) :
  exists d : point,
    derivative points t = Some d
    /\ forall a b c : R, on_line a b c points -> a * px d + b * py d = 0.
Proof.
  destruct (le_lt_dec 2 (length points)) as [Hlen|Hlen].
  - eexists. split; [apply derivative_closed; exact Hlen|].
    intros a b c Hl. cbn [px py].
    apply sum_on_direction. eapply diffs_on_line. exact Hl.
  - exists {| px := 0; py := 0 |}. split.
    + unfold derivative.
      destruct (decide (length points - 1 <= 0)%nat); [reflexivity|lia].
    + intros a b c _. simpl. ring.
Qed.

Lemma second_derivative_on_line (points : list point) (t : R) :
  exists dd : point,
    second_derivative points t = Some dd
    /\ forall a b c : R, on_line a b c points -> a * px dd + b * py dd = 0.
Proof.
  unfold second_derivative.
  destruct (decide (length points - 1 <= 1)%nat) as [Hn|Hn].
  - exists {| px := 0; py := 0 |}. split; [reflexivity|].
    intros a b c _. simpl. ring.
  - pose proof (second_derivative_loop (length points - 1) t points []
                  (0, 0)) as H.
    cbn [app length] in H.
    replace (length points - 2)%nat with (length points - 1 - 1)%nat in H
      by lia.
    rewrite H. cbn [mbind option_bind fst snd].
    eexists. split; [reflexivity|].
    intros a b c Hl. cbn [px py]. rewrite !Rplus_0_l.
    apply sum_on_direction.
    apply (diffs2_on_line a b c _ points Hl).
Qed.

Lemma EPS_pos : 0 < EPS.
Proof. unfold EPS. apply Rinv_0_lt_compat. apply pow_lt. lra. Qed.

Lemma hypot_nonneg (a b : R) : 0 <= hypot a b.
Proof. apply sqrt_pos. Qed.

Lemma parallel_cross (a b dx dy ex ey : R) :
  a <> 0 \/ b <> 0 ->
  a * dx + b * dy = 0 -> a * ex + b * ey = 0 ->
  dx * ey - dy * ex = 0.
Proof.
  intros Hab Hd He.
  assert (a * (dx * ey - dy * ex) = 0) as Ha.
  { transitivity ((a * dx + b * dy) * ey - dy * (a * ex + b * ey)); [ring|].
    rewrite Hd, He. ring. }
  assert (b * (dx * ey - dy * ex) = 0) as Hb.
  { transitivity (dx * (a * ex + b * ey) - (a * dx + b * dy) * ex); [ring|].
    rewrite Hd, He. ring. }
  destruct Hab as [H|H].
  - apply Rmult_integral in Ha. tauto.
  - apply Rmult_integral in Hb. tauto.
Qed.

(** C8, as the code has it.  In exact arithmetic [curvature_at] returns
    exactly 0 at every [t] when all the control points are colinear.
    On every segment the result comes from the guard (0 when the speed
    [v] is below [1e-9]) or from the quotient [|cross| / v ^ 3], which
    is taken only when [v] is at least [1e-9], so that its divisor is at
    least [(1e-9) ^ 3]: no division by a near-zero magnitude takes
    place.  The binary64 function has the same guard: it returns 0 when
    the computed speed is below [1e-9], and it reaches [v ** 3] and the
    division only when it is not.  What binary64 does not have is the
    zero cross product (counterexample below). *)
Theorem curvature_at_colinear (points : list point) (t : R) :
  (colinear points -> curvature_at points t = Some 0)
  /\ (exists d dd : point,
        derivative points t = Some d
        /\ second_derivative points t = Some dd
        /\ ((hypot (px d) (py d) < EPS /\ curvature_at points t = Some 0)
            \/ (EPS <= hypot (px d) (py d)
                /\ EPS ^ 3 <= hypot (px d) (py d) ^ 3
                /\ curvature_at points t
                   = Some (Rabs (px d * py dd - py d * px dd)
                           / hypot (px d) (py d) ^ 3))))
  /\ forall (hypot' pow : float -> float -> float)
        (pts : list Binary64.point) (u : float) (e ee : Binary64.point),
       Binary64.derivative pow pts u = Some e ->
       Binary64.second_derivative pow pts u = Some ee ->
       ((hypot' (Binary64.px e) (Binary64.py e) <? 1e-9)%float = true ->
        Binary64.curvature_at hypot' pow pts u = Some 0%float)
       /\ ((hypot' (Binary64.px e) (Binary64.py e) <? 1e-9)%float = false ->
           Binary64.curvature_at hypot' pow pts u
           = (w ← Binary64.py_pow pow
                    (hypot' (Binary64.px e) (Binary64.py e)) 3;
              Binary64.checked_div
                (abs (Binary64.px e * Binary64.py ee
                      - Binary64.py e * Binary64.px ee))%float w)).
Proof.
  destruct (derivative_on_line points t) as (d & Hd & Hdl).
  destruct (second_derivative_on_line points t) as (dd & Hdd & Hddl).
  pose proof EPS_pos as Heps.
  assert ((hypot (px d) (py d) < EPS /\ curvature_at points t = Some 0)
          \/ (EPS <= hypot (px d) (py d)
              /\ EPS ^ 3 <= hypot (px d) (py d) ^ 3
              /\ curvature_at points t
                 = Some (Rabs (px d * py dd - py d * px dd)
                         / hypot (px d) (py d) ^ 3))) as Hguard.
  { unfold curvature_at. rewrite Hd, Hdd. cbn [mbind option_bind].
    destruct (Rlt_dec (hypot (px d) (py d)) EPS) as [Hv|Hv];
      [left; split; [exact Hv|reflexivity]|right].
    apply Rnot_lt_le in Hv. split; [exact Hv|].
    split; [apply pow_incr; lra|].
    unfold checked_div.
    destruct (Req_dec_T (hypot (px d) (py d) ^ 3) 0) as [E|E];
      [|reflexivity].
    apply pow_nonzero in E; [contradiction|lra]. }
  split; [|split].
  - intros (a & b & c & Hab & Hl).
    pose proof (parallel_cross a b _ _ _ _ Hab (Hdl a b c Hl) (Hddl a b c Hl))
      as Hcross.
    destruct Hguard as [[_ E]|(_ & _ & E)]; rewrite E; [reflexivity|].
    rewrite Hcross, Rabs_R0. f_equal. unfold Rdiv. ring.
  - exists d, dd. split; [exact Hd|]. split; [exact Hdd|exact Hguard].
  - intros hypot' pow pts u e ee He Hee.
    unfold Binary64.curvature_at. rewrite He, Hee.
    cbn [mbind option_bind].
    split; intros ->; reflexivity.
Qed.

Lemma curvature_at_colinear_witness :
  curvature_at [Point 0 0; Point 1 1; Point 4 4; Point 2 2] (1 / 3) = Some 0.
Proof.
  refine (proj1 (curvature_at_colinear
                   [Point 0 0; Point 1 1; Point 4 4; Point 2 2] (1 / 3)) _).
  exists 1, (-1), 0. split; [left; lra|].
  repeat constructor; simpl; lra.
Defined.

(** C8 fails as stated in the program's arithmetic.  The points (0,0),
    (1,3), (4,12) lie on the line [y = 3 x].  At [t = 0.1] the program
    computes the derivative (2.4000000000000004, 7.2) and the second
    derivative (4, 12); their cross product is 3.552713678800501e-15,
    not 0, the speed is far above [1e-9], and the result is
    8.126929325409028e-18.  The hypotheses name the values of the
    mathematical library that enter: [0.1 ** 1], [0.9 ** 1], the speed
    and its cube.  A second way: on (0,0), (1e103,0) the speed is 1e103,
    its cube is beyond the largest float, and [v ** 3] raises
    [OverflowError]. *)
Lemma curvature_at_not_zero_binary64 :
  colinear [Point 0 0; Point 1 3; Point 4 12]
  /\ (forall hypot pow : float -> float -> float,
         pow 0.1%float 1%float = 0.1%float ->
         pow 0.9%float 1%float = 0.9%float ->
         hypot 2.4000000000000004%float 7.2%float
         = 7.589466384404111%float ->
         pow 7.589466384404111%float 3%float = 437.1532637416769%float ->
         Binary64.curvature_at hypot pow
           [Binary64.Point 0 0; Binary64.Point 1 3; Binary64.Point 4 12] 0.1
         = Some 8.126929325409028e-18%float)
  /\ (8.126929325409028e-18 =? 0)%float = false
  /\ forall hypot pow : float -> float -> float,
       hypot 1e103%float 0%float = 1e103%float ->
       pow 1e103%float 3%float = infinity ->
       Binary64.curvature_at hypot pow
         [Binary64.Point 0 0; Binary64.Point 1e103 0] 0.5
       = None.
Proof.
  split; [|split; [|split]].
  - exists 3, (-1), 0. split; [left; lra|].
    repeat constructor; simpl; lra.
  - intros hypot pow H1 H2 H3 H4.
    unfold Binary64.curvature_at.
    assert (Binary64.derivative pow
              [Binary64.Point 0 0; Binary64.Point 1 3; Binary64.Point 4 12]
              0.1
            = Some (Binary64.Point 2.4000000000000004 7.2)) as ->.
    { vm_compute. rewrite H1, H2. vm_compute. reflexivity. }
    assert (Binary64.second_derivative pow
              [Binary64.Point 0 0; Binary64.Point 1 3; Binary64.Point 4 12]
              0.1
            = Some (Binary64.Point 4 12)) as ->.
    { vm_compute. reflexivity. }
    cbn [mbind option_bind Binary64.px Binary64.py].
    rewrite H3. unfold Binary64.py_pow.
    change (Binary64.of_nat 3) with 3%float.
    rewrite H4. vm_compute. reflexivity.
  - reflexivity.
  - intros hypot pow H1 H2.
    vm_compute. rewrite H1. vm_compute. rewrite H2. reflexivity.
Qed.

(** ** Arc length: the sampling loop and its refinements *)

Lemma de_casteljau_curve (seg : list point) (t : R) :
  seg <> [] -> de_casteljau seg t = Some (curve seg t).
Proof.
  intros Hne. rewrite de_casteljau_bezier. unfold curve.
  destruct (bezier_is_Some seg t Hne) as [p ->]. reflexivity.
Qed.

Lemma approximate_length_loop (seg : list point) (steps : nat) :
  seg <> [] ->
  forall k : nat,
    foldl (approximate_length_step seg steps)
          (Some (0, sample seg steps 0)) (seq 1 k)
    = Some (polyline (sample seg steps) k, sample seg steps k).
Proof.
  intros Hne. induction k as [|k IH]; [reflexivity|].
  rewrite seq_S, foldl_app, IH. cbn [foldl].
  unfold approximate_length_step. cbn [mbind option_bind fst snd].
  rewrite (de_casteljau_curve seg _ Hne). reflexivity.
Qed.

(** Called on a segment with no point, [approximate_length] fails at
    [tmp[0]] of its first [de_casteljau]. *)
Lemma approximate_length_empty (steps : nat) :
  approximate_length [] steps = None.
Proof. reflexivity. Qed.

Lemma approximate_length_closed (seg : list point) (steps : nat) :
  seg <> [] ->
  approximate_length seg steps = Some (polyline (sample seg steps) steps).
Proof.
  intros Hne. unfold approximate_length.
  rewrite (de_casteljau_curve seg 0 Hne). cbn [mbind option_bind].
  replace (curve seg 0) with (sample seg steps 0).
  - rewrite (approximate_length_loop seg steps Hne). reflexivity.
  - unfold sample. f_equal. simpl. unfold Rdiv. ring.
Qed.

Lemma hypot_triangle (p q r : point) :
  hypot (px r - px p) (py r - py p)
  <= hypot (px q - px p) (py q - py p) + hypot (px r - px q) (py r - py q).
Proof.
  pose proof (triangle (px r) (py r) (px p) (py p) (px q) (py q)) as H.
  unfold dist_euc, Rsqr in H. unfold hypot.
  lra.
Qed.

Lemma polyline_nonneg (g : nat -> point) (n : nat) : 0 <= polyline g n.
Proof.
  induction n as [|n IH]; simpl; [lra|].
  pose proof (hypot_nonneg (px (g (S n)) - px (g n))
                (py (g (S n)) - py (g n))). lra.
Qed.

Lemma hypot_self (p : point) : hypot (px p - px p) (py p - py p) = 0.
Proof.
  unfold hypot.
  replace ((px p - px p) * (px p - px p) + (py p - py p) * (py p - py p))
    with 0 by ring.
  apply sqrt_0.
Qed.

(** The chord is no longer than the polyline between its ends. *)
Lemma chord_le_polyline (g : nat -> point) (k : nat) :
  hypot (px (g k) - px (g 0%nat)) (py (g k) - py (g 0%nat)) <= polyline g k.
Proof.
  induction k as [|k IH].
  - rewrite hypot_self. simpl. lra.
  - simpl. pose proof (hypot_triangle (g 0%nat) (g k) (g (S k))). lra.
Qed.

Lemma polyline_split (g : nat -> point) (m k : nat) :
  polyline g (m + k) = polyline g m + polyline (fun i => g (m + i)%nat) k.
Proof.
  induction k as [|k IH].
  - rewrite Nat.add_0_r. simpl. ring.
  - replace (m + S k)%nat with (S (m + k)) by lia.
    cbn [polyline]. rewrite IH.
    replace (m + S k)%nat with (S (m + k)) by lia. ring.
Qed.

(** Keeping every [k]-th vertex of a polyline cannot lengthen it. *)
Lemma polyline_refine (g : nat -> point) (k s : nat) :
  polyline (fun i => g (k * i)%nat) s <= polyline g (k * s).
Proof.
  induction s as [|s IH].
  - rewrite Nat.mul_0_r. simpl. lra.
  - replace (k * S s)%nat with (k * s + k)%nat by lia.
    rewrite polyline_split. cbn [polyline].
    pose proof (chord_le_polyline (fun i => g (k * s + i)%nat) k) as Hc.
    cbv beta in Hc. rewrite Nat.add_0_r in Hc.
    replace (k * S s)%nat with (k * s + k)%nat by lia. lra.
Qed.

Lemma polyline_ext (g h : nat -> point) (n : nat) :
  (forall i : nat, (i <= n)%nat -> g i = h i) -> polyline g n = polyline h n.
Proof.
  induction n as [|n IH]; intros E; [reflexivity|].
  cbn [polyline]. rewrite IH by (intros i Hi; apply E; lia).
  rewrite (E (S n)), (E n) by lia. reflexivity.
Qed.

Lemma sample_multiple (seg : list point) (k s i : nat) :
  (0 < k)%nat -> (0 < s)%nat ->
  sample seg (k * s) (k * i) = sample seg s i.
Proof.
  intros Hk Hs. unfold sample. f_equal.
  rewrite !mult_INR.
  assert (INR k <> 0) by (apply not_0_INR; lia).
  assert (INR s <> 0) by (apply not_0_INR; lia).
  field. split; assumption.
Qed.

(** C7, as the code has it, in exact arithmetic.  On a segment with at
    least one point, [approximate_length] returns a length for every
    step count, the same one at every call, and the estimate does not
    decrease when the step count is replaced by a positive multiple of
    it (50 to 200 to 800): the finer polyline passes through every
    vertex of the coarser one.  The sum of the program is a sum of
    rounded terms, and in binary64 the inequality holds up to that
    rounding only (second part of the counterexample below). *)
Theorem approximate_length_refines (seg : list point) (s k : nat) :
  seg <> [] -> (0 < k)%nat ->
  exists L1 L2 : R,
    approximate_length seg s = Some L1
    /\ approximate_length seg (k * s) = Some L2
    /\ L1 <= L2
    /\ forall L : R, approximate_length seg s = Some L -> L = L1.
Proof.
  intros Hne Hk.
  exists (polyline (sample seg s) s), (polyline (sample seg (k * s)) (k * s)).
  rewrite !approximate_length_closed by exact Hne.
  split; [reflexivity|]. split; [reflexivity|]. split.
  - destruct s as [|s].
    + rewrite Nat.mul_0_r. simpl. lra.
    + rewrite <- (polyline_ext (fun i => sample seg (k * S s) (k * i))
                    (sample seg (S s)) (S s)).
      * apply polyline_refine.
      * intros i _. apply sample_multiple; lia.
  - intros L HL. congruence.
Qed.

Lemma approximate_length_refines_witness :
  exists L1 L2 : R,
    approximate_length [Point 0 0; Point 0 1; Point 0 0] 50 = Some L1
    /\ approximate_length [Point 0 0; Point 0 1; Point 0 0] (4 * 50)
       = Some L2
    /\ L1 <= L2
    /\ forall L : R,
         approximate_length [Point 0 0; Point 0 1; Point 0 0] 50 = Some L ->
         L = L1.
Proof.
  apply (approximate_length_refines
           [Point 0 0; Point 0 1; Point 0 0] 50 4).
  - discriminate.
  - lia.
Defined.

(** C7 fails as stated, in two ways.  Between step counts that do not
    divide one another the estimate can drop by far: on the quadratic
    segment (0,0), (0,1), (0,0), whose curve runs up to (0, 1/2) and
    back, two steps measure 1 (the sample at t = 1/2 is the turning
    point) and three steps measure 8/9 (the samples at 1/3 and 2/3 both
    miss it).  And in binary64 it can drop in the last digits even along
    multiples: on the straight segment (100,0), (0,0) the program
    returns 100.0 with 1 step and 99.99999999999999 with 50 steps,
    whatever [math.hypot] is off the axes. *)
Lemma approximate_length_not_monotone :
  ((2 < 3)%nat
   /\ approximate_length [Point 0 0; Point 0 1; Point 0 0] 2 = Some 1
   /\ approximate_length [Point 0 0; Point 0 1; Point 0 0] 3 = Some (8 / 9)
   /\ ~ (1 <= 8 / 9))
  /\ forall hypot : float -> float -> float,
       (forall x : float, hypot x 0%float = abs x) ->
       Binary64.approximate_length hypot
         [Binary64.Point 100 0; Binary64.Point 0 0] 1
       = Some 100%float
       /\ Binary64.approximate_length hypot
            [Binary64.Point 100 0; Binary64.Point 0 0] 50
          = Some 99.99999999999999%float
       /\ (99.99999999999999 <? 100)%float = true.
Proof.
  split.
  - split; [lia|]. split; [|split].
    + rewrite approximate_length_closed by discriminate.
      f_equal. unfold polyline, sample, curve, bezier. simpl.
      rewrite (hypot_eq _ _ (1 / 2)); [|lra|field].
      rewrite (hypot_eq _ _ (1 / 2)); [|lra|field].
      lra.
    + rewrite approximate_length_closed by discriminate.
      f_equal. unfold polyline, sample, curve, bezier. simpl.
      rewrite (hypot_eq _ _ (4 / 9)); [|lra|field].
      rewrite (hypot_eq _ _ 0); [|lra|field].
      rewrite (hypot_eq _ _ (4 / 9)); [|lra|field].
      lra.
    + lra.
  - intros hypot Haxis. split; [|split].
    + vm_compute. rewrite !Haxis. reflexivity.
    + vm_compute. rewrite !Haxis. vm_compute. reflexivity.
    + reflexivity.
Qed.

(** ** Running minima: the first least entry wins *)

Section Scan.

Context {T : Type}.

Lemma scan_from (l : list (T * R)) :
  forall (t0 : T) (d0 : R),
    (foldl scan_step (t0, Some d0) l = (t0, Some d0)
     /\ Forall (fun e => d0 <= e.2) l)
    \/ exists (l1 l2 : list (T * R)) (t : T) (d : R),
         l = l1 ++ (t, d) :: l2
         /\ foldl scan_step (t0, Some d0) l = (t, Some d)
         /\ d < d0
         /\ Forall (fun e => d < e.2) l1
         /\ Forall (fun e => d <= e.2) l2.
Proof.
  induction l as [|[t1 d1] l IH]; intros t0 d0.
  - left. split; [reflexivity|constructor].
  - cbn [foldl]. unfold scan_step at 2 4. cbn [fst snd lt_inf].
    destruct (Rlt_dec d1 d0) as [Hlt|Hge].
    + right.
      destruct (IH t1 d1)
        as [[E Hall]|(l1 & l2 & t & d & El & E & Hd & H1 & H2)].
      * exists [], l, t1, d1.
        split; [reflexivity|]. split; [exact E|]. split; [exact Hlt|].
        split; [constructor|exact Hall].
      * exists ((t1, d1) :: l1), l2, t, d. subst l.
        split; [reflexivity|]. split; [exact E|]. split; [lra|].
        split; [|exact H2]. constructor; [exact Hd|exact H1].
    + destruct (IH t0 d0)
        as [[E Hall]|(l1 & l2 & t & d & El & E & Hd & H1 & H2)].
      * left. split; [exact E|]. constructor; [simpl; lra|exact Hall].
      * right. exists ((t1, d1) :: l1), l2, t, d. subst l.
        split; [reflexivity|]. split; [exact E|]. split; [exact Hd|].
        split; [|exact H2]. constructor; [simpl; lra|exact H1].
Qed.

Lemma scan_first_min (l : list (T * R)) (t0 : T) :
  (l = [] /\ foldl scan_step (t0, None) l = (t0, None))
  \/ exists (l1 l2 : list (T * R)) (t : T) (d : R),
       l = l1 ++ (t, d) :: l2
       /\ foldl scan_step (t0, None) l = (t, Some d)
       /\ Forall (fun e => d < e.2) l1
       /\ Forall (fun e => d <= e.2) l2.
Proof.
  destruct l as [|[t1 d1] l]; [left; split; reflexivity|right].
  cbn [foldl]. unfold scan_step at 2. cbn [fst snd lt_inf].
  destruct (scan_from l t1 d1)
    as [[E Hall]|(l1 & l2 & t & d & El & E & Hd & H1 & H2)].
  - exists [], l, t1, d1.
    split; [reflexivity|]. split; [exact E|].
    split; [constructor|exact Hall].
  - exists ((t1, d1) :: l1), l2, t, d. subst l.
    split; [reflexivity|]. split; [exact E|].
    split; [|exact H2]. constructor; [exact Hd|exact H1].
Qed.

Variable before : T -> T -> Prop.
Hypothesis before_irrefl : forall t : T, ~ before t t.

(** On a list whose tags never go back, the winner is the least entry
    and strictly below every entry with an earlier tag. *)
Lemma scan_sorted (l : list (T * R)) (t0 t : T) (d : R) :
  StronglySorted (fun e e' => ~ before e'.1 e.1) l ->
  foldl scan_step (t0, None) l = (t, Some d) ->
  (t, d) ∈ l
  /\ forall e : T * R,
       e ∈ l -> d <= e.2 /\ (before e.1 t -> d < e.2).
Proof.
  intros Hs Hr.
  destruct (scan_first_min l t0)
    as [[-> E]|(l1 & l2 & t' & d' & -> & E & H1 & H2)].
  - simpl in Hr. congruence.
  - rewrite E in Hr. injection Hr as -> ->.
    split; [apply elem_of_app; right; apply elem_of_cons; left; reflexivity|].
    apply StronglySorted_app_1_r, StronglySorted_cons in Hs as [Hs _].
    rewrite Forall_forall in H1, H2, Hs.
    intros e He.
    apply elem_of_app in He as [He|He];
      [|apply elem_of_cons in He as [->|He]].
    + specialize (H1 e He). split; [lra|intros _; exact H1].
    + cbn [fst snd]. split; [lra|]. intros Hb. destruct (before_irrefl _ Hb).
    + split; [exact (H2 e He)|].
      intros Hb. destruct (Hs e He Hb).
Qed.

Lemma scan_none (l : list (T * R)) (t0 t : T) :
  foldl scan_step (t0, None) l = (t, None) -> l = [] /\ t = t0.
Proof.
  intros Hr.
  destruct (scan_first_min l t0)
    as [[-> E]|(l1 & l2 & t' & d' & -> & E & H1 & H2)].
  - simpl in Hr. split; congruence.
  - rewrite E in Hr. discriminate.
Qed.

End Scan.

(** ** [enumerate] and the order of the hit-test scan *)

Lemma elem_of_enumerate_from {A : Type} (l : list A) :
  forall (s k : nat) (a : A),
    (k, a) ∈ enumerate_from s l
    <-> exists i : nat, k = (s + i)%nat /\ l !! i = Some a.
Proof.
  induction l as [|b l IH]; intros s k a; cbn [enumerate_from].
  - split; [intros H; inversion H|intros (i & _ & H); discriminate].
  - rewrite elem_of_cons, IH. split.
    + intros [E|(i & -> & Hi)].
      * injection E as -> ->. exists 0%nat. split; [lia|reflexivity].
      * exists (S i). split; [lia|exact Hi].
    + intros ([|i] & -> & Hi).
      * left. injection Hi as ->. f_equal. lia.
      * right. exists i. split; [lia|exact Hi].
Qed.

Lemma enumerate_from_sorted {A : Type} (l : list A) :
  forall s : nat,
    StronglySorted (fun e e' : nat * A => (e.1 < e'.1)%nat)
                   (enumerate_from s l).
Proof.
  induction l as [|b l IH]; intros s; cbn [enumerate_from].
  - constructor.
  - constructor; [apply IH|].
    apply Forall_forall. intros [k a] Hk.
    apply elem_of_enumerate_from in Hk as (i & -> & _). simpl. lia.
Qed.

Lemma closest_step_scan (x y : R) (si : nat) (seg : segment)
  (st : option BezierCanvas.point_ref * option R) :
  foldl (BezierCanvas.closest_step x y si) st (enumerate seg)
  = foldl scan_step st (seg_entries x y si seg).
Proof. unfold seg_entries. rewrite foldl_fmap. reflexivity. Qed.

Lemma closest_seg_step_scan (x y : R) (l : list (nat * segment)) :
  forall st : option BezierCanvas.point_ref * option R,
    foldl (BezierCanvas.closest_seg_step x y) st l
    = foldl scan_step st (entries x y l).
Proof.
  induction l as [|e l IH]; intros st; [reflexivity|].
  cbn [foldl entries]. rewrite foldl_app, IH.
  unfold BezierCanvas.closest_seg_step.
  rewrite closest_step_scan. reflexivity.
Qed.

Lemma elem_of_seg_entries (x y : R) (si : nat) (seg : segment)
  (e : option BezierCanvas.point_ref * R) :
  e ∈ seg_entries x y si seg
  <-> exists (i : nat) (p : point),
        e = (Some (si, i, p), dist p x y) /\ seg !! i = Some p.
Proof.
  unfold seg_entries, enumerate. rewrite list_elem_of_fmap. split.
  - intros ([k p] & -> & Hk).
    apply elem_of_enumerate_from in Hk as (i & -> & Hi).
    exists i, p. split; [reflexivity|exact Hi].
  - intros (i & p & -> & Hi). exists (i, p). split; [reflexivity|].
    apply elem_of_enumerate_from. exists i. split; [reflexivity|exact Hi].
Qed.

Lemma elem_of_entries (x y : R) (segs : collection) :
  forall (s : nat) (e : option BezierCanvas.point_ref * R),
    e ∈ entries x y (enumerate_from s segs)
    <-> exists (k i : nat) (seg : segment) (p : point),
          e = (Some ((s + k)%nat, i, p), dist p x y)
          /\ segs !! k = Some seg /\ seg !! i = Some p.
Proof.
  induction segs as [|seg0 segs IH]; intros s e;
    cbn [enumerate_from entries fst snd].
  - split; [intros H; inversion H|intros (k & i & seg & p & _ & H & _)];
      discriminate.
  - rewrite elem_of_app, elem_of_seg_entries, IH. split.
    + intros [(i & p & -> & Hi)|(k & i & seg & p & -> & Hk & Hi)].
      * exists 0%nat, i, seg0, p. rewrite Nat.add_0_r. auto.
      * exists (S k), i, seg, p.
        replace (s + S k)%nat with (S s + k)%nat by lia. auto.
    + intros ([|k] & i & seg & p & -> & Hk & Hi).
      * left. injection Hk as ->. exists i, p.
        rewrite Nat.add_0_r. auto.
      * right. exists k, i, seg, p.
        replace (s + S k)%nat with (S s + k)%nat by lia. auto.
Qed.

Lemma tag_before_irrefl (o : option BezierCanvas.point_ref) :
  ~ tag_before o o.
Proof.
  destruct o as [r|]; simpl; [|tauto]. unfold scan_before. lia.
Qed.

Lemma seg_entries_sorted (x y : R) (si : nat) (seg : segment) :
  StronglySorted (fun e e' => ~ tag_before e'.1 e.1)
                 (seg_entries x y si seg).
Proof.
  unfold seg_entries, enumerate.
  pose proof (enumerate_from_sorted seg 0) as Hs.
  induction Hs as [|[k p] l Hs IH Hall]; [constructor|].
  rewrite fmap_cons. constructor; [exact IH|].
  rewrite Forall_fmap. eapply Forall_impl; [exact Hall|].
  intros [k' p'] Hk. simpl in *. unfold scan_before. simpl. lia.
Qed.

Lemma entries_sorted (x y : R) (segs : collection) :
  forall s : nat,
    StronglySorted (fun e e' => ~ tag_before e'.1 e.1)
                   (entries x y (enumerate_from s segs)).
Proof.
  induction segs as [|seg0 segs IH]; intros s;
    cbn [enumerate_from entries fst snd]; [constructor|].
  apply StronglySorted_app_2; [|apply seg_entries_sorted|apply IH].
  intros e e' He He'.
  apply elem_of_seg_entries in He as (i & p & -> & _).
  apply elem_of_entries in He' as (k & i' & seg & p' & -> & _).
  simpl. unfold scan_before. simpl. lia.
Qed.

Lemma point_at_entries (x y : R) (segments : collection)
  (r : BezierCanvas.point_ref) :
  point_at segments r
  <-> (Some r, dist r.2 x y) ∈ entries x y (enumerate segments).
Proof.
  unfold enumerate. rewrite elem_of_entries.
  destruct r as [[si i] p]. unfold point_at. cbn [fst snd]. split.
  - intros (seg & Hs & Hi). exists si, i, seg, p. auto.
  - intros (k & i' & seg & p' & E & Hk & Hi).
    injection E as -> -> ->. exists seg. auto.
Qed.

(** C6. Hit test: [_find_closest_point] returns a point exactly when
    some control point lies at distance at most [HIT_R]; the point
    returned is at the least distance over all the points of all the
    segments, and every point met before it in the scan (segment order,
    then point order) is strictly farther: the first minimum is kept. *)
Theorem find_closest_point_first_min (segments : collection) (x y : R) :
  (is_Some (BezierCanvas._find_closest_point segments x y)
   <-> exists r : BezierCanvas.point_ref,
         point_at segments r /\ dist r.2 x y <= HIT_R)
  /\ forall r : BezierCanvas.point_ref,
       BezierCanvas._find_closest_point segments x y = Some r ->
       point_at segments r
       /\ dist r.2 x y <= HIT_R
       /\ forall r' : BezierCanvas.point_ref,
            point_at segments r' ->
            dist r.2 x y <= dist r'.2 x y
            /\ (scan_before r' r -> dist r.2 x y < dist r'.2 x y).
Proof.
  assert (forall r : BezierCanvas.point_ref,
             BezierCanvas._find_closest_point segments x y = Some r ->
             point_at segments r
             /\ dist r.2 x y <= HIT_R
             /\ forall r' : BezierCanvas.point_ref,
                  point_at segments r' ->
                  dist r.2 x y <= dist r'.2 x y
                  /\ (scan_before r' r -> dist r.2 x y < dist r'.2 x y))
    as Hmin.
  { intros r. unfold BezierCanvas._find_closest_point.
    rewrite closest_seg_step_scan.
    destruct (foldl scan_step (None, None) (entries x y (enumerate segments)))
      as [t [d|]] eqn:E; cbn [fst snd le_inf]; [|discriminate].
    destruct (Rle_dec d HIT_R) as [Hd|Hd]; [|discriminate].
    intros ->.
    destruct (scan_sorted tag_before tag_before_irrefl _ _ _ _
                (entries_sorted x y segments 0) E) as [Hin Hall].
    assert (d = dist r.2 x y) as ->.
    { apply elem_of_entries in Hin as (k & i & seg & p & Ep & _).
      injection Ep as -> ->. reflexivity. }
    split; [apply (point_at_entries x y), Hin|]. split; [exact Hd|].
    intros r' Hr'. apply (point_at_entries x y) in Hr'.
    exact (Hall _ Hr'). }
  split; [|exact Hmin]. split.
  - intros [r Hr]. exists r. destruct (Hmin r Hr) as (H1 & H2 & _). auto.
  - intros (r & Hr & Hd). apply (point_at_entries x y) in Hr.
    unfold BezierCanvas._find_closest_point.
    rewrite closest_seg_step_scan.
    destruct (foldl scan_step (None, None) (entries x y (enumerate segments)))
      as [t [d|]] eqn:E; cbn [fst snd le_inf].
    + destruct (scan_sorted tag_before tag_before_irrefl _ _ _ _
                  (entries_sorted x y segments 0) E) as [Hin Hall].
      destruct (Hall _ Hr) as [Hle _]. cbn [snd] in Hle.
      destruct (Rle_dec d HIT_R) as [_|Hn]; [|lra].
      apply elem_of_entries in Hin as (k & i & seg & p & Ep & _).
      injection Ep as -> _. eauto.
    + apply scan_none in E as [E _]. rewrite E in Hr. inversion Hr.
Qed.

Lemma find_closest_point_first_min_witness :
  BezierCanvas._find_closest_point [[Point 0 0; Point 0 0]] 3 4
  = Some (0%nat, 0%nat, Point 0 0).
Proof.
  destruct (find_closest_point_first_min [[Point 0 0; Point 0 0]] 3 4)
    as [Hsome Hmin].
  assert (point_at [[Point 0 0; Point 0 0]] (0%nat, 0%nat, Point 0 0))
    as Hfirst.
  { exists [Point 0 0; Point 0 0]. split; reflexivity. }
  destruct (proj2 Hsome) as [r Hr].
  { exists (0%nat, 0%nat, Point 0 0). split; [exact Hfirst|].
    unfold dist, HIT_R. simpl. rewrite (hypot_eq _ _ 5); lra. }
  rewrite Hr. f_equal.
  destruct (Hmin r Hr) as ((seg & Hs & Hi) & _ & Hall).
  destruct (Hall _ Hfirst) as [_ Hlt].
  destruct r as [[[|si] i] p]; cbn [fst snd] in *; [|discriminate].
  injection Hs as <-.
  destruct i as [|[|i]]; cbn in Hi; try discriminate; injection Hi as <-.
  - reflexivity.
  - exfalso. apply (Rlt_irrefl (dist (Point 0 0) 3 4)), Hlt.
    right. simpl. lia.
Defined.

(** ** The total length of the collection *)

Lemma total_len_loop (segments : collection) :
  forall acc : R,
    foldl (fun acc seg =>
             acc ← acc; l ← approximate_length seg 200; Some (acc + l))
          (Some acc)
          (filter (fun seg => (2 <= length seg)%nat) segments)
    = Some (acc + total_spec segments).
Proof.
  induction segments as [|seg rest IH]; intros acc.
  - simpl. f_equal. ring.
  - rewrite filter_cons. cbn [total_spec].
    unfold contribution.
    destruct (decide (2 <= length seg)%nat) as [Hlen|Hlen].
    + cbn [foldl mbind option_bind].
      rewrite approximate_length_closed
        by (intros ->; simpl in Hlen; lia).
      cbn [mbind option_bind]. rewrite IH. f_equal. ring.
    + rewrite IH. f_equal. ring.
Qed.

Lemma total_len_closed (segments : collection) :
  MainWindow.total_len segments = Some (total_spec segments).
Proof.
  unfold MainWindow.total_len. rewrite total_len_loop. f_equal. ring.
Qed.

Lemma total_spec_middle (s1 s2 : collection) (seg : segment) :
  total_spec (s1 ++ seg :: s2) = total_spec (s1 ++ s2) + contribution seg.
Proof.
  induction s1 as [|a s1 IH]; cbn [app total_spec]; [|rewrite IH]; ring.
Qed.

(** C10. Total length: [total_len] returns a number on every collection
    (no error); the empty collection gives 0; a segment of 0 or 1 points
    leaves the total as it is without it, and is never passed to
    [approximate_length]; a segment of 2 or more points adds its
    [approximate_length] at the default 200 steps. *)
Theorem total_len_sums (segments : collection) :
  exists L : R,
    MainWindow.total_len segments = Some L
    /\ (segments = [] -> L = 0)
    /\ forall (s1 s2 : collection) (seg : segment),
         segments = s1 ++ seg :: s2 ->
         exists L' : R,
           MainWindow.total_len (s1 ++ s2) = Some L'
           /\ ((length seg <= 1)%nat -> L = L')
           /\ ((2 <= length seg)%nat ->
               exists l : R,
                 approximate_length seg 200 = Some l /\ L = L' + l).
Proof.
  exists (total_spec segments).
  split; [apply total_len_closed|]. split; [intros ->; reflexivity|].
  intros s1 s2 seg ->. exists (total_spec (s1 ++ s2)).
  split; [apply total_len_closed|].
  rewrite total_spec_middle. unfold contribution.
  destruct (decide (2 <= length seg)%nat) as [Hlen|Hlen]; split.
  - lia.
  - intros _. eexists. split; [|reflexivity].
    apply approximate_length_closed. intros ->. simpl in Hlen. lia.
  - intros _. ring.
  - lia.
Qed.

Lemma total_len_sums_witness :
  exists L : R,
    MainWindow.total_len [[]; [Point 1 1]] = Some L /\ L = 0.
Proof.
  destruct (total_len_sums [[]; [Point 1 1]]) as (L & HL & _ & Hmid).
  exists L. split; [exact HL|].
  destruct (Hmid [] [[Point 1 1]] [] eq_refl) as (L1 & HL1 & Hsame & _).
  rewrite (Hsame ltac:(simpl; lia)).
  destruct (total_len_sums [[Point 1 1]]) as (L1' & HL1' & _ & Hmid').
  destruct (Hmid' [] [] [Point 1 1] eq_refl) as (L0 & HL0 & Hsame' & _).
  destruct (total_len_sums []) as (L0' & HL0' & Hnil & _).
  simpl app in *.
  assert (L1 = L1') as -> by congruence.
  rewrite (Hsame' ltac:(simpl; lia)).
  assert (L0 = L0') as -> by congruence.
  apply Hnil. reflexivity.
Defined.

(** ** Removal of a control point *)

Lemma first_hit_spec (x y : R) (seg : segment) :
  forall s : nat,
    match BezierCanvas.first_hit x y (enumerate_from s seg) with
    | Some k =>
        exists (i : nat) (p : point),
          k = (s + i)%nat /\ seg !! i = Some p /\ dist p x y < HIT_R
          /\ forall (j : nat) (q : point),
               (j < i)%nat -> seg !! j = Some q -> ~ dist q x y < HIT_R
    | None =>
        forall (j : nat) (q : point),
          seg !! j = Some q -> ~ dist q x y < HIT_R
    end.
Proof.
  induction seg as [|p seg IH]; intros s;
    cbn [enumerate_from BezierCanvas.first_hit].
  - intros j q Hj. discriminate.
  - destruct (Rlt_dec (dist p x y) HIT_R) as [Hp|Hp].
    + exists 0%nat, p. split; [lia|]. split; [reflexivity|].
      split; [exact Hp|]. intros j q Hj. lia.
    + specialize (IH (S s)).
      destruct (BezierCanvas.first_hit x y (enumerate_from (S s) seg))
        as [k|].
      * destruct IH as (i & q & -> & Hi & Hq & Hbefore).
        exists (S i), q. split; [lia|]. split; [exact Hi|].
        split; [exact Hq|]. intros [|j] r Hj Hr.
        -- injection Hr as <-. exact Hp.
        -- apply (Hbefore j r); [lia|exact Hr].
      * intros [|j] q Hj.
        -- injection Hj as <-. exact Hp.
        -- exact (IH j q Hj).
Qed.

(** A point that [_remove_point] may take: within [HIT_R] (the code's
    test is the strict [dist(p, x, y) < HIT_R]) and in a segment of more
    than 2 points. *)
Lemma remove_point_cases (x y : R) (segments : collection) :
  (BezierCanvas._remove_point segments x y = segments
   /\ forall (si i : nat) (seg : segment) (p : point),
        segments !! si = Some seg -> (2 < length seg)%nat ->
        seg !! i = Some p -> ~ dist p x y < HIT_R)
  \/ exists (si i : nat) (seg : segment) (p : point),
       segments !! si = Some seg /\ (2 < length seg)%nat
       /\ seg !! i = Some p /\ dist p x y < HIT_R
       /\ BezierCanvas._remove_point segments x y
          = <[si := delete i seg]> segments
       /\ forall (sj j : nat) (segj : segment) (q : point),
            segments !! sj = Some segj -> (2 < length segj)%nat ->
            segj !! j = Some q -> dist q x y < HIT_R ->
            ~ scan_before (sj, j, q) (si, i, p).
Proof.
  induction segments as [|seg0 rest IH]; cbn [BezierCanvas._remove_point].
  - left. split; [reflexivity|]. intros si i seg p H. discriminate.
  - assert ((forall (i : nat) (p : point),
                (2 < length seg0)%nat -> seg0 !! i = Some p ->
                ~ dist p x y < HIT_R) ->
            (seg0 :: BezierCanvas._remove_point rest x y = seg0 :: rest
             /\ forall (si i : nat) (seg : segment) (p : point),
                  (seg0 :: rest) !! si = Some seg -> (2 < length seg)%nat ->
                  seg !! i = Some p -> ~ dist p x y < HIT_R)
            \/ exists (si i : nat) (seg : segment) (p : point),
                 (seg0 :: rest) !! si = Some seg /\ (2 < length seg)%nat
                 /\ seg !! i = Some p /\ dist p x y < HIT_R
                 /\ seg0 :: BezierCanvas._remove_point rest x y
                    = <[si := delete i seg]> (seg0 :: rest)
                 /\ forall (sj j : nat) (segj : segment) (q : point),
                      (seg0 :: rest) !! sj = Some segj ->
                      (2 < length segj)%nat ->
                      segj !! j = Some q -> dist q x y < HIT_R ->
                      ~ scan_before (sj, j, q) (si, i, p)) as Hskip.
    { intros Hnone.
      destruct IH as [[E Hall]|(si & i & seg & p & Hs & Hl & Hi & Hp & E & Hf)].
      - left. split; [rewrite E; reflexivity|].
        intros [|si] i seg p Hs Hl Hi.
        + injection Hs as <-. exact (Hnone i p Hl Hi).
        + exact (Hall si i seg p Hs Hl Hi).
      - right. exists (S si), i, seg, p.
        split; [exact Hs|]. split; [exact Hl|]. split; [exact Hi|].
        split; [exact Hp|]. split; [rewrite E; reflexivity|].
        intros [|sj] j segj q Hsj Hlj Hj Hq Hb.
        + injection Hsj as <-. exact (Hnone j q Hlj Hj Hq).
        + apply (Hf sj j segj q Hsj Hlj Hj Hq).
          unfold scan_before in *. simpl in *. lia. }
    destruct (decide (length seg0 <= 2)%nat) as [Hlen|Hlen].
    + apply Hskip. intros i p Hl. lia.
    + pose proof (first_hit_spec x y seg0 0) as Hhit.
      fold (enumerate seg0) in Hhit.
      destruct (BezierCanvas.first_hit x y (enumerate seg0)) as [k|].
      * destruct Hhit as (i & p & -> & Hi & Hp & Hbefore).
        right. exists 0%nat, i, seg0, p.
        split; [reflexivity|]. split; [lia|]. split; [exact Hi|].
        split; [exact Hp|]. split; [reflexivity|].
        intros sj j segj q Hsj Hlj Hj Hq Hb.
        unfold scan_before in Hb. simpl in Hb.
        destruct Hb as [Hb|[-> Hb]]; [lia|].
        injection Hsj as <-. exact (Hbefore j q Hb Hj Hq).
      * apply Hskip. intros i p _ Hi. exact (Hhit i p Hi).
Qed.

(** C5, as the code has it.  Removal: [_remove_point] takes out exactly
    the first point, in segment-then-point scan order, that lies at a
    distance strictly less than [HIT_R] from [(x, y)] (the code's test
    [dist(p, x, y) < HIT_R]) and belongs to a segment of more than 2
    points, and changes nothing when there is none; a segment of 2 or
    fewer points comes back as it was, and a segment of at least 2
    points never comes back with fewer than 2.  The statement compares
    the distances only, and holds for their computed values as for the
    exact ones. *)
Theorem remove_point_first_hit (segments : collection) (x y : R) :
  ((BezierCanvas._remove_point segments x y = segments
    /\ forall (si i : nat) (seg : segment) (p : point),
         segments !! si = Some seg -> (2 < length seg)%nat ->
         seg !! i = Some p -> ~ dist p x y < HIT_R)
   \/ exists (si i : nat) (seg : segment) (p : point),
        segments !! si = Some seg /\ (2 < length seg)%nat
        /\ seg !! i = Some p /\ dist p x y < HIT_R
        /\ BezierCanvas._remove_point segments x y
           = <[si := delete i seg]> segments
        /\ forall (sj j : nat) (segj : segment) (q : point),
             segments !! sj = Some segj -> (2 < length segj)%nat ->
             segj !! j = Some q -> dist q x y < HIT_R ->
             ~ scan_before (sj, j, q) (si, i, p))
  /\ length (BezierCanvas._remove_point segments x y) = length segments
  /\ forall (si : nat) (seg seg' : segment),
       segments !! si = Some seg ->
       BezierCanvas._remove_point segments x y !! si = Some seg' ->
       ((length seg <= 2)%nat -> seg' = seg)
       /\ ((2 <= length seg)%nat -> (2 <= length seg')%nat).
Proof.
  pose proof (remove_point_cases x y segments) as Hcases.
  split; [exact Hcases|].
  destruct Hcases
    as [[E _]|(si & i & seg & p & Hs & Hl & Hi & Hp & E & _)]; rewrite E.
  - split; [reflexivity|]. intros sk seg0 seg' H0 H'.
    assert (seg' = seg0) as -> by congruence. auto.
  - split; [apply length_insert|]. intros sk seg0 seg' H0 H'.
    destruct (decide (sk = si)) as [->|Hne].
    + assert (seg0 = seg) as -> by congruence.
      rewrite list_lookup_insert_eq in H' by (eapply lookup_lt_Some; eauto).
      injection H' as <-. split; [lia|]. intros _.
      pose proof (length_delete seg i (ex_intro _ p Hi)) as Hd.
      lia.
    + rewrite list_lookup_insert_ne in H' by congruence.
      assert (seg' = seg0) as -> by congruence. auto.
Qed.

Lemma remove_point_first_hit_witness :
  BezierCanvas._remove_point [[Point 0 0; Point 100 0]] 1 1
  = [[Point 0 0; Point 100 0]].
Proof.
  destruct (remove_point_first_hit [[Point 0 0; Point 100 0]] 1 1)
    as (_ & Hlen & Hkeep).
  destruct (BezierCanvas._remove_point [[Point 0 0; Point 100 0]] 1 1)
    as [|seg' [|seg'' rest]]; try discriminate.
  destruct (Hkeep 0%nat [Point 0 0; Point 100 0] seg' eq_refl eq_refl)
    as [Hsame _].
  rewrite (Hsame ltac:(simpl; lia)). reflexivity.
Defined.

(** C5 fails as stated at the radius itself.  The point (10, 0) is at
    distance exactly [HIT_R] from the origin: it lies within [HIT_R], and
    [_find_closest_point], whose test is [best_d <= HIT_R], returns it.
    It is the first point of a segment of three points, and
    [_remove_point], whose test is [dist(p, x, y) < HIT_R], leaves the
    collection as it is.  (The distance is [hypot(10, 0) = 10] in
    binary64 too.) *)
Lemma remove_point_not_at_hit_radius :
  dist (Point 10 0) 0 0 <= HIT_R
  /\ BezierCanvas._find_closest_point
       [[Point 10 0; Point 50 0; Point 90 0]] 0 0
     = Some (0%nat, 0%nat, Point 10 0)
  /\ BezierCanvas._remove_point [[Point 10 0; Point 50 0; Point 90 0]] 0 0
     = [[Point 10 0; Point 50 0; Point 90 0]].
Proof.
  split; [|split].
  - rewrite dist_on_axis by lra. unfold HIT_R. lra.
  - unfold BezierCanvas._find_closest_point. simpl.
    unfold BezierCanvas.closest_seg_step, BezierCanvas.closest_step. simpl.
    rewrite !dist_on_axis by lra. unfold HIT_R.
    repeat (destruct (Rlt_dec _ _) as [H|_]; [exfalso; lra|]; simpl).
    destruct (Rle_dec 10 10) as [_|H]; [reflexivity|lra].
  - simpl. rewrite !dist_on_axis by lra. unfold HIT_R.
    repeat (destruct (Rlt_dec _ _) as [H|_]; [exfalso; lra|]).
    reflexivity.
Qed.

(** ** Insertion of a control point *)

Section Insertion.

Variable psd : point -> point -> point -> R.
Variable dst : point -> R -> R -> R.

Lemma edge_loop (p : point) (si : nat) (A : segment) :
  forall (P : segment) (st : nat * option R),
    foldl (Computed.edge_step psd p si (P ++ A)) (Some st)
          (seq (length P) (length A - 1))
    = Some (foldl scan_step st
                  ((fun d => (si, d)) <$> Computed.edge_dists psd p A)).
Proof.
  induction A as [|a [|b A] IH]; intros P st; try reflexivity.
  replace (length (a :: b :: A) - 1)%nat with (S (length (b :: A) - 1))
    by (simpl; lia).
  cbn [seq foldl]. unfold Computed.edge_step at 2.
  cbn [mbind option_bind].
  rewrite (list_lookup_middle P (b :: A) a (length P) eq_refl).
  replace (P ++ a :: b :: A) with ((P ++ [a]) ++ b :: A)
    by (rewrite <- app_assoc; reflexivity).
  rewrite (list_lookup_middle (P ++ [a]) A b (length P + 1));
    [|rewrite length_app; simpl; lia].
  cbn [mbind option_bind].
  specialize (IH (P ++ [a])).
  rewrite length_app in IH. cbn [length] in IH.
  replace (length P + 1)%nat with (S (length P)) in IH by lia.
  cbn [length] in *. rewrite IH. reflexivity.
Qed.

Lemma segment_step_scan (x y : R) (si : nat) (seg : segment)
  (st : nat * option R) :
  Computed.segment_step psd dst {| px := x; py := y |} x y (Some st)
                        (si, seg)
  = Some (foldl scan_step st
                ((fun d => (si, d)) <$> Computed.candidates psd dst x y seg)).
Proof.
  unfold Computed.segment_step. cbn [fst snd].
  pose proof (edge_loop {| px := x; py := y |} si seg [] st) as H.
  cbn [app length] in H. rewrite H. cbn [mbind option_bind].
  destruct seg as [|q [|r seg]]; reflexivity.
Qed.

Lemma best_segment_loop (x y : R) (l : list (nat * segment)) :
  forall st : nat * option R,
    foldl (Computed.segment_step psd dst {| px := x; py := y |} x y)
          (Some st) l
    = Some (foldl scan_step st (Computed.cand_entries psd dst x y l)).
Proof.
  induction l as [|[si seg] l IH]; intros st; [reflexivity|].
  cbn [foldl Computed.cand_entries fst snd].
  rewrite segment_step_scan, IH, foldl_app. reflexivity.
Qed.

Lemma elem_of_cand_entries (x y : R) (segs : collection) :
  forall (s k : nat) (d : R),
    (k, d) ∈ Computed.cand_entries psd dst x y (enumerate_from s segs)
    <-> exists (i : nat) (seg : segment),
          k = (s + i)%nat /\ segs !! i = Some seg
          /\ d ∈ Computed.candidates psd dst x y seg.
Proof.
  induction segs as [|seg0 segs IH]; intros s k d;
    cbn [enumerate_from Computed.cand_entries fst snd].
  - split; [intros H; inversion H|intros (i & seg & _ & H & _)];
      discriminate.
  - rewrite elem_of_app, list_elem_of_fmap, IH. split.
    + intros [(d' & E & Hd)|(i & seg & -> & Hi & Hd)].
      * injection E as -> ->. exists 0%nat, seg0.
        split; [lia|]. split; [reflexivity|exact Hd].
      * exists (S i), seg. split; [lia|]. split; [exact Hi|exact Hd].
    + intros ([|i] & seg & -> & Hi & Hd).
      * left. injection Hi as ->. exists d.
        split; [f_equal; lia|exact Hd].
      * right. exists i, seg. split; [lia|]. split; [exact Hi|exact Hd].
Qed.

Lemma cand_entries_sorted (x y : R) (segs : collection) :
  forall s : nat,
    StronglySorted (fun e e' : nat * R => ~ (e'.1 < e.1)%nat)
                   (Computed.cand_entries psd dst x y (enumerate_from s segs)).
Proof.
  induction segs as [|seg0 segs IH]; intros s;
    cbn [enumerate_from Computed.cand_entries fst snd]; [constructor|].
  apply StronglySorted_app_2; [| |apply IH].
  - intros e [k d] He He'.
    apply list_elem_of_fmap in He as (d0 & -> & _).
    apply elem_of_cand_entries in He' as (i & seg & -> & _).
    simpl. lia.
  - induction (Computed.candidates psd dst x y seg0) as [|d l IHl];
      [constructor|].
    rewrite fmap_cons. constructor; [exact IHl|].
    apply Forall_forall. intros e He.
    apply list_elem_of_fmap in He as (d0 & -> & _). simpl. lia.
Qed.

(** The choice of [best_seg]. *)
Lemma best_segment_selected (segments : collection) (x y : R) :
  exists (s : nat) (od : option R),
    Computed.best_segment psd dst segments x y = Some (s, od)
    /\ Computed.selected_segment psd dst segments x y s.
Proof.
  unfold Computed.best_segment. rewrite best_segment_loop.
  destruct (foldl scan_step (0%nat, None)
                  (Computed.cand_entries psd dst x y (enumerate segments)))
    as [s [d|]] eqn:E; exists s; eexists; (split; [reflexivity|]).
  - right.
    destruct (scan_sorted lt Nat.lt_irrefl _ _ _ _
                (cand_entries_sorted x y segments 0) E) as [Hin Hall].
    apply elem_of_cand_entries in Hin as (i & seg & -> & Hi & Hd).
    exists seg, d. split; [exact Hi|]. split; [exact Hd|].
    intros sj segj dj Hsj Hdj.
    apply (Hall (sj, dj)). apply elem_of_cand_entries.
    exists sj, segj. auto.
  - left. apply scan_none in E as [E ->]. split; [|reflexivity].
    intros sj segj Hsj.
    destruct (Computed.candidates psd dst x y segj) as [|d l] eqn:Ec;
      [reflexivity|].
    assert ((sj, d) ∈ Computed.cand_entries psd dst x y (enumerate segments))
      as Hin.
    { apply elem_of_cand_entries. exists sj, segj.
      rewrite Ec. split; [reflexivity|]. split; [exact Hsj|].
      apply elem_of_cons. left. reflexivity. }
    rewrite E in Hin. inversion Hin.
Qed.

Lemma py_min_loop (x y : R) (A : segment) :
  forall (P : segment) (st : nat * R),
    exists st' : nat * R,
      foldl (py_min_step (fun i => q ← (P ++ A) !! i; Some (dst q x y)))
            (Some st) (seq (length P) (length A))
      = Some st'
      /\ foldl scan_step (st.1, Some st.2)
               ((fun e => (e.1, dst e.2 x y))
                  <$> enumerate_from (length P) A)
         = (st'.1, Some st'.2).
Proof.
  induction A as [|a A IH]; intros P st.
  - exists st. split; reflexivity.
  - cbn [length seq foldl enumerate_from]. rewrite fmap_cons. cbn [foldl].
    unfold py_min_step at 2. cbn [mbind option_bind].
    rewrite (list_lookup_middle P A a (length P) eq_refl).
    cbn [mbind option_bind].
    unfold scan_step at 2. cbn [fst snd lt_inf].
    specialize (IH (P ++ [a])).
    rewrite length_app in IH. cbn [length] in IH.
    replace (length P + 1)%nat with (S (length P)) in IH by lia.
    rewrite <- app_assoc in IH. cbn [app] in IH.
    destruct (Rlt_dec (dst a x y) st.2) as [Hlt|Hge].
    + exact (IH (length P, dst a x y)).
    + exact (IH st).
Qed.

Lemma py_min_scan (x y : R) (seg : segment) :
  seg <> [] ->
  exists (idx : nat) (d : R),
    py_min (fun i => q ← seg !! i; Some (dst q x y)) (seq 0 (length seg))
    = Some idx
    /\ foldl scan_step (0%nat, None)
             ((fun e => (e.1, dst e.2 x y)) <$> enumerate seg)
       = (idx, Some d).
Proof.
  destruct seg as [|a A]; [congruence|intros _].
  destruct (py_min_loop x y A [a] (0%nat, dst a x y)) as (st' & Hpy & Hsc).
  exists st'.1, st'.2.
  cbn [length seq py_min lookup list_lookup mbind option_bind].
  cbn [app length] in Hpy. rewrite Hpy. split; [reflexivity|].
  unfold enumerate. cbn [enumerate_from]. rewrite fmap_cons.
  cbn [foldl length fst snd] in *. exact Hsc.
Qed.

Lemma py_min_nearest (x y : R) (seg : segment) :
  seg <> [] ->
  exists (idx : nat) (q : point),
    py_min (fun i => q ← seg !! i; Some (dst q x y)) (seq 0 (length seg))
    = Some idx
    /\ seg !! idx = Some q
    /\ forall (j : nat) (r : point),
         seg !! j = Some r ->
         dst q x y <= dst r x y
         /\ ((j < idx)%nat -> dst q x y < dst r x y).
Proof.
  intros Hne. destruct (py_min_scan x y seg Hne) as (idx & d & Hpy & Hsc).
  assert (StronglySorted (fun e e' : nat * R => ~ (e'.1 < e.1)%nat)
            ((fun e => (e.1, dst e.2 x y)) <$> enumerate seg)) as Hsorted.
  { unfold enumerate. pose proof (enumerate_from_sorted seg 0) as Hs.
    induction Hs as [|[k p] l Hs IH Hall]; [constructor|].
    rewrite fmap_cons. constructor; [exact IH|].
    rewrite Forall_fmap. eapply Forall_impl; [exact Hall|].
    intros [k' p'] Hk. simpl in *. lia. }
  destruct (scan_sorted lt Nat.lt_irrefl _ _ _ _ Hsorted Hsc) as [Hin Hall].
  apply list_elem_of_fmap in Hin as ([k q] & E & Hk).
  injection E as -> ->.
  apply elem_of_enumerate_from in Hk as (i & -> & Hi).
  exists (0 + i)%nat, q. split; [exact Hpy|]. split; [exact Hi|].
  intros j r Hj. apply (Hall (j, dst r x y)).
  apply list_elem_of_fmap. exists (j, r). split; [reflexivity|].
  apply elem_of_enumerate_from. exists j. split; [reflexivity|exact Hj].
Qed.

(** The shape of every insertion, whatever the computed distances are. *)
Lemma computed_insertion_shape (segments : collection) (x y : R) :
  segments <> [] ->
  exists (s : nat) (seg seg' : segment),
    segments !! s = Some seg
    /\ Computed.selected_segment psd dst segments x y s
    /\ Computed.inserted_after_nearest dst seg x y seg'
    /\ Computed._add_control_point psd dst segments x y
       = Some (<[s := seg']> segments).
Proof.
  intros Hne.
  destruct (best_segment_selected segments x y) as (s & od & Hbest & Hsel).
  assert (exists seg : segment, segments !! s = Some seg) as [seg Hs].
  { destruct Hsel as [[_ ->]|(seg & _ & Hs & _)]; [|eauto].
    destruct segments as [|seg0 rest]; [congruence|]. exists seg0.
    reflexivity. }
  unfold Computed._add_control_point.
  rewrite Hbest. cbn [mbind option_bind fst]. rewrite Hs.
  cbn [mbind option_bind].
  destruct (decide (length seg = 0%nat)) as [E|E].
  - destruct seg; [|discriminate].
    exists s, [], [{| px := x; py := y |}].
    split; [exact Hs|]. split; [exact Hsel|].
    split; [left; split; reflexivity|reflexivity].
  - destruct (py_min_nearest x y seg) as (idx & q & Hpy & Hq & Hall).
    { intros ->. apply E. reflexivity. }
    rewrite Hpy. cbn [mbind option_bind].
    exists s, seg. eexists.
    split; [exact Hs|]. split; [exact Hsel|]. split; [|reflexivity].
    right. exists idx, q. split; [exact Hq|]. split; [exact Hall|reflexivity].
Qed.

(** The insertion scenario: one segment, so the choice of segment is
    forced, and the new point goes after the first point as soon as the
    first point is computed to be no farther than the second. *)
Lemma computed_insertion_scenario :
  dst (Point 0 0) 50 5 <= dst (Point 100 0) 50 5 ->
  Computed._add_control_point psd dst [[Point 0 0; Point 100 0]] 50 5
  = Some [[Point 0 0; Point 50 5; Point 100 0]].
Proof.
  intros Hle.
  destruct (computed_insertion_shape [[Point 0 0; Point 100 0]] 50 5)
    as (s & seg & seg' & Hs & _ & Hins & ->); [discriminate|].
  destruct s as [|s]; [|discriminate]. injection Hs as <-.
  destruct Hins as [[E _]|(idx & q & Hq & Hall & ->)]; [discriminate|].
  destruct idx as [|[|idx]]; try discriminate.
  - reflexivity.
  - injection Hq as <-.
    destruct (Hall 0%nat (Point 0 0) eq_refl) as [_ Hlt].
    specialize (Hlt ltac:(lia)). exfalso. lra.
Qed.

End Insertion.

(** The same shape for the exact distances: the definitions of
    [BezierCanvas] are those of [Computed] at [point_to_segment_distance]
    and [dist]. *)
Lemma add_control_point_shape (segments : collection) (x y : R) :
  segments <> [] ->
  exists (s : nat) (seg seg' : segment),
    segments !! s = Some seg
    /\ selected_segment segments x y s
    /\ inserted_after_nearest seg x y seg'
    /\ BezierCanvas._add_control_point segments x y
       = Some (<[s := seg']> segments).
Proof.
  exact (computed_insertion_shape point_to_segment_distance dist
           segments x y).
Qed.

Lemma dist_symmetric_example :
  dist (Point 100 0) 50 5 = dist (Point 0 0) 50 5.
Proof. unfold dist, hypot. simpl. f_equal. ring. Qed.

(** C4, as the code has it.  The statement is about the distances as
    the program computes them: [psd] and [dst] are whatever numbers
    [point_to_segment_distance] and [dist] return, so it holds for the
    exact distances and for their binary64 values alike.  On a
    collection with at least one segment, [_add_control_point] inserts
    into the first segment that attains the least computed candidate,
    where the candidates of a segment are the [point_to_segment_distance]
    of each of its edges or, for a segment of exactly one point, the
    distance to that point, and into segment 0 when no segment has a
    candidate.  In that segment the new point becomes the sole point
    when the segment is empty, and otherwise goes right after the
    existing point whose computed distance is least, ties going to the
    lowest index.  For the segment (0,0), (100,0) and the query (50, 5)
    the result has three points, the new one at index 1, as soon as the
    first point is not computed to be farther than the second; in exact
    arithmetic, where [BezierCanvas._add_control_point] is the instance,
    the two are at the same distance. *)
Theorem add_control_point_spec
  (psd : point -> point -> point -> R) (dst : point -> R -> R -> R) :
  (forall (segments : collection) (x y : R),
      segments <> [] ->
      exists (s : nat) (seg seg' : segment),
        segments !! s = Some seg
        /\ Computed.selected_segment psd dst segments x y s
        /\ Computed.inserted_after_nearest dst seg x y seg'
        /\ Computed._add_control_point psd dst segments x y
           = Some (<[s := seg']> segments))
  /\ (dst (Point 0 0) 50 5 <= dst (Point 100 0) 50 5 ->
      Computed._add_control_point psd dst [[Point 0 0; Point 100 0]] 50 5
      = Some [[Point 0 0; Point 50 5; Point 100 0]])
  /\ (forall (segments : collection) (x y : R),
         Computed._add_control_point point_to_segment_distance dist
                                     segments x y
         = BezierCanvas._add_control_point segments x y)
  /\ BezierCanvas._add_control_point [[Point 0 0; Point 100 0]] 50 5
     = Some [[Point 0 0; Point 50 5; Point 100 0]].
Proof.
  split; [exact (computed_insertion_shape psd dst)|].
  split; [exact (computed_insertion_scenario psd dst)|].
  split; [reflexivity|].
  apply (computed_insertion_scenario point_to_segment_distance dist).
  rewrite dist_symmetric_example. lra.
Qed.

Lemma add_control_point_spec_witness :
  exists (s : nat) (seg seg' : segment),
    [[]; [Point 1 1]] !! s = Some seg
    /\ Computed.selected_segment point_to_segment_distance dist
                                 [[]; [Point 1 1]] 2 2 s
    /\ Computed.inserted_after_nearest dist seg 2 2 seg'
    /\ Computed._add_control_point point_to_segment_distance dist
                                   [[]; [Point 1 1]] 2 2
       = Some (<[s := seg']> [[]; [Point 1 1]]).
Proof.
  apply (proj1 (add_control_point_spec point_to_segment_distance dist)
               [[]; [Point 1 1]] 2 2).
  discriminate.
Defined.

(** Why the computed distances: the segments [(7,3)] and [(8,15), (2,7)]
    and the query (7, 7).  In exact arithmetic both candidates are 4, a
    tie, and the first segment is chosen.  The program computes 4.0 for
    the point and, through the quotient [c1 / c2 = 0.7] and the
    projection (3.8000000000000007, 9.4), 3.9999999999999996 for the
    edge: the second segment is chosen. *)
Example candidates_tie_binary64 :
  (dist (Point 7 3) 7 7 = 4
   /\ point_to_segment_distance (Point 7 7) (Point 8 15) (Point 2 7) = 4)
  /\ forall hypot : float -> float -> float,
       hypot 0%float (-4)%float = 4%float ->
       hypot 3.1999999999999993%float (-2.4000000000000004)%float
       = 3.9999999999999996%float ->
       Binary64.dist hypot (Binary64.Point 7 3) 7 7 = 4%float
       /\ Binary64.point_to_segment_distance hypot (Binary64.Point 7 7)
            (Binary64.Point 8 15) (Binary64.Point 2 7)
          = 3.9999999999999996%float
       /\ (3.9999999999999996 <? 4)%float = true.
Proof.
  split; [split|].
  - unfold dist. simpl. apply hypot_eq; [lra|ring].
  - unfold point_to_segment_distance. simpl.
    destruct (Rle_dec _ 0) as [H|_]; [exfalso; lra|].
    destruct (Rle_dec _ _) as [H|_]; [exfalso; lra|].
    apply hypot_eq; [lra|field].
  - intros hypot H1 H2. split; [|split].
    + vm_compute. exact H1.
    + vm_compute. exact H2.
    + reflexivity.
Qed.

Lemma point_to_segment_distance_example :
  point_to_segment_distance (Point 50 49) (Point 0 0) (Point 100 0) = 49.
Proof.
  unfold point_to_segment_distance. simpl.
  destruct (Rle_dec _ 0) as [H|_]; [exfalso; lra|].
  destruct (Rle_dec _ _) as [H|_]; [exfalso; lra|].
  apply hypot_eq; [lra|field].
Qed.

Lemma dist_example : dist (Point 50 50) 50 49 = 1.
Proof. unfold dist. simpl. apply hypot_eq; [lra|ring]. Qed.

(** C4 fails as stated: with the segments [(0,0), (100,0)] and [(50,50)]
    and the query (50, 49), the nearest edge (at distance 49) is in
    segment 0, but the new point goes into segment 1, a segment of one
    point and no edge, whose point is at distance 1. *)
Lemma add_control_point_not_nearest_edge :
  BezierCanvas._add_control_point
    [[Point 0 0; Point 100 0]; [Point 50 50]] 50 49
  = Some [[Point 0 0; Point 100 0]; [Point 50 50; Point 50 49]]
  /\ ~ has_nearest_edge [[Point 0 0; Point 100 0]; [Point 50 50]] 50 49 1
  /\ has_nearest_edge [[Point 0 0; Point 100 0]; [Point 50 50]] 50 49 0.
Proof.
  split; [|split].
  - destruct (add_control_point_shape
                [[Point 0 0; Point 100 0]; [Point 50 50]] 50 49)
      as (s & seg & seg' & Hs & Hsel & Hins & ->); [discriminate|].
    assert (s = 1%nat) as ->.
    { destruct Hsel as [[Hnone _]|(seg0 & d & Hs0 & Hd & Hall)].
      - specialize (Hnone 1%nat [Point 50 50] eq_refl). discriminate.
      - destruct s as [|[|s]]; [|reflexivity|discriminate].
        exfalso. injection Hs0 as <-.
        apply list_elem_of_singleton in Hd.
        cbn [candidates edge_dists] in Hd.
        rewrite point_to_segment_distance_example in Hd. subst d.
        destruct (Hall 1%nat [Point 50 50] (dist (Point 50 50) 50 49)
                    eq_refl) as [Hle _].
        + apply elem_of_cons. left. reflexivity.
        + rewrite dist_example in Hle. lra. }
    injection Hs as <-.
    destruct Hins as [[E _]|(idx & q & Hq & _ & ->)]; [discriminate|].
    destruct idx as [|idx]; [reflexivity|discriminate].
  - intros (seg & d & Hs & Hd & _). injection Hs as <-.
    inversion Hd.
  - exists [Point 0 0; Point 100 0], 49. split; [reflexivity|]. split.
    + cbn [edge_dists]. rewrite point_to_segment_distance_example.
      apply elem_of_cons. left. reflexivity.
    + intros [|[|sj]] segj dj Hsj Hdj; try discriminate;
        injection Hsj as <-.
      * cbn [edge_dists] in Hdj.
        rewrite point_to_segment_distance_example in Hdj.
        apply list_elem_of_singleton in Hdj. lra.
      * inversion Hdj.
Qed.

(** ** The collection keeps a segment *)

Lemma remove_point_length (segments : collection) (x y : R) :
  length (BezierCanvas._remove_point segments x y) = length segments.
Proof.
  destruct (remove_point_cases x y segments)
    as [[E _]|(si & i & seg & p & _ & _ & _ & _ & E & _)]; rewrite E.
  - reflexivity.
  - apply length_insert.
Qed.

Lemma remove_segment_length (segments : collection) :
  segments <> [] -> MainWindow._remove_segment segments <> [].
Proof.
  intros Hne. unfold MainWindow._remove_segment.
  destruct (decide (1 < length segments)%nat) as [Hlen|Hlen];
    [|exact Hne].
  destruct segments as [|a [|b rest]]; simpl in Hlen; try lia.
  discriminate.
Qed.

Lemma apply_gesture_nonempty (g : MainWindow.gesture)
  (segments : collection) :
  segments <> [] ->
  exists segments' : collection,
    MainWindow.apply_gesture g segments = Some segments'
    /\ segments' <> [].
Proof.
  intros Hne. destruct g as [x y|x y| | |]; cbn [MainWindow.apply_gesture].
  - destruct (add_control_point_shape segments x y Hne)
      as (s & seg & seg' & _ & _ & _ & ->).
    eexists. split; [reflexivity|].
    intros E. apply (f_equal length) in E.
    rewrite length_insert in E. destruct segments; [congruence|discriminate].
  - eexists. split; [reflexivity|].
    intros E. apply (f_equal length) in E.
    rewrite remove_point_length in E.
    destruct segments; [congruence|discriminate].
  - eexists. split; [reflexivity|].
    unfold MainWindow._add_segment. destruct segments; discriminate.
  - eexists. split; [reflexivity|]. apply remove_segment_length, Hne.
  - eexists. split; [reflexivity|]. discriminate.
Qed.

Lemma run_nonempty (gs : list MainWindow.gesture) :
  forall segments : collection,
    segments <> [] ->
    exists segments' : collection,
      MainWindow.run gs segments = Some segments' /\ segments' <> [].
Proof.
  unfold MainWindow.run.
  induction gs as [|g gs IH]; intros segments Hne.
  - exists segments. split; [reflexivity|exact Hne].
  - cbn [foldl mbind option_bind].
    destruct (apply_gesture_nonempty g segments Hne) as (s1 & -> & Hne1).
    exact (IH s1 Hne1).
Qed.

(** C9. The collection keeps at least one segment.  [_remove_segment]
    changes nothing on a collection of one segment (or none) and
    otherwise removes the last segment; [_reset] leaves the single empty
    segment; and from a collection with a segment, as from the initial
    [EMPTY_START], every sequence of gestures (remove segment and reset
    among them, with add point, remove point and add segment) runs
    without error and ends in a collection with at least one segment. *)
Theorem collection_keeps_a_segment :
  (forall segments : collection,
      (length segments <= 1)%nat ->
      MainWindow._remove_segment segments = segments)
  /\ (forall (segments : collection) (seg : segment),
         segments <> [] ->
         MainWindow._remove_segment (segments ++ [seg]) = segments)
  /\ (forall segments : collection, MainWindow._reset segments = [[]])
  /\ (forall (gs : list MainWindow.gesture) (segments : collection),
         segments <> [] ->
         exists segments' : collection,
           MainWindow.run gs segments = Some segments'
           /\ (1 <= length segments')%nat)
  /\ forall gs : list MainWindow.gesture,
       exists segments' : collection,
         MainWindow.run gs MainWindow.EMPTY_START = Some segments'
         /\ (1 <= length segments')%nat.
Proof.
  assert (forall (gs : list MainWindow.gesture) (segments : collection),
             segments <> [] ->
             exists segments' : collection,
               MainWindow.run gs segments = Some segments'
               /\ (1 <= length segments')%nat) as Hrun.
  { intros gs segments Hne.
    destruct (run_nonempty gs segments Hne) as (s' & Hs' & Hne').
    exists s'. split; [exact Hs'|].
    destruct s'; [congruence|simpl; lia]. }
  split; [|split; [|split; [|split]]].
  - intros segments Hlen. unfold MainWindow._remove_segment.
    destruct (decide (1 < length segments)%nat); [lia|reflexivity].
  - intros segments seg Hne. unfold MainWindow._remove_segment.
    destruct (decide (1 < length (segments ++ [seg]))%nat) as [_|Hlen].
    + apply removelast_last.
    + rewrite length_app in Hlen. simpl in Hlen.
      destruct segments; [congruence|simpl in Hlen; lia].
  - reflexivity.
  - exact Hrun.
  - intros gs. apply Hrun. discriminate.
Qed.

Lemma collection_keeps_a_segment_witness :
  MainWindow._remove_segment [[Point 1 2]] = [[Point 1 2]]
  /\ MainWindow._remove_segment ([[Point 1 2]] ++ [[]]) = [[Point 1 2]]
  /\ exists segments' : collection,
       MainWindow.run
         [MainWindow.RemoveSegment; MainWindow.ResetAll;
          MainWindow.RemoveSegment; MainWindow.RemovePoint 0 0]
         [[Point 1 2]; []]
       = Some segments'
       /\ (1 <= length segments')%nat.
Proof.
  destruct collection_keeps_a_segment as (Hone & Hlast & _ & Hrun & _).
  split; [|split].
  - apply Hone. simpl. lia.
  - apply Hlast. discriminate.
  - apply Hrun. discriminate.
Defined.

(** * Further properties *)

(** ** The distance to an edge is the least distance to its points *)

Lemma hypot_mono (a b c d : R) :
  a * a + b * b <= c * c + d * d -> hypot a b <= hypot c d.
Proof. intros H. unfold hypot. apply sqrt_le_1_alt, H. Qed.

(** X1. In exact arithmetic the distance to an edge is the least
    distance to its points: [point_to_segment_distance p a b] is the
    distance from [p] to some point [a + s (b - a)] of the edge,
    [0 <= s <= 1], and no point of the edge is nearer.  A degenerate
    edge ([a = b]) is covered: the code never divides by a zero [c2].
    In binary64 the quotient [c1 / c2] and the projection are rounded,
    and the result is the least distance up to that rounding only
    (example below). *)
Theorem point_to_segment_distance_is_least (p a b : point) :
  (exists s : R,
      0 <= s <= 1
      /\ point_to_segment_distance p a b
         = hypot (px p - (px a + s * (px b - px a)))
                 (py p - (py a + s * (py b - py a))))
  /\ forall s : R,
       0 <= s <= 1 ->
       point_to_segment_distance p a b
       <= hypot (px p - (px a + s * (px b - px a)))
                (py p - (py a + s * (py b - py a))).
Proof.
  unfold point_to_segment_distance.
  set (vx := px b - px a). set (vy := py b - py a).
  set (wx := px p - px a). set (wy := py p - py a).
  set (c1 := vx * wx + vy * wy). set (c2 := vx * vx + vy * vy).
  cbv zeta.
  destruct (Rle_dec c1 0) as [H1|H1]; [|destruct (Rle_dec c2 c1) as [H2|H2]].
  - split.
    + exists 0. split; [lra|]. unfold hypot, wx, wy, vx, vy. f_equal. ring.
    + intros s Hs. apply hypot_mono.
      assert (0 <= c2) by (unfold c2; nra).
      assert (0 <= s * s * c2 - 2 * s * c1) by nra.
      unfold c1, c2, vx, vy, wx, wy in *. nra.
  - split.
    + exists 1. split; [lra|]. unfold hypot, wx, wy, vx, vy. f_equal. ring.
    + intros s Hs. apply hypot_mono.
      assert (0 <= c2) by (unfold c2; nra).
      assert (c2 * (1 + s) <= 2 * c2) by nra.
      assert (0 <= (1 - s) * (2 * c1 - c2 * (1 + s)))
        by (apply Rmult_le_pos; lra).
      unfold c1, c2, vx, vy, wx, wy in *. nra.
  - apply Rnot_le_lt in H1, H2.
    assert (c2 <> 0) as Hc2 by lra.
    assert (c1 / c2 * c2 = c1) as Ht by (field; exact Hc2).
    split.
    + exists (c1 / c2). split; [|reflexivity].
      split.
      * apply Rlt_le, Rdiv_lt_0_compat; lra.
      * apply Rlt_le. apply (Rmult_lt_reg_r c2); [lra|]. rewrite Ht. lra.
    + intros s Hs. apply hypot_mono. cbn [px py].
      set (t := c1 / c2) in *.
      assert (0 <= c2 * (s - t) * (s - t)).
      { rewrite Rmult_assoc. apply Rmult_le_pos; [lra|].
        apply (Rle_0_sqr (s - t)). }
      assert ((wx - s * vx) * (wx - s * vx) + (wy - s * vy) * (wy - s * vy)
              - ((wx - t * vx) * (wx - t * vx) + (wy - t * vy) * (wy - t * vy))
              = c2 * (s - t) * (s - t)) as E.
      { transitivity (c2 * s * s - 2 * s * c1 - (t * c2 * t - 2 * t * c1));
          [unfold c1, c2; ring|]. rewrite <- Ht. ring. }
      unfold wx, wy, vx, vy in *. nra.
Qed.

(** In binary64: the point (15, 0) lies on the edge from (0, 0) to
    (22, 0), the quotient [330 / 484] is rounded, the projection is
    (14.999999999999998, 0), and the program returns
    1.7763568394002505e-15 where the least distance is 0. *)
Example edge_distance_binary64 (hypot : float -> float -> float) :
  (forall x : float, hypot x 0%float = abs x) ->
  Binary64.point_to_segment_distance hypot (Binary64.Point 15 0)
    (Binary64.Point 0 0) (Binary64.Point 22 0)
  = 1.7763568394002505e-15%float.
Proof. intros Haxis. vm_compute. rewrite Haxis. reflexivity. Qed.

(** ** The iterative product is the binomial coefficient *)

Lemma binom_fact (n k : nat) :
  (k <= n)%nat ->
  binom n k * INR (fact k) * INR (fact (n - k)) = INR (fact n).
Proof.
  induction k as [|k IH]; intros Hk.
  - rewrite binom_0, Nat.sub_0_r. simpl. ring.
  - rewrite binom_S.
    replace (n - k)%nat with (S (n - S k)) in IH by lia.
    rewrite <- IH by lia.
    rewrite !fact_simpl, !mult_INR.
    replace (INR n + 1 - INR (S k)) with (INR (S (n - S k))).
    + field. apply INR_S_neq_0.
    + rewrite !S_INR, minus_INR by lia. rewrite S_INR. ring.
Qed.

Lemma binom_beyond (n : nat) :
  forall j : nat, binom n (S n + j) = 0.
Proof.
  induction j as [|j IH].
  - rewrite Nat.add_0_r. apply binom_above.
  - replace (S n + S j)%nat with (S (S n + j)) by lia.
    rewrite binom_S, IH. unfold Rdiv. ring.
Qed.

(** X2. In exact arithmetic the iterative product of [binom] is the
    binomial coefficient: [n! / (k! (n - k)!)] for [k <= n], and 0 for
    [k > n].  For the product in binary64 see X9. *)
Theorem binom_is_choose (n k : nat) :
  ((k <= n)%nat -> binom n k = C n k)
  /\ ((n < k)%nat -> binom n k = 0).
Proof.
  split; intros Hk.
  - unfold C. rewrite <- (binom_fact n k Hk). field.
    split; apply INR_fact_neq_0.
  - replace k with (S n + (k - S n))%nat by lia. apply binom_beyond.
Qed.

(** X9. In binary64 the products and quotients of [binom] are exact as
    long as the degree is at most 54: for [k <= n <= 54] the program
    returns the binomial coefficient [n! / (k! (n - k)!)] itself, as a
    float.  At 55 rounding sets in: [binom(55, 55)] is
    0.9999999999999993, not 1. *)
Theorem binom_binary64_exact :
  (forall n k : nat,
      (k <= n <= 54)%nat ->
      Binary64.binom n k = Binary64.of_int (choose n k))
  /\ choose 55 55 = 1%Z
  /\ Binary64.binom 55 55 = 0.9999999999999993%float.
Proof.
  split; [|split; vm_compute; reflexivity].
  assert (forallb
            (fun n =>
               forallb
                 (fun k => Leibniz.eqb (Binary64.binom n k)
                                       (Binary64.of_int (choose n k)))
                 (seq 0 (S n)))
            (seq 0 55) = true) as Htable by (vm_compute; reflexivity).
  intros n k [Hk Hn].
  rewrite forallb_forall in Htable.
  specialize (Htable n ltac:(apply in_seq; lia)).
  rewrite forallb_forall in Htable.
  apply Leibniz.eqb_spec, Htable, in_seq. lia.
Qed.

Lemma binom_pos (n k : nat) : (k <= n)%nat -> 0 < binom n k.
Proof.
  intros Hk. pose proof (binom_fact n k Hk) as H.
  pose proof (INR_fact_lt_0 k). pose proof (INR_fact_lt_0 (n - k)).
  pose proof (INR_fact_lt_0 n).
  destruct (Rlt_le_dec 0 (binom n k)) as [Hp|Hn]; [exact Hp|exfalso].
  assert (binom n k * INR (fact k) * INR (fact (n - k)) <= 0); [|lra].
  rewrite Rmult_assoc.
  assert (0 < INR (fact k) * INR (fact (n - k))) by (apply Rmult_lt_0_compat; lra).
  nra.
Qed.

(** ** The Bernstein basis is a partition of unity *)

Lemma bernstein_sum_ones (n : nat) (t : R) (l : list point) :
  forall i : nat,
    bernstein_sum (fun _ => 1) n i t l
    = foldr Rplus 0 ((fun j => bern n j t) <$> seq i (length l)).
Proof.
  induction l as [|q l IH]; intros i; [reflexivity|].
  cbn [bernstein_sum length seq]. rewrite fmap_cons. cbn [foldr].
  rewrite IH. ring.
Qed.

(** X3. In exact arithmetic the Bernstein basis of [bern] is a partition
    of unity: the [n + 1] values [bern n i t] sum to 1 at every real
    [t], and each is non-negative for [t] in [[0, 1]].  In binary64 the
    sum is 1 up to rounding: at [t = 1.0] the only weight that is not 0
    is [bern(n, n, t)], which is [binom(n, n)] (example below; exact up
    to degree 54 by X9). *)
Theorem bern_partition_of_unity (n : nat) (t : R) :
  foldr Rplus 0 ((fun i => bern n i t) <$> seq 0 (S n)) = 1
  /\ (0 <= t <= 1 ->
      forall i : nat, (i <= n)%nat -> 0 <= bern n i t).
Proof.
  split.
  - set (l := replicate (S n) (Point 0 0)).
    assert (length l = S n) as Hl by apply length_replicate.
    destruct (bezier_is_Some l t) as [p Hp]; [discriminate|].
    pose proof (bezier_bernstein (fun _ => 1) t) as H.
    specialize (H ltac:(intros; cbv beta; ring) n l p Hl Hp). cbv beta in H.
    rewrite bernstein_sum_ones, Hl in H. symmetry. exact H.
  - intros Ht i Hi. unfold bern.
    pose proof (binom_pos n i Hi).
    assert (0 <= t ^ i) by (apply pow_le; lra).
    assert (0 <= (1 - t) ^ (n - i)) by (apply pow_le; lra).
    apply Rmult_le_pos; [apply Rmult_le_pos|]; lra.
Qed.

Example bern_55_55_binary64 (pow : float -> float -> float) :
  pow 1%float 55%float = 1%float ->
  Binary64.bern pow 55 55 1 = Some 0.9999999999999993%float.
Proof. intros H. vm_compute. rewrite H. vm_compute. reflexivity. Qed.

(** X4. In exact arithmetic [de_casteljau] evaluates the Bernstein
    polynomial of the control points: for [n + 1] points, each
    coordinate of the result is the sum of the control points'
    coordinates weighted by [bern n i t].  In binary64 the two are
    different sequences of rounded operations and agree up to rounding
    (example below). *)
Theorem de_casteljau_is_bernstein_form (points : list point) (t : R) (n : nat) :
  length points = S n ->
  exists p : point,
    de_casteljau points t = Some p
    /\ px p = bernstein_sum px n 0 t points
    /\ py p = bernstein_sum py n 0 t points.
Proof.
  intros Hlen. rewrite de_casteljau_bezier.
  destruct (bezier_is_Some points t) as [p Hp].
  { intros ->. discriminate. }
  exists p. split; [exact Hp|]. split.
  - exact (bezier_bernstein px t (px_lerp t) n points p Hlen Hp).
  - exact (bezier_bernstein py t (py_lerp t) n points p Hlen Hp).
Qed.

Lemma de_casteljau_is_bernstein_form_witness :
  exists p : point,
    de_casteljau [Point 0 0; Point 4 8; Point 8 0] (1 / 3) = Some p
    /\ px p = bernstein_sum px 2 0 (1 / 3) [Point 0 0; Point 4 8; Point 8 0]
    /\ py p = bernstein_sum py 2 0 (1 / 3) [Point 0 0; Point 4 8; Point 8 0].
Proof.
  apply (de_casteljau_is_bernstein_form
           [Point 0 0; Point 4 8; Point 8 0] (1 / 3) 2).
  reflexivity.
Defined.

(** In binary64: on the x-coordinates 0, 100, 0 at [t = 0.01]
    [de_casteljau] returns 1.98, and the weighted sum, whose only term
    that is not 0 is [100 * bern(2, 1, 0.01)], is 1.9800000000000002. *)
Example bernstein_form_binary64 (pow : float -> float -> float) :
  pow 0.01%float 1%float = 0.01%float ->
  pow 0.99%float 1%float = 0.99%float ->
  Binary64.de_casteljau
    [Binary64.Point 0 0; Binary64.Point 100 0; Binary64.Point 0 0] 0.01
  = Some (Binary64.Point 1.98 0)
  /\ Binary64.bern pow 2 1 0.01 = Some 0.0198%float
  /\ (100 * 0.0198)%float = 1.9800000000000002%float.
Proof.
  intros H1 H2. split; [|split].
  - vm_compute. reflexivity.
  - vm_compute. rewrite H1, H2. vm_compute. reflexivity.
  - vm_compute. reflexivity.
Qed.

(** ** The curve stays in every half-plane that holds the control points *)

Lemma row_half_plane (a b c t : R) (l : list point) :
  0 <= t <= 1 ->
  Forall (fun p => a * px p + b * py p <= c) l ->
  Forall (fun p => a * px p + b * py p <= c) (row t l).
Proof.
  intros Ht. induction l as [|p [|q l] IH]; intros H; cbn [row];
    try constructor.
  - pose proof (Forall_inv H) as Hp.
    pose proof (Forall_inv (Forall_inv_tail H)) as Hq.
    cbv beta in Hp, Hq. cbn [lerp px py]. nra.
  - apply IH. exact (Forall_inv_tail H).
Qed.

Lemma iter_row_half_plane (a b c t : R) (k : nat) (l : list point) :
  0 <= t <= 1 ->
  Forall (fun p => a * px p + b * py p <= c) l ->
  Forall (fun p => a * px p + b * py p <= c) (Nat.iter k (row t) l).
Proof.
  intros Ht H. induction k as [|k IH]; [exact H|].
  rewrite Nat.iter_succ. apply row_half_plane; assumption.
Qed.

(** X5. In exact arithmetic, for [t] in [[0, 1]] the curve point stays
    in every half-plane [a x + b y <= c] that holds all the control
    points (so it stays in their convex hull and in their bounding
    box).  In binary64 [lerp] can leave it by one unit in the last
    place (example below). *)
Theorem de_casteljau_in_half_plane (points : list point) (t a b c : R)
  (q : point) :
  0 <= t <= 1 ->
  Forall (fun p => a * px p + b * py p <= c) points ->
  de_casteljau points t = Some q ->
  a * px q + b * py q <= c.
Proof.
  intros Ht H Hq. rewrite de_casteljau_bezier in Hq. unfold bezier in Hq.
  pose proof (iter_row_half_plane a b c t (length points - 1) points Ht H)
    as Hall.
  destruct (Nat.iter (length points - 1) (row t) points) as [|p l];
    [discriminate|].
  injection Hq as <-. exact (Forall_inv Hall).
Qed.

Lemma de_casteljau_in_half_plane_witness :
  0 * px (Point 4 4) + 1 * py (Point 4 4) <= 8.
Proof.
  apply (de_casteljau_in_half_plane
           [Point 0 0; Point 4 8; Point 8 0] (1 / 2) 0 1 8 (Point 4 4)).
  - lra.
  - repeat constructor; simpl; lra.
  - exact de_casteljau_half.
Defined.

(** In binary64: both control points have [x = 7], and at [t = 0.2] the
    sum [0.8 * 7 + 0.2 * 7] is 7.000000000000001.  The same numbers
    show a translation that does not commute with the evaluation: the
    points (0,0), (0,10) give [x = 0], and moved by 7 they give
    7.000000000000001, not [0 + 7]. *)
Example lerp_binary64 :
  Binary64.de_casteljau [Binary64.Point 7 0; Binary64.Point 7 10] 0.2
  = Some (Binary64.Point 7.000000000000001 2)
  /\ Binary64.de_casteljau [Binary64.Point 0 0; Binary64.Point 0 10] 0.2
     = Some (Binary64.Point 0 2).
Proof. split; vm_compute; reflexivity. Qed.

(** ** Reversing the control polygon reverses the parameter *)

Lemma lerp_swap (a b : point) (t : R) : lerp b a (1 - t) = lerp a b t.
Proof. unfold lerp. f_equal; ring. Qed.

Lemma row_snoc (t : R) (l : list point) :
  forall a b : point,
    row t (l ++ [a; b]) = row t (l ++ [a]) ++ [lerp a b t].
Proof.
  induction l as [|p [|q l] IH]; intros a b; try reflexivity.
  change (row t ((p :: q :: l) ++ [a; b]))
    with (lerp p q t :: row t ((q :: l) ++ [a; b])).
  rewrite IH. reflexivity.
Qed.

Lemma row_rev (t : R) (l : list point) :
  row (1 - t) (rev l) = rev (row t l).
Proof.
  induction l as [|a [|b l] IH]; try reflexivity.
  change (rev (a :: b :: l)) with ((rev l ++ [b]) ++ [a]).
  rewrite <- app_assoc. cbn [app]. rewrite row_snoc.
  change (rev l ++ [b]) with (rev (b :: l)). rewrite IH.
  rewrite lerp_swap. reflexivity.
Qed.

Lemma iter_row_rev (t : R) (k : nat) :
  forall l : list point,
    Nat.iter k (row (1 - t)) (rev l) = rev (Nat.iter k (row t) l).
Proof.
  induction k as [|k IH]; intros l; [reflexivity|].
  rewrite !Nat.iter_succ, IH, row_rev. reflexivity.
Qed.

Lemma bezier_rev (points : list point) (t : R) :
  bezier (rev points) (1 - t) = bezier points t.
Proof.
  unfold bezier. rewrite length_rev, iter_row_rev.
  pose proof (length_iter_row t (length points - 1) points) as Hl.
  destruct (Nat.iter (length points - 1) (row t) points) as [|p [|q l]];
    try reflexivity.
  simpl in Hl. lia.
Qed.

(** X6. In exact arithmetic reversing the control polygon reverses the
    parameter: [de_casteljau] on the reversed points at [1 - t] is
    [de_casteljau] on the points at [t] (both fail on the empty list).
    In binary64 [1 - (1 - t)] need not be [t], and the two results
    agree up to rounding (example below). *)
Theorem de_casteljau_reverse (points : list point) (t : R) :
  de_casteljau (rev points) (1 - t) = de_casteljau points t.
Proof. rewrite !de_casteljau_bezier. apply bezier_rev. Qed.

Example reverse_binary64 :
  Binary64.de_casteljau
    [Binary64.Point 0 0; Binary64.Point 4 8; Binary64.Point 8 0] 0.1
  = Some (Binary64.Point 0.8 1.4400000000000002)
  /\ Binary64.de_casteljau
       [Binary64.Point 8 0; Binary64.Point 4 8; Binary64.Point 0 0]
       (1 - 0.1)
     = Some (Binary64.Point 0.7999999999999998 1.4399999999999997).
Proof. split; vm_compute; reflexivity. Qed.

(** ** Tangents at the ends *)

Lemma derivative_bezier_diffs (points : list point) (t : R) :
  (2 <= length points)%nat ->
  derivative points t = bezier (diffs (length points - 1) points) t.
Proof.
  intros Hlen.
  set (n := (length points - 1)%nat).
  assert (length (diffs n points) = S (length points - 2)) as Hh
    by (rewrite length_diffs; lia).
  destruct (bezier_is_Some (diffs n points) t) as [p Hp].
  { intros E. rewrite E in Hh. discriminate. }
  rewrite (derivative_closed points t Hlen). fold n. rewrite Hp.
  rewrite <- (bezier_bernstein px t (px_lerp t) _ _ p Hh Hp).
  rewrite <- (bezier_bernstein py t (py_lerp t) _ _ p Hh Hp).
  destruct p; reflexivity.
Qed.

Lemma last_diffs (n : nat) (l : list point) :
  forall a b : point,
    last (diffs n (l ++ [a; b]))
    = Some {| px := INR n * (px b - px a); py := INR n * (py b - py a) |}.
Proof.
  induction l as [|p [|q l] IH]; intros a b; try reflexivity.
  change (diffs n ((p :: q :: l) ++ [a; b]))
    with ({| px := INR n * (px q - px p); py := INR n * (py q - py p) |}
          :: diffs n ((q :: l) ++ [a; b])).
  specialize (IH a b).
  destruct (diffs n ((q :: l) ++ [a; b])) as [|d ds] eqn:E;
    [discriminate|].
  exact IH.
Qed.

(** X7. End tangents, in exact arithmetic: at [t = 0] [derivative] is
    [n (p1 - p0)], the first edge of the control polygon scaled by the
    degree, and at [t = 1] it is [n] times the last edge.  In binary64
    the last edge is multiplied by [bern(n - 1, n - 1, 1.0)], which is
    [binom(n - 1, n - 1)]: 1 up to degree 55 and 0.9999999999999993 at
    degree 56 (X9). *)
Theorem derivative_at_ends (p0 p1 a b : point) (mid front : list point) :
  derivative (p0 :: p1 :: mid) 0
  = Some {| px := INR (S (length mid)) * (px p1 - px p0);
            py := INR (S (length mid)) * (py p1 - py p0) |}
  /\ derivative (front ++ [a; b]) 1
     = Some {| px := INR (S (length front)) * (px b - px a);
               py := INR (S (length front)) * (py b - py a) |}.
Proof.
  split.
  - rewrite derivative_bezier_diffs by (simpl; lia).
    unfold bezier.
    rewrite head_iter_row_0 by (rewrite length_diffs; simpl; lia).
    cbn [length]. rewrite Nat.sub_succ, Nat.sub_0_r. reflexivity.
  - rewrite derivative_bezier_diffs by (rewrite length_app; simpl; lia).
    rewrite length_app. cbn [length].
    replace (length front + 2 - 1)%nat with (S (length front)) by lia.
    unfold bezier.
    set (h := diffs (S (length front)) (front ++ [a; b])).
    assert (length h = S (length front)) as Hh.
    { unfold h. rewrite length_diffs, length_app. simpl. lia. }
    rewrite <- (last_diffs (S (length front)) front a b). fold h.
    rewrite <- (last_iter_row_1 (length h - 1) h) by lia.
    pose proof (length_iter_row 1 (length h - 1) h) as Hl.
    destruct (Nat.iter (length h - 1) (row 1) h) as [|p [|q l]];
      simpl in Hl; try lia.
    reflexivity.
Qed.

(** ** The second derivative is the derivative of the hodograph *)

Lemma bernstein_sum_diffs_diffs_x (m n k : nat) (t : R) (l : list point) :
  INR m = INR n - 1 ->
  forall i : nat,
    bernstein_sum px k i t (diffs m (diffs n l))
    = bernstein_sum (fun q => INR n * (INR n - 1) * px q) k i t (diffs2 l).
Proof.
  intros Hm. induction l as [|a [|b [|c l]] IH]; intros i; try reflexivity.
  change (diffs m (diffs n (a :: b :: c :: l)))
    with ({| px := INR m * (INR n * (px c - px b) - INR n * (px b - px a));
             py := INR m * (INR n * (py c - py b) - INR n * (py b - py a)) |}
          :: diffs m (diffs n (b :: c :: l))).
  change (diffs2 (a :: b :: c :: l))
    with ({| px := px c - 2 * px b + px a; py := py c - 2 * py b + py a |}
          :: diffs2 (b :: c :: l)).
  cbn [bernstein_sum px]. rewrite IH, Hm. ring.
Qed.

Lemma bernstein_sum_diffs_diffs_y (m n k : nat) (t : R) (l : list point) :
  INR m = INR n - 1 ->
  forall i : nat,
    bernstein_sum py k i t (diffs m (diffs n l))
    = bernstein_sum (fun q => INR n * (INR n - 1) * py q) k i t (diffs2 l).
Proof.
  intros Hm. induction l as [|a [|b [|c l]] IH]; intros i; try reflexivity.
  change (diffs m (diffs n (a :: b :: c :: l)))
    with ({| px := INR m * (INR n * (px c - px b) - INR n * (px b - px a));
             py := INR m * (INR n * (py c - py b) - INR n * (py b - py a)) |}
          :: diffs m (diffs n (b :: c :: l))).
  change (diffs2 (a :: b :: c :: l))
    with ({| px := px c - 2 * px b + px a; py := py c - 2 * py b + py a |}
          :: diffs2 (b :: c :: l)).
  cbn [bernstein_sum py]. rewrite IH, Hm. ring.
Qed.

Lemma second_derivative_closed (points : list point) (t : R) :
  (3 <= length points)%nat ->
  second_derivative points t
  = Some {| px := bernstein_sum
                    (fun q => INR (length points - 1)
                              * (INR (length points - 1) - 1) * px q)
                    (length points - 3) 0 t (diffs2 points);
            py := bernstein_sum
                    (fun q => INR (length points - 1)
                              * (INR (length points - 1) - 1) * py q)
                    (length points - 3) 0 t (diffs2 points) |}.
Proof.
  intros Hlen. unfold second_derivative.
  destruct (decide (length points - 1 <= 1)%nat) as [Hn|Hn]; [lia|].
  pose proof (second_derivative_loop (length points - 1) t points []
                (0, 0)) as H.
  cbn [app length] in H.
  replace (length points - 2)%nat with (length points - 1 - 1)%nat in H
    by lia.
  rewrite H. cbn [mbind option_bind fst snd].
  replace (length points - 1 - 2)%nat with (length points - 3)%nat by lia.
  rewrite !Rplus_0_l. reflexivity.
Qed.

(** X8. In exact arithmetic [second_derivative] is [derivative] applied
    to the hodograph control points, on every list of points (both are
    the zero vector on fewer than three points).  In binary64 the
    second difference [p2 - 2 p1 + p0] and the difference of the
    differences are rounded differently (example below). *)
Theorem second_derivative_of_hodograph (points : list point) (t : R) :
  exists h : list point,
    hodograph_control_points points = Some h
    /\ second_derivative points t = derivative h t.
Proof.
  exists (diffs (length points - 1) points).
  split; [apply hodograph_closed|].
  destruct (le_lt_dec 3 (length points)) as [Hlen|Hlen].
  - rewrite (second_derivative_closed points t Hlen).
    rewrite derivative_closed by (rewrite length_diffs; lia).
    rewrite length_diffs.
    replace (length points - 1 - 2)%nat with (length points - 3)%nat by lia.
    assert (INR (length points - 1 - 1) = INR (length points - 1) - 1)
      as Hm.
    { rewrite (minus_INR (length points - 1) 1) by lia. reflexivity. }
    rewrite (bernstein_sum_diffs_diffs_x _ _ _ t points Hm).
    rewrite (bernstein_sum_diffs_diffs_y _ _ _ t points Hm).
    reflexivity.
  - destruct points as [|a [|b [|c l]]]; simpl in Hlen; try lia;
      reflexivity.
Qed.

(** In binary64: on the x-coordinates 0, 0.1, 0.4, at every [t],
    [second_derivative] returns 0.4 and [derivative] of the hodograph
    returns 0.4000000000000001. *)
Example second_derivative_binary64 (pow : float -> float -> float)
  (t : float) :
  Binary64.second_derivative pow
    [Binary64.Point 0 0; Binary64.Point 0.1 0; Binary64.Point 0.4 0] t
  = Some (Binary64.Point 0.4 0)
  /\ (h ← Binary64.hodograph_control_points
            [Binary64.Point 0 0; Binary64.Point 0.1 0; Binary64.Point 0.4 0];
      Binary64.derivative pow h t)
     = Some (Binary64.Point 0.4000000000000001 0).
Proof. split; vm_compute; reflexivity. Qed.

(** ** Arc length: bounds and exact cases *)

Lemma curve_0 (seg : list point) (p : point) :
  head seg = Some p -> curve seg 0 = p.
Proof.
  intros Hp. unfold curve, bezier.
  rewrite head_iter_row_0 by (destruct seg; [discriminate|simpl; lia]).
  rewrite Hp. reflexivity.
Qed.

Lemma curve_1 (seg : list point) (p : point) :
  last seg = Some p -> curve seg 1 = p.
Proof.
  intros Hp. unfold curve, bezier.
  assert (length seg - 1 < length seg)%nat as Hlt
    by (destruct seg; [discriminate|simpl; lia]).
  pose proof (last_iter_row_1 (length seg - 1) seg Hlt) as Hl.
  pose proof (length_iter_row 1 (length seg - 1) seg) as Hn.
  destruct (Nat.iter (length seg - 1) (row 1) seg) as [|q [|r l]];
    simpl in Hn; try lia.
  simpl in Hl. rewrite Hp in Hl. injection Hl as ->. reflexivity.
Qed.

(** X10. In exact arithmetic, with at least one step,
    [approximate_length] is at least the distance between the first and
    the last control point.  In binary64 the sum of the rounded pieces
    can fall below it in the last digits (example below). *)
Theorem approximate_length_at_least_chord (seg : list point) (steps : nat)
  (first lst : point) :
  head seg = Some first -> last seg = Some lst -> (1 <= steps)%nat ->
  exists L : R,
    approximate_length seg steps = Some L
    /\ hypot (px lst - px first) (py lst - py first) <= L.
Proof.
  intros Hf Hl Hs.
  assert (seg <> []) as Hne by (intros ->; discriminate).
  exists (polyline (sample seg steps) steps).
  split; [apply approximate_length_closed, Hne|].
  pose proof (chord_le_polyline (sample seg steps) steps) as Hc.
  unfold sample at 1 2 3 4 in Hc.
  replace (INR steps / INR steps) with 1 in Hc
    by (field; apply not_0_INR; lia).
  replace (INR 0 / INR steps) with 0 in Hc by (simpl; unfold Rdiv; ring).
  rewrite (curve_0 seg first Hf), (curve_1 seg lst Hl) in Hc. exact Hc.
Qed.

Lemma approximate_length_at_least_chord_witness :
  exists L : R,
    approximate_length [Point 0 0; Point 4 8; Point 8 0] 200 = Some L
    /\ hypot (px (Point 8 0) - px (Point 0 0))
             (py (Point 8 0) - py (Point 0 0)) <= L.
Proof.
  apply (approximate_length_at_least_chord
           [Point 0 0; Point 4 8; Point 8 0] 200 (Point 0 0) (Point 8 0));
    [reflexivity|reflexivity|lia].
Defined.

(** In binary64: the straight segment from (100, 0) to (0, 0) measures
    99.99999999999996 at the 200 steps of the program. *)
Example length_below_chord_binary64 (hypot : float -> float -> float) :
  (forall x : float, hypot x 0%float = abs x) ->
  Binary64.approximate_length hypot
    [Binary64.Point 100 0; Binary64.Point 0 0] 200
  = Some 99.99999999999996%float
  /\ (99.99999999999996 <? 100)%float = true.
Proof.
  intros Haxis. split; [|reflexivity].
  vm_compute. rewrite !Haxis. vm_compute. reflexivity.
Qed.

Lemma hypot_scale (k a b : R) :
  0 <= k -> hypot (k * a) (k * b) = k * hypot a b.
Proof.
  intros Hk. unfold hypot.
  replace (k * a * (k * a) + k * b * (k * b))
    with (k * k * (a * a + b * b)) by ring.
  rewrite sqrt_mult; [|nra|nra]. rewrite sqrt_square by exact Hk.
  reflexivity.
Qed.

Lemma polyline_constant (g : nat -> point) (p : point) (n : nat) :
  (forall i : nat, g i = p) -> polyline g n = 0.
Proof.
  intros Hg. induction n as [|n IH]; [reflexivity|].
  cbn [polyline]. rewrite IH, !Hg, hypot_self. ring.
Qed.

Lemma polyline_line (a b : point) (steps : nat) :
  (1 <= steps)%nat ->
  forall k : nat,
    polyline (sample [a; b] steps) k
    = INR k / INR steps * hypot (px b - px a) (py b - py a).
Proof.
  intros Hs. assert (INR steps <> 0) as Hn by (apply not_0_INR; lia).
  assert (0 < INR steps) as Hp by (apply lt_0_INR; lia).
  induction k as [|k IH].
  - simpl. unfold Rdiv. ring.
  - cbn [polyline]. rewrite IH.
    change (sample [a; b] steps (S k)) with (lerp a b (INR (S k) / INR steps)).
    change (sample [a; b] steps k) with (lerp a b (INR k / INR steps)).
    cbn [lerp px py].
    replace ((1 - INR (S k) / INR steps) * px a + INR (S k) / INR steps * px b
             - ((1 - INR k / INR steps) * px a + INR k / INR steps * px b))
      with (/ INR steps * (px b - px a)) by (rewrite S_INR; field; exact Hn).
    replace ((1 - INR (S k) / INR steps) * py a + INR (S k) / INR steps * py b
             - ((1 - INR k / INR steps) * py a + INR k / INR steps * py b))
      with (/ INR steps * (py b - py a)) by (rewrite S_INR; field; exact Hn).
    rewrite hypot_scale by (apply Rlt_le, Rinv_0_lt_compat, Hp).
    rewrite S_INR. field. exact Hn.
Qed.

(** In exact arithmetic a segment of two points has the distance
    between them as its length, at every step count of at least one
    (in binary64 up to rounding, as the example above shows). *)
Lemma approximate_length_line (a b : point) (steps : nat) :
  (1 <= steps)%nat ->
  approximate_length [a; b] steps
  = Some (hypot (px b - px a) (py b - py a)).
Proof.
  intros Hs. rewrite approximate_length_closed by discriminate.
  rewrite (polyline_line a b steps Hs). f_equal. field.
  apply not_0_INR. lia.
Qed.

(** X11. Degenerate lengths: a segment of one point has length 0 at
    every step count, and zero steps give length 0 on every segment
    that has a point.  No rounding enters: every sample of a one-point
    segment is the point itself, and with zero steps the loop body is
    not run. *)
Theorem approximate_length_degenerate (a : point) (seg : list point)
  (steps : nat) :
  approximate_length [a] steps = Some 0
  /\ (seg <> [] -> approximate_length seg 0 = Some 0).
Proof.
  split.
  - rewrite approximate_length_closed by discriminate.
    f_equal. apply (polyline_constant _ a). intros i. reflexivity.
  - intros Hne. rewrite approximate_length_closed by exact Hne.
    reflexivity.
Qed.

(** ** The entries of the level trace are curve points of sub-polygons *)

Lemma row_drop (t : R) (i : nat) :
  forall l : list point, row t (drop i l) = drop i (row t l).
Proof.
  induction i as [|i IH]; intros l; [reflexivity|].
  destruct l as [|a [|b l]]; try reflexivity.
  - destruct i; reflexivity.
  - change (drop (S i) (a :: b :: l)) with (drop i (b :: l)).
    rewrite IH. reflexivity.
Qed.

Lemma row_take (t : R) (k : nat) :
  forall l : list point, row t (take (S k) l) = take k (row t l).
Proof.
  induction k as [|k IH]; intros l.
  - destruct l as [|a [|b l]]; reflexivity.
  - destruct l as [|a [|b l]]; try reflexivity.
    change (take (S (S k)) (a :: b :: l)) with (a :: take (S k) (b :: l)).
    change (row t (a :: b :: l)) with (lerp a b t :: row t (b :: l)).
    cbn [take]. rewrite <- IH. reflexivity.
Qed.

Lemma iter_row_window (t : R) (r : nat) :
  forall (l : list point) (i : nat),
    Nat.iter r (row t) (take (S r) (drop i l))
    = take 1 (drop i (Nat.iter r (row t) l)).
Proof.
  induction r as [|r IH]; intros l i; [reflexivity|].
  rewrite !Nat.iter_succ_r, row_take, row_drop. apply IH.
Qed.

(** X12. Every entry of the level trace is a curve point of a
    sub-polygon: entry [i] of level [r] of [de_casteljau_levels] is
    [de_casteljau] of the [r + 1] control points that start at index
    [i]. *)
Theorem de_casteljau_levels_entries (points : list point) (t : R)
  (levels : list (list point)) (r i : nat) (lvl : list point) (q : point) :
  de_casteljau_levels points t = Some levels ->
  levels !! r = Some lvl -> lvl !! i = Some q ->
  de_casteljau (take (S r) (drop i points)) t = Some q.
Proof.
  rewrite de_casteljau_levels_closed. intros [= <-] Hr Hi.
  assert (r <= length points - 1)%nat as Hle.
  { apply lookup_lt_Some in Hr. rewrite length_levels_from in Hr. lia. }
  rewrite lookup_levels_from in Hr by exact Hle. injection Hr as <-.
  assert (i + r < length points)%nat as Hir.
  { apply lookup_lt_Some in Hi. rewrite length_iter_row in Hi. lia. }
  rewrite de_casteljau_bezier. unfold bezier.
  rewrite length_take, length_drop.
  replace (S r `min` (length points - i) - 1)%nat with r by lia.
  rewrite iter_row_window.
  rewrite <- (take_drop_middle _ _ _ Hi).
  rewrite drop_app_length'; [reflexivity|].
  rewrite length_take. apply lookup_lt_Some in Hi. lia.
Qed.

Lemma de_casteljau_levels_entries_witness :
  de_casteljau (take 2 (drop 1 [Point 0 0; Point 4 8; Point 8 0])) (1 / 2)
  = Some (lerp (Point 4 8) (Point 8 0) (1 / 2)).
Proof.
  apply (de_casteljau_levels_entries
           [Point 0 0; Point 4 8; Point 8 0] (1 / 2)
           (levels_from (1 / 2) 2 [Point 0 0; Point 4 8; Point 8 0]) 1 1
           [lerp (Point 0 0) (Point 4 8) (1 / 2);
            lerp (Point 4 8) (Point 8 0) (1 / 2)]).
  - exact (de_casteljau_levels_closed
             [Point 0 0; Point 4 8; Point 8 0] (1 / 2)).
  - reflexivity.
  - reflexivity.
Defined.

(** ** How the edits and the hit test compose *)

Lemma find_closest_point_least (segments : collection) (x y : R)
  (r : BezierCanvas.point_ref) :
  BezierCanvas._find_closest_point segments x y = Some r ->
  point_at segments r
  /\ dist r.2 x y <= HIT_R
  /\ forall r' : BezierCanvas.point_ref,
       point_at segments r' -> dist r.2 x y <= dist r'.2 x y.
Proof.
  unfold BezierCanvas._find_closest_point.
  rewrite closest_seg_step_scan.
  destruct (foldl scan_step (None, None) (entries x y (enumerate segments)))
    as [t [d|]] eqn:E; cbn [fst snd le_inf]; [|discriminate].
  destruct (Rle_dec d HIT_R) as [Hd|Hd]; [|discriminate].
  intros ->.
  destruct (scan_sorted tag_before tag_before_irrefl _ _ _ _
              (entries_sorted x y segments 0) E) as [Hin Hall].
  assert (d = dist r.2 x y) as ->.
  { apply elem_of_entries in Hin as (k & i & seg & p & Ep & _).
    injection Ep as -> ->. reflexivity. }
  split; [apply (point_at_entries x y), Hin|]. split; [exact Hd|].
  intros r' Hr'. apply (point_at_entries x y) in Hr'.
  exact (proj1 (Hall _ Hr')).
Qed.

Lemma find_closest_point_hit (segments : collection) (x y : R)
  (r : BezierCanvas.point_ref) :
  point_at segments r -> dist r.2 x y <= HIT_R ->
  is_Some (BezierCanvas._find_closest_point segments x y).
Proof.
  intros Hr Hd. apply (point_at_entries x y) in Hr.
  unfold BezierCanvas._find_closest_point.
  rewrite closest_seg_step_scan.
  destruct (foldl scan_step (None, None) (entries x y (enumerate segments)))
    as [t [d|]] eqn:E; cbn [fst snd le_inf].
  - destruct (scan_sorted tag_before tag_before_irrefl _ _ _ _
                (entries_sorted x y segments 0) E) as [Hin Hall].
    destruct (Hall _ Hr) as [Hle _]. cbn [snd] in Hle.
    destruct (Rle_dec d HIT_R) as [_|Hn]; [|lra].
    apply elem_of_entries in Hin as (k & i & seg & p & Ep & _).
    injection Ep as -> _. eauto.
  - apply scan_none in E as [E _]. rewrite E in Hr. inversion Hr.
Qed.

Lemma hypot_zero (a b : R) : hypot a b = 0 -> a = 0 /\ b = 0.
Proof.
  unfold hypot. intros H. apply sqrt_eq_0 in H; [|nra].
  split; nra.
Qed.

Lemma dist_zero (p : point) (x y : R) :
  dist p x y = 0 -> p = {| px := x; py := y |}.
Proof.
  unfold dist. intros H. apply hypot_zero in H as [Hx Hy].
  destruct p as [a b]. simpl in *. f_equal; lra.
Qed.

Lemma dist_self (x y : R) : dist {| px := x; py := y |} x y = 0.
Proof.
  unfold dist, hypot. simpl.
  replace ((x - x) * (x - x) + (y - y) * (y - y)) with 0 by ring.
  apply sqrt_0.
Qed.

Lemma inserted_has_point (seg seg' : segment) (x y : R) :
  inserted_after_nearest seg x y seg' ->
  exists k : nat,
    seg' !! k = Some {| px := x; py := y |}
    /\ length seg' = S (length seg)
    /\ delete k seg' = seg.
Proof.
  intros [[-> ->]|(idx & q & Hq & _ & ->)].
  - exists 0%nat. split; [reflexivity|]. split; reflexivity.
  - apply lookup_lt_Some in Hq.
    assert (length (take (idx + 1) seg) = (idx + 1)%nat) as Hlen
      by (rewrite length_take; lia).
    exists (idx + 1)%nat. split; [|split].
    + rewrite <- Hlen at 1. apply list_lookup_middle. reflexivity.
    + rewrite length_app. cbn [length]. rewrite length_take, length_drop. lia.
    + rewrite <- Hlen at 1. rewrite delete_middle. apply take_drop.
Qed.

(** X13. After [_add_control_point] at [(x, y)] on a collection with a
    segment, [_find_closest_point] at the same place finds a point, and
    the point it returns has the coordinates [(x, y)]. *)
Theorem add_control_point_then_hit (segments : collection) (x y : R) :
  segments <> [] ->
  exists (segments' : collection) (r : BezierCanvas.point_ref),
    BezierCanvas._add_control_point segments x y = Some segments'
    /\ BezierCanvas._find_closest_point segments' x y = Some r
    /\ r.2 = {| px := x; py := y |}.
Proof.
  intros Hne.
  destruct (add_control_point_shape segments x y Hne)
    as (s & seg & seg' & Hs & _ & Hins & Hadd).
  destruct (inserted_has_point seg seg' x y Hins) as (k & Hk & _).
  exists (<[s := seg']> segments).
  assert (point_at (<[s := seg']> segments) (s, k, {| px := x; py := y |}))
    as Hat.
  { exists seg'. cbn [fst snd]. split; [|exact Hk].
    apply list_lookup_insert_eq. eapply lookup_lt_Some. exact Hs. }
  pose proof (hypot_nonneg 0 0) as _.
  assert (dist {| px := x; py := y |} x y <= HIT_R) as Hd.
  { rewrite dist_self. unfold HIT_R. lra. }
  destruct (find_closest_point_hit _ x y _ Hat Hd) as [r Hr].
  exists r. split; [exact Hadd|]. split; [exact Hr|].
  destruct (find_closest_point_least _ x y r Hr) as (_ & _ & Hall).
  specialize (Hall _ Hat). cbn [snd] in Hall. rewrite dist_self in Hall.
  pose proof (hypot_nonneg (px r.2 - x) (py r.2 - y)) as Hpos.
  apply dist_zero. unfold dist in *. lra.
Qed.

Lemma add_control_point_then_hit_witness :
  exists (segments' : list (list point)) (r : BezierCanvas.point_ref),
    BezierCanvas._add_control_point [[Point 0 0; Point 100 0]] 50 5
    = Some segments'
    /\ BezierCanvas._find_closest_point segments' 50 5 = Some r
    /\ r.2 = Point 50 5.
Proof.
  apply (add_control_point_then_hit [[Point 0 0; Point 100 0]] 50 5).
  discriminate.
Defined.

(** X14. [_add_control_point] changes one segment only and adds one
    point to it: the new segment holds [(x, y)] at some index, and
    deleting that index gives the old segment back, so the points that
    were there keep their order. *)
Theorem add_control_point_adds_one (segments : collection) (x y : R) :
  segments <> [] ->
  exists (segments' : collection) (s k : nat) (seg seg' : segment),
    BezierCanvas._add_control_point segments x y = Some segments'
    /\ segments !! s = Some seg
    /\ segments' = <[s := seg']> segments
    /\ seg' !! k = Some {| px := x; py := y |}
    /\ delete k seg' = seg.
Proof.
  intros Hne.
  destruct (add_control_point_shape segments x y Hne)
    as (s & seg & seg' & Hs & _ & Hins & Hadd).
  destruct (inserted_has_point seg seg' x y Hins) as (k & Hk & _ & Hdel).
  exists (<[s := seg']> segments), s, k, seg, seg'. auto.
Qed.

Lemma add_control_point_adds_one_witness :
  exists (segments' : list (list point)) (s k : nat)
         (seg seg' : list point),
    BezierCanvas._add_control_point [[]; [Point 1 1]] 2 2 = Some segments'
    /\ [[]; [Point 1 1]] !! s = Some seg
    /\ segments' = <[s := seg']> [[]; [Point 1 1]]
    /\ seg' !! k = Some (Point 2 2)
    /\ delete k seg' = seg.
Proof.
  apply (add_control_point_adds_one [[]; [Point 1 1]] 2 2).
  discriminate.
Defined.

(** X15. [_remove_segment] undoes [_add_segment] on a collection with a
    segment; on a collection with none the added segment is the only one
    and stays. *)
Theorem add_segment_remove_segment (segments : collection) :
  (segments <> [] ->
   MainWindow._remove_segment (MainWindow._add_segment segments) = segments)
  /\ MainWindow._remove_segment (MainWindow._add_segment [])
     = MainWindow._add_segment [].
Proof.
  split; [|reflexivity].
  intros Hne. unfold MainWindow._add_segment, MainWindow._remove_segment.
  destruct (decide (1 < length (segments ++ [_]))%nat) as [_|Hlen].
  - apply removelast_last.
  - rewrite length_app in Hlen. simpl in Hlen.
    destruct segments; [congruence|simpl in Hlen; lia].
Qed.

Lemma run_cons (g : MainWindow.gesture) (gs : list MainWindow.gesture)
  (segments segments' : collection) :
  MainWindow.apply_gesture g segments = Some segments' ->
  MainWindow.run (g :: gs) segments = MainWindow.run gs segments'.
Proof.
  intros H. unfold MainWindow.run. cbn [foldl mbind option_bind].
  rewrite H. reflexivity.
Qed.

(** X16. From the initial collection, any number of [_add_control_point]
    calls run without error and build one segment that holds as many
    points as there were calls. *)
Theorem add_points_to_fresh_collection (clicks : list (R * R)) :
  exists seg : segment,
    MainWindow.run ((fun c => MainWindow.AddPoint c.1 c.2) <$> clicks)
                   MainWindow.EMPTY_START
    = Some [seg]
    /\ length seg = length clicks.
Proof.
  unfold MainWindow.EMPTY_START.
  assert (forall seg0 : segment,
             exists seg : segment,
               MainWindow.run
                 ((fun c => MainWindow.AddPoint c.1 c.2) <$> clicks) [seg0]
               = Some [seg]
               /\ length seg = (length seg0 + length clicks)%nat) as H.
  { induction clicks as [|[x y] clicks IH]; intros seg0.
    - exists seg0. split; [reflexivity|simpl; lia].
    - destruct (add_control_point_shape [seg0] x y)
        as (s & seg & seg' & Hs & _ & Hins & Hadd); [discriminate|].
      destruct s as [|s]; [|discriminate]. injection Hs as <-.
      destruct (inserted_has_point _ _ x y Hins) as (k & _ & Hlen & _).
      destruct (IH seg') as (seg1 & Hrun & Hlen1).
      exists seg1. rewrite fmap_cons.
      rewrite (run_cons _ _ [seg0] [seg']); [|exact Hadd].
      split; [exact Hrun|]. rewrite Hlen1, Hlen. simpl. lia. }
  destruct (H []) as (seg & Hrun & Hlen). exists seg. auto.
Qed.

(** X17. Whatever a right click can remove, a left click can grab: when
    [_remove_point] at [(x, y)] changes the collection,
    [_find_closest_point] at [(x, y)] returns a point. *)
Theorem removable_is_grabbable (segments : collection) (x y : R) :
  BezierCanvas._remove_point segments x y <> segments ->
  is_Some (BezierCanvas._find_closest_point segments x y).
Proof.
  intros Hchg.
  destruct (remove_point_cases x y segments)
    as [[E _]|(si & i & seg & p & Hs & _ & Hi & Hp & _)]; [congruence|].
  apply (find_closest_point_hit segments x y (si, i, p)).
  - exists seg. split; assumption.
  - cbn [snd]. lra.
Qed.

Lemma removable_is_grabbable_witness :
  is_Some (BezierCanvas._find_closest_point
             [[Point 0 0; Point 5 0; Point 9 0]] 3 4).
Proof.
  apply removable_is_grabbable.
  rewrite remove_point_takes_first. discriminate.
Defined.

(** ** Mouse positions and the painter's scale *)

(** X18. [_mouse_to_logical] inverts the scale that [paintEvent] hands to
    the painter: the position [(sx * x, sy * y)] maps back to [(x, y)]
    when the widget has a width and a height; it fails (division by
    zero) on a widget of width 0 with a canvas width other than 0; and
    with a canvas of size 0 by 0 it returns the position as it is. *)
Theorem mouse_to_logical_inverts_scale (w h rw rh : R) :
  (forall sx sy x y : R,
      paint_scale w h rw rh = Some (sx, sy) -> rw <> 0 -> rh <> 0 ->
      _mouse_to_logical w h rw rh (sx * x) (sy * y) = Some (x, y))
  /\ (forall pos_x pos_y : R,
         w <> 0 -> rw = 0 ->
         _mouse_to_logical w h rw rh pos_x pos_y = None)
  /\ (forall pos_x pos_y : R,
         w = 0 -> h = 0 ->
         _mouse_to_logical w h rw rh pos_x pos_y = Some (pos_x, pos_y)).
Proof.
  split; [|split].
  - intros sx sy x y Hs Hrw Hrh. unfold paint_scale in Hs.
    destruct (Rle_dec w 0) as [|Hw]; [discriminate|].
    destruct (Rle_dec h 0) as [|Hh]; [discriminate|].
    injection Hs as <- <-. unfold _mouse_to_logical.
    destruct (Req_dec_T w 0) as [|_]; [lra|].
    destruct (Req_dec_T h 0) as [|_]; [lra|].
    unfold checked_div.
    destruct (Req_dec_T (rw / w) 0) as [E|_].
    { exfalso. apply Hrw. apply (Rmult_eq_reg_r (/ w)).
      - unfold Rdiv in E. rewrite E. ring.
      - apply Rinv_neq_0_compat. lra. }
    destruct (Req_dec_T (rh / h) 0) as [E|_].
    { exfalso. apply Hrh. apply (Rmult_eq_reg_r (/ h)).
      - unfold Rdiv in E. rewrite E. ring.
      - apply Rinv_neq_0_compat. lra. }
    cbn [mbind option_bind]. f_equal. f_equal; field; split; lra.
  - intros pos_x pos_y Hw ->. unfold _mouse_to_logical.
    destruct (Req_dec_T w 0) as [|_]; [contradiction|].
    unfold checked_div.
    destruct (Req_dec_T (0 / w) 0) as [_|E]; [reflexivity|].
    exfalso. apply E. unfold Rdiv. ring.
  - intros pos_x pos_y -> ->. unfold _mouse_to_logical.
    destruct (Req_dec_T 0 0) as [_|E]; [|contradiction].
    unfold checked_div.
    destruct (Req_dec_T 1 0) as [E|_]; [lra|].
    cbn [mbind option_bind]. f_equal. f_equal; field.
Qed.

(** ** The curve that is painted is the curve that is measured *)

Lemma curve_path_loop (seg : segment) :
  seg <> [] ->
  forall k : nat,
    foldl (curve_path_step seg) (Some [sample seg STEPS 0]) (seq 1 k)
    = Some (sample seg STEPS <$> seq 0 (S k)).
Proof.
  intros Hne. induction k as [|k IH]; [reflexivity|].
  rewrite seq_S, foldl_app, IH. cbn [foldl].
  unfold curve_path_step. cbn [mbind option_bind].
  rewrite (de_casteljau_curve seg _ Hne). cbn [mbind option_bind].
  rewrite (seq_S (S k)), fmap_app. reflexivity.
Qed.

Lemma curve_path_closed (seg : segment) :
  seg <> [] ->
  curve_path seg = Some (sample seg STEPS <$> seq 0 (S STEPS)).
Proof.
  intros Hne. unfold curve_path.
  rewrite (de_casteljau_curve seg 0 Hne). cbn [mbind option_bind].
  replace (curve seg 0) with (sample seg STEPS 0).
  - apply curve_path_loop, Hne.
  - unfold sample. f_equal. change (INR 0) with 0. unfold Rdiv. ring.
Qed.

Lemma path_length_snoc (l : list point) :
  forall a b : point,
    path_length (l ++ [a; b])
    = path_length (l ++ [a]) + hypot (px b - px a) (py b - py a).
Proof.
  induction l as [|p [|q l] IH]; intros a b.
  - simpl. ring.
  - simpl. ring.
  - change (path_length ((p :: q :: l) ++ [a; b]))
      with (hypot (px q - px p) (py q - py p)
            + path_length ((q :: l) ++ [a; b])).
    change (path_length ((p :: q :: l) ++ [a]))
      with (hypot (px q - px p) (py q - py p)
            + path_length ((q :: l) ++ [a])).
    rewrite IH. ring.
Qed.

Lemma path_length_samples (g : nat -> point) (n : nat) :
  path_length (g <$> seq 0 (S n)) = polyline g n.
Proof.
  induction n as [|n IH]; [reflexivity|].
  rewrite seq_S, fmap_app. cbn [polyline]. rewrite <- IH.
  rewrite seq_S, fmap_app, <- app_assoc. cbn [fmap list_fmap app Nat.add].
  rewrite path_length_snoc. reflexivity.
Qed.

Lemma curve_path_spec (seg : segment) :
  seg <> [] ->
  exists path : list point,
    curve_path seg = Some path
    /\ length path = S STEPS
    /\ head path = head seg
    /\ last path = last seg
    /\ approximate_length seg 200 = Some (path_length path).
Proof.
  intros Hne. exists (sample seg STEPS <$> seq 0 (S STEPS)).
  split; [apply curve_path_closed, Hne|].
  split; [rewrite length_fmap, length_seq; reflexivity|].
  assert (INR STEPS <> 0) as Hn by (apply not_0_INR; discriminate).
  split; [|split].
  - destruct seg as [|p seg]; [congruence|].
    rewrite <- cons_seq, fmap_cons. cbn [head]. f_equal.
    unfold sample. change (INR 0) with 0.
    replace (0 / INR STEPS) with 0 by (unfold Rdiv; ring).
    apply curve_0. reflexivity.
  - rewrite seq_S, fmap_app. cbn [fmap list_fmap Nat.add]. rewrite last_snoc.
    destruct (last seg) as [p|] eqn:Hl.
    + f_equal. unfold sample.
      replace (INR STEPS / INR STEPS) with 1 by (field; exact Hn).
      apply curve_1, Hl.
    + apply last_None in Hl. congruence.
  - rewrite path_length_samples.
    apply (approximate_length_closed seg STEPS Hne).
Qed.

(** X19. What is painted is what is measured: [paintEvent] builds a path
    for exactly the segments of 2 or more points, without error; each
    path has [STEPS + 1] vertices, starts at the first control point and
    ends at the last, and its length is the [approximate_length] of its
    segment; the total shown by [refresh_ui_and_canvases] is the sum of
    the lengths of the painted paths. *)
Theorem painted_curves_are_measured (segments : collection) :
  exists paths : list (list point),
    paint_curves segments = Some paths
    /\ Forall2 (fun seg path =>
                  length path = S STEPS
                  /\ head path = head seg
                  /\ last path = last seg
                  /\ approximate_length seg 200 = Some (path_length path))
               (filter (fun seg => (2 <= length seg)%nat) segments) paths
    /\ MainWindow.total_len segments
       = Some (foldr (fun path acc => path_length path + acc) 0 paths).
Proof.
  unfold paint_curves.
  induction segments as [|seg rest IH].
  - exists []. split; [reflexivity|]. split; [constructor|reflexivity].
  - destruct IH as (paths & Hp & Hall & Htot).
    rewrite total_len_closed in *. rewrite !filter_cons.
    cbn [total_spec]. unfold contribution.
    destruct (decide (2 <= length seg)%nat) as [Hlen|Hlen];
      destruct (decide (~ (length seg < 2)%nat)) as [Hlen'|Hlen'];
      try lia.
    + destruct (curve_path_spec seg) as (path & Hpath & Hspec).
      { intros ->. simpl in Hlen. lia. }
      exists (path :: paths). cbn [mapM]. rewrite Hpath, Hp.
      split; [reflexivity|]. split; [constructor; assumption|].
      cbn [foldr]. destruct Hspec as (_ & _ & _ & Happ).
      rewrite approximate_length_closed in Happ
        by (intros ->; simpl in Hlen; lia).
      apply (inj Some) in Happ. apply (inj Some) in Htot.
      rewrite Happ, Htot. reflexivity.
    + exists paths. split; [exact Hp|]. split; [exact Hall|].
      apply (inj Some) in Htot. rewrite Htot. f_equal. ring.
Qed.

(** ** The session: the handlers act on the collection as the functions do *)

Lemma wf_initial : Session.wf Session.initial.
Proof.
  split; [apply NoDup_nil_2|]. split; [constructor|discriminate].
Qed.

Lemma fmap_store_fresh (h : nat -> point) (a : nat) (p : point)
  (l : list nat) :
  Forall (fun a' => (a' < a)%nat) l -> Session.store h a p <$> l = h <$> l.
Proof.
  intros H. apply list_fmap_ext. intros i a' Hi.
  rewrite Forall_forall in H.
  specialize (H a' (list_elem_of_lookup_2 _ _ _ Hi)).
  unfold Session.store. destruct (decide (a' = a)); [lia|reflexivity].
Qed.

Lemma view_store_fresh (h : nat -> point) (a : nat) (p : point)
  (segs : list (list nat)) :
  Forall (fun a' => (a' < a)%nat) (mjoin segs) ->
  fmap (M:=list) (Session.store h a p) <$> segs = fmap (M:=list) h <$> segs.
Proof.
  induction segs as [|seg segs IH]; intros H; [reflexivity|].
  change (mjoin (seg :: segs)) with (seg ++ mjoin segs) in H.
  apply Forall_app in H as [H1 H2].
  rewrite !fmap_cons, IH by exact H2.
  rewrite fmap_store_fresh by exact H1. reflexivity.
Qed.

Lemma view_remove_in (h : nat -> point) (x y : R) (segs : list (list nat)) :
  fmap (M:=list) h <$> Session.remove_in h segs x y
  = BezierCanvas._remove_point (fmap (M:=list) h <$> segs) x y.
Proof.
  induction segs as [|seg segs IH]; [reflexivity|].
  cbn [Session.remove_in]. rewrite fmap_cons.
  cbn [BezierCanvas._remove_point]. rewrite length_fmap.
  destruct (decide (length seg <= 2)%nat) as [Hlen|Hlen].
  - rewrite fmap_cons, IH. reflexivity.
  - destruct (BezierCanvas.first_hit x y (enumerate (h <$> seg))) as [i|].
    + rewrite fmap_cons, list_fmap_delete. reflexivity.
    + rewrite fmap_cons, IH. reflexivity.
Qed.

Lemma view_lookup (st : Session.state) (s : nat) :
  Session.view st !! s
  = fmap (M:=list) (Session.heap st) <$> (Session.segments st !! s).
Proof. apply list_lookup_fmap. Qed.

Lemma view_add_control_point (st : Session.state) (x y : R) :
  Session.wf st ->
  Session.view <$> Session._add_control_point st x y
  = BezierCanvas._add_control_point (Session.view st) x y.
Proof.
  intros (_ & Hb & _).
  unfold Session._add_control_point, BezierCanvas._add_control_point.
  destruct (BezierCanvas.best_segment (Session.view st) x y) as [best|];
    [|reflexivity].
  cbn [mbind option_bind].
  rewrite view_lookup.
  destruct (Session.segments st !! best.1) as [seg|] eqn:Hs; [|reflexivity].
  cbn [fmap option_fmap option_map mbind option_bind].
  rewrite length_fmap.
  set (new := {| px := x; py := y |}).
  set (hh := Session.store (Session.heap st) (Session.next st) new).
  assert (hh (Session.next st) = new) as Hnew.
  { unfold hh, Session.store.
    destruct (decide (Session.next st = Session.next st)); congruence. }
  assert (hh <$> seg = Session.heap st <$> seg) as Hseg.
  { apply fmap_store_fresh, Forall_forall. intros a Ha.
    rewrite Forall_forall in Hb. apply Hb.
    apply list_elem_of_join. exists seg. split; [exact Ha|].
    eapply list_elem_of_lookup_2. exact Hs. }
  assert (forall seg2 : list nat,
             fmap (M:=list) hh <$> <[best.1 := seg2]> (Session.segments st)
             = <[best.1 := hh <$> seg2]> (Session.view st)) as Hins.
  { intros seg2. rewrite list_fmap_insert. unfold hh.
    rewrite view_store_fresh by exact Hb. reflexivity. }
  destruct (decide (length seg = 0%nat)) as [E|E].
  - cbn [fmap option_fmap option_map]. unfold Session.view at 1.
    cbn [Session.heap Session.segments]. fold hh.
    rewrite Hins, fmap_app, Hseg. cbn [fmap list_fmap].
    rewrite Hnew. reflexivity.
  - destruct (py_min _ _) as [idx|]; [|reflexivity].
    cbn [mbind option_bind fmap option_fmap option_map].
    unfold Session.view at 1. cbn [Session.heap Session.segments]. fold hh.
    rewrite Hins, fmap_app, fmap_cons, fmap_take, fmap_drop, Hseg, Hnew.
    reflexivity.
Qed.

Lemma view_add_segment (st : Session.state) :
  Session.wf st ->
  Session.view (Session._add_segment st)
  = MainWindow._add_segment (Session.view st).
Proof.
  intros (_ & Hb & _).
  unfold Session.view, Session._add_segment, MainWindow._add_segment.
  cbn [Session.heap Session.segments].
  rewrite fmap_app. f_equal.
  - rewrite !view_store_fresh; [reflexivity| | |].
    + exact Hb.
    + eapply Forall_impl; [exact Hb|]. intros a Ha. simpl in Ha. lia.
    + eapply Forall_impl; [exact Hb|]. intros a Ha. simpl in Ha. lia.
  - cbn [fmap list_fmap]. unfold Session.store.
    repeat (case_decide; try lia). reflexivity.
Qed.

Lemma fmap_removelast {A B : Type} (f : A -> B) (l : list A) :
  f <$> removelast l = removelast (f <$> l).
Proof.
  induction l as [|a [|b l] IH]; try reflexivity.
  change (removelast (a :: b :: l)) with (a :: removelast (b :: l)).
  rewrite !fmap_cons, IH. reflexivity.
Qed.

Lemma view_remove_segment (st : Session.state) :
  Session.view (Session._remove_segment st)
  = MainWindow._remove_segment (Session.view st).
Proof.
  unfold Session.view, Session._remove_segment, MainWindow._remove_segment.
  cbn [Session.heap Session.segments]. rewrite length_fmap.
  destruct (decide (1 < length (Session.segments st))%nat);
    [apply fmap_removelast|reflexivity].
Qed.

(** X20. With the point dicts as objects of a store, the handlers change
    the collection as the functions on values say: Shift with the left
    button is [_add_control_point], the right button is [_remove_point],
    the three buttons of the window are [_add_segment],
    [_remove_segment] and [_reset]; a plain left press, a middle press
    and a release leave the collection as it is. *)
Theorem session_handlers_refine (st : Session.state) (e : Session.event) :
  Session.wf st ->
  (forall g : MainWindow.gesture,
      Session.gesture_of e = Some g ->
      Session.view <$> Session.handle e st
      = MainWindow.apply_gesture g (Session.view st))
  /\ (Session.gesture_of e = None ->
      (forall x y : R, e <> Session.Move x y) ->
      Session.view <$> Session.handle e st = Some (Session.view st)).
Proof.
  intros Hwf. split.
  - intros g Hg.
    destruct e as [[| |] [|] x y|x y|b| | |]; simpl in Hg;
      try discriminate; injection Hg as <-;
      cbn [Session.handle Session.mousePressEvent
           MainWindow.apply_gesture].
    + apply view_add_control_point, Hwf.
    + cbn [fmap option_fmap option_map]. f_equal.
      apply view_remove_in.
    + cbn [fmap option_fmap option_map]. f_equal.
      apply view_remove_in.
    + cbn [fmap option_fmap option_map]. f_equal.
      apply view_add_segment, Hwf.
    + cbn [fmap option_fmap option_map]. f_equal.
      apply view_remove_segment.
    + reflexivity.
  - intros Hg Hmove.
    destruct e as [[| |] [|] x y|x y|[| |]| | |]; simpl in Hg;
      try discriminate; try reflexivity.
    destruct (Hmove x y eq_refl).
Qed.

Lemma session_handlers_refine_witness :
  (forall g : MainWindow.gesture,
      Session.gesture_of (Session.Press Session.LeftButton true 1 2)
      = Some g ->
      Session.view
        <$> Session.handle (Session.Press Session.LeftButton true 1 2)
                           Session.initial
      = MainWindow.apply_gesture g (Session.view Session.initial))
  /\ (Session.gesture_of (Session.Press Session.LeftButton true 1 2) = None ->
      (forall x y : R,
          Session.Press Session.LeftButton true 1 2 <> Session.Move x y) ->
      Session.view
        <$> Session.handle (Session.Press Session.LeftButton true 1 2)
                           Session.initial
      = Some (Session.view Session.initial)).
Proof.
  exact (session_handlers_refine Session.initial
           (Session.Press Session.LeftButton true 1 2) wf_initial).
Defined.

(** ** The session keeps every dict at one place *)

Lemma join_insert_perm (segs : list (list nat)) :
  forall (s : nat) (seg seg2 : list nat) (a : nat),
    segs !! s = Some seg -> seg2 ≡ₚ a :: seg ->
    mjoin (<[s := seg2]> segs) ≡ₚ a :: mjoin segs.
Proof.
  induction segs as [|seg0 segs IH]; intros s seg seg2 a Hs Hp;
    [discriminate|].
  destruct s as [|s].
  - injection Hs as ->. cbn [insert list_insert mjoin list_join].
    rewrite Hp. reflexivity.
  - cbn [insert list_insert mjoin list_join].
    change (list_insert s seg2 segs) with (<[s := seg2]> segs).
    rewrite (IH s seg seg2 a Hs Hp).
    rewrite <- Permutation_middle. reflexivity.
Qed.

Lemma remove_in_cases (h : nat -> point) (x y : R) (segs : list (list nat)) :
  Session.remove_in h segs x y = segs
  \/ exists (si i : nat) (seg : list nat) (a : nat),
       segs !! si = Some seg /\ seg !! i = Some a
       /\ Session.remove_in h segs x y = <[si := delete i seg]> segs.
Proof.
  induction segs as [|seg0 segs IH]; [left; reflexivity|].
  cbn [Session.remove_in].
  assert (seg0 :: Session.remove_in h segs x y = seg0 :: segs
          \/ exists (si i : nat) (seg : list nat) (a : nat),
               (seg0 :: segs) !! si = Some seg /\ seg !! i = Some a
               /\ seg0 :: Session.remove_in h segs x y
                  = <[si := delete i seg]> (seg0 :: segs)) as Hskip.
  { destruct IH as [->|(si & i & seg & a & Hs & Hi & ->)];
      [left; reflexivity|right].
    exists (S si), i, seg, a. auto. }
  destruct (decide (length seg0 <= 2)%nat); [exact Hskip|].
  pose proof (first_hit_spec x y (h <$> seg0) 0) as Hhit.
  fold (enumerate (h <$> seg0)) in Hhit.
  destruct (BezierCanvas.first_hit x y (enumerate (h <$> seg0))) as [k|];
    [|exact Hskip].
  destruct Hhit as (i & p & -> & Hi & _).
  rewrite list_lookup_fmap in Hi.
  destruct (seg0 !! i) as [a|] eqn:Ha; [|discriminate].
  right. exists 0%nat, i, seg0, a. auto.
Qed.

Lemma wf_remove_in (st : Session.state) (x y : R) :
  Session.wf st -> Session.wf (Session._remove_point st x y).
Proof.
  intros (Hnd & Hb & Hne). unfold Session.wf, Session._remove_point.
  cbn [Session.segments Session.next].
  destruct (remove_in_cases (Session.heap st) x y (Session.segments st))
    as [->|(si & i & seg & a & Hs & Hi & ->)]; [auto|].
  assert (mjoin (Session.segments st)
          ≡ₚ a :: mjoin (<[si := delete i seg]> (Session.segments st)))
    as Hp.
  { rewrite <- (join_insert_perm
                  (<[si := delete i seg]> (Session.segments st))
                  si (delete i seg) seg a).
    - rewrite list_insert_insert_eq, list_insert_id by exact Hs.
      reflexivity.
    - apply list_lookup_insert_eq. eapply lookup_lt_Some. exact Hs.
    - apply delete_Permutation, Hi. }
  rewrite Hp in Hnd, Hb.
  apply NoDup_cons in Hnd as [_ Hnd]. apply Forall_cons in Hb as [_ Hb].
  split; [exact Hnd|]. split; [exact Hb|].
  intros E. apply (f_equal length) in E. rewrite length_insert in E.
  destruct (Session.segments st); [congruence|discriminate].
Qed.

Lemma wf_add_control_point (st st2 : Session.state) (x y : R) :
  Session.wf st -> Session._add_control_point st x y = Some st2 ->
  Session.wf st2.
Proof.
  intros (Hnd & Hb & Hne). unfold Session._add_control_point.
  destruct (BezierCanvas.best_segment (Session.view st) x y) as [best|];
    [|discriminate].
  cbn [mbind option_bind].
  destruct (Session.segments st !! best.1) as [seg|] eqn:Hs;
    [|discriminate].
  cbn [mbind option_bind].
  assert (forall seg2 : list nat,
             seg2 ≡ₚ Session.next st :: seg ->
             forall h sel,
               Session.wf (Session.State h (S (Session.next st))
                             (<[best.1 := seg2]> (Session.segments st))
                             sel)) as Hwf.
  { intros seg2 Hp h sel. unfold Session.wf.
    cbn [Session.segments Session.next].
    rewrite (join_insert_perm _ _ seg seg2 _ Hs Hp).
    split; [|split].
    - apply NoDup_cons. split; [|exact Hnd].
      intros Hin. rewrite Forall_forall in Hb.
      specialize (Hb _ Hin). lia.
    - constructor; [lia|].
      eapply Forall_impl; [exact Hb|]. intros a Ha. simpl in Ha. lia.
    - intros E. apply (f_equal length) in E. rewrite length_insert in E.
      destruct (Session.segments st); [congruence|discriminate]. }
  destruct (decide (length seg = 0%nat)).
  - intros [= <-]. apply Hwf.
    rewrite Permutation_app_comm. reflexivity.
  - destruct (py_min _ _) as [idx|]; [|discriminate].
    cbn [mbind option_bind]. intros [= <-]. apply Hwf.
    rewrite <- Permutation_middle, take_drop. reflexivity.
Qed.

Lemma wf_handle (e : Session.event) (st st2 : Session.state) :
  Session.wf st -> Session.handle e st = Some st2 -> Session.wf st2.
Proof.
  intros Hwf.
  destruct e as [[| |] [|] x y|x y|[| |]| | |];
    cbn [Session.handle Session.mousePressEvent]; intros H;
    try (injection H as <-).
  - exact (wf_add_control_point st st2 x y Hwf H).
  - exact Hwf.
  - apply wf_remove_in, Hwf.
  - apply wf_remove_in, Hwf.
  - exact Hwf.
  - exact Hwf.
  - unfold Session.mouseMoveEvent.
    destruct (Session._selected_point st); exact Hwf.
  - exact Hwf.
  - exact Hwf.
  - exact Hwf.
  - destruct Hwf as (Hnd & Hb & Hne).
    unfold Session.wf, Session._add_segment.
    cbn [Session.segments Session.next].
    assert (mjoin (Session.segments st
                   ++ [[Session.next st; S (Session.next st);
                        S (S (Session.next st))]])
            = mjoin (Session.segments st)
              ++ [Session.next st; S (Session.next st);
                  S (S (Session.next st))]) as ->.
    { rewrite join_app. reflexivity. }
    split; [|split].
    + apply NoDup_app. split; [exact Hnd|]. split.
      * intros a Ha Hin. rewrite Forall_forall in Hb.
        specialize (Hb a Ha). simpl in Hb.
        rewrite !elem_of_cons in Hin.
        destruct Hin as [->|[->|[->|Hin]]]; try lia. inversion Hin.
      * repeat (apply NoDup_cons; split;
                [rewrite ?elem_of_cons, elem_of_nil; lia|]).
        apply NoDup_nil_2.
    + apply Forall_app. split.
      * eapply Forall_impl; [exact Hb|]. intros a Ha. simpl in Ha. lia.
      * repeat (constructor; [lia|]). constructor.
    + destruct (Session.segments st); discriminate.
  - destruct Hwf as (Hnd & Hb & Hne).
    unfold Session.wf, Session._remove_segment.
    cbn [Session.segments Session.next].
    destruct (decide (1 < length (Session.segments st))%nat) as [Hlen|Hlen];
      [|auto].
    destruct (Session.segments st) as [|s0 segs] eqn:E using rev_ind;
      [simpl in Hlen; lia|].
    clear IHsegs. rewrite removelast_last.
    rewrite join_app in Hnd, Hb.
    apply NoDup_app in Hnd as [Hnd _]. apply Forall_app in Hb as [Hb _].
    split; [exact Hnd|]. split; [exact Hb|].
    rewrite length_app in Hlen. simpl in Hlen.
    destruct segs; [simpl in Hlen; lia|discriminate].
  - split; [apply NoDup_nil_2|]. split; [constructor|discriminate].
Qed.

Lemma handle_is_Some (e : Session.event) (st : Session.state) :
  Session.wf st -> is_Some (Session.handle e st).
Proof.
  intros Hwf.
  destruct e as [[| |] [|] x y|x y|b| | |];
    cbn [Session.handle Session.mousePressEvent]; eauto.
  pose proof (view_add_control_point st x y Hwf) as Hv.
  destruct (add_control_point_shape (Session.view st) x y)
    as (s & seg & seg2 & _ & _ & _ & Hadd).
  { destruct Hwf as (_ & _ & Hne). unfold Session.view.
    destruct (Session.segments st); [congruence|discriminate]. }
  rewrite Hadd in Hv.
  destruct (Session._add_control_point st x y); [eauto|discriminate].
Qed.

Lemma run_wf (es : list Session.event) :
  forall st : Session.state,
    Session.wf st ->
    exists st2 : Session.state,
      Session.run es st = Some st2 /\ Session.wf st2.
Proof.
  unfold Session.run.
  induction es as [|e es IH]; intros st Hwf.
  - exists st. split; [reflexivity|exact Hwf].
  - cbn [foldl mbind option_bind].
    destruct (handle_is_Some e st Hwf) as [st1 H1]. rewrite H1.
    apply IH. exact (wf_handle e st st1 Hwf H1).
Qed.

Lemma places_injective (segs : list (list nat)) :
  NoDup (mjoin segs) ->
  forall (si i sj j a : nat) (seg segj : list nat),
    segs !! si = Some seg -> seg !! i = Some a ->
    segs !! sj = Some segj -> segj !! j = Some a ->
    si = sj /\ i = j.
Proof.
  induction segs as [|seg0 segs IH]; intros Hnd;
    [intros si i sj j a seg segj H; discriminate|].
  change (mjoin (seg0 :: segs)) with (seg0 ++ mjoin segs) in Hnd.
  apply NoDup_app in Hnd as (Hnd0 & Hdisj & Hnd).
  assert (forall (s k a : nat) (seg : list nat),
             segs !! s = Some seg -> seg !! k = Some a -> a ∈ mjoin segs)
    as Hin.
  { intros s k a seg Hs Hk. apply list_elem_of_join. exists seg.
    split; eapply list_elem_of_lookup_2; eassumption. }
  intros [|si] i [|sj] j a seg segj Hs Hi Hsj Hj; cbn in Hs, Hsj.
  - injection Hs as <-. injection Hsj as <-.
    split; [reflexivity|]. exact (NoDup_lookup _ _ _ _ Hnd0 Hi Hj).
  - injection Hs as <-. exfalso.
    apply (Hdisj a (list_elem_of_lookup_2 _ _ _ Hi)).
    exact (Hin sj j a segj Hsj Hj).
  - injection Hsj as <-. exfalso.
    apply (Hdisj a (list_elem_of_lookup_2 _ _ _ Hj)).
    exact (Hin si i a seg Hs Hi).
  - destruct (IH Hnd si i sj j a seg segj Hs Hi Hsj Hj) as [-> ->].
    split; reflexivity.
Qed.

(** X21. From the initial state every sequence of mouse and button
    events is handled without error, the collection keeps a segment, and
    no point dict ever sits at two places of the collection: a write
    through a grabbed dict can change one control point at most. *)
Theorem session_runs_and_keeps_places (es : list Session.event) :
  exists st : Session.state,
    Session.run es Session.initial = Some st
    /\ Session.segments st <> []
    /\ forall (si i sj j a : nat) (seg segj : list nat),
         Session.segments st !! si = Some seg -> seg !! i = Some a ->
         Session.segments st !! sj = Some segj -> segj !! j = Some a ->
         si = sj /\ i = j.
Proof.
  destruct (run_wf es Session.initial wf_initial) as (st & Hrun & Hwf).
  exists st. split; [exact Hrun|].
  destruct Hwf as (Hnd & _ & Hne). split; [exact Hne|].
  exact (places_injective _ Hnd).
Qed.

(** ** Dragging *)

Lemma view_move (st : Session.state) (a : nat) (x y : R) :
  Session.wf st -> Session._selected_point st = Some a ->
  (forall (si i : nat) (seg : list nat),
      Session.segments st !! si = Some seg -> seg !! i = Some a ->
      Session.view (Session.mouseMoveEvent st x y)
      = <[si := <[i := {| px := x; py := y |}]> (Session.heap st <$> seg)]>
          (Session.view st))
  /\ (a ∉ mjoin (Session.segments st) ->
      Session.view (Session.mouseMoveEvent st x y) = Session.view st).
Proof.
  intros (Hnd & _ & _) Hsel.
  unfold Session.mouseMoveEvent. rewrite Hsel.
  unfold Session.view. cbn [Session.heap Session.segments].
  set (p := {| px := x; py := y |}). set (h := Session.heap st).
  assert (forall l : list nat,
             a ∉ l -> Session.store h a p <$> l = h <$> l) as Hother.
  { intros l Hl. apply list_fmap_ext. intros k b Hk.
    unfold Session.store. destruct (decide (b = a)) as [->|]; [|reflexivity].
    destruct Hl. eapply list_elem_of_lookup_2. exact Hk. }
  split.
  - intros si i seg Hs Hi. apply list_eq. intros sj.
    rewrite list_lookup_fmap.
    destruct (decide (sj = si)) as [->|Hne].
    + rewrite Hs, list_lookup_insert_eq
        by (rewrite length_fmap; eapply lookup_lt_Some; exact Hs).
      cbn [fmap option_fmap option_map]. f_equal.
      apply list_eq. intros j. rewrite list_lookup_fmap.
      destruct (decide (j = i)) as [->|Hji].
      * rewrite Hi, list_lookup_insert_eq
          by (rewrite length_fmap; eapply lookup_lt_Some; exact Hi).
        cbn [fmap option_fmap option_map]. f_equal.
        unfold Session.store. destruct (decide (a = a)); congruence.
      * rewrite list_lookup_insert_ne by congruence.
        rewrite list_lookup_fmap.
        destruct (seg !! j) as [b|] eqn:Hj; [|reflexivity].
        cbn [fmap option_fmap option_map]. f_equal.
        unfold Session.store. destruct (decide (b = a)) as [->|];
          [|reflexivity].
        destruct (places_injective _ Hnd si i si j a seg seg Hs Hi Hs Hj)
          as [_ E]. congruence.
    + rewrite list_lookup_insert_ne by congruence.
      rewrite list_lookup_fmap.
      destruct (Session.segments st !! sj) as [segj|] eqn:Hsj;
        [|reflexivity].
      cbn [fmap option_fmap option_map]. f_equal. apply Hother.
      intros Hin. apply list_elem_of_lookup_1 in Hin as [j Hj].
      destruct (places_injective _ Hnd si i sj j a seg segj Hs Hi Hsj Hj)
        as [E _]. congruence.
  - intros Hout. apply list_fmap_ext. intros sj segj Hsj.
    apply Hother. intros Hin. apply Hout.
    apply list_elem_of_join. exists segj. split; [exact Hin|].
    eapply list_elem_of_lookup_2. exact Hsj.
Qed.

(** X22. A drag moves the point that the hit test found, and only that
    one: after a plain left press at [(x0, y0)] the collection is as
    before; if [_find_closest_point] returns the place [(si, i)], a move
    to [(x, y)] gives the collection with the point at that place set to
    [(x, y)] and nothing else changed; if it returns none, the move
    changes nothing; and after the release, moves change nothing. *)
Theorem drag_moves_the_point_found (st : Session.state) (x0 y0 x y : R) :
  Session.wf st ->
  exists st1 : Session.state,
    Session.mousePressEvent st Session.LeftButton false x0 y0 = Some st1
    /\ Session.view st1 = Session.view st
    /\ (forall (si i : nat) (p : point),
           BezierCanvas._find_closest_point (Session.view st) x0 y0
           = Some (si, i, p) ->
           exists seg : segment,
             Session.view st !! si = Some seg
             /\ Session.view (Session.mouseMoveEvent st1 x y)
                = <[si := <[i := {| px := x; py := y |}]> seg]>
                    (Session.view st))
    /\ (BezierCanvas._find_closest_point (Session.view st) x0 y0 = None ->
        Session.mouseMoveEvent st1 x y = st1)
    /\ Session.mouseMoveEvent
         (Session.mouseReleaseEvent
            (Session.mouseMoveEvent st1 x y) Session.LeftButton) x0 y0
       = Session.mouseReleaseEvent
           (Session.mouseMoveEvent st1 x y) Session.LeftButton.
Proof.
  intros Hwf. eexists. split; [reflexivity|]. split; [reflexivity|].
  split; [|split].
  - intros si i p Hfind.
    destruct (find_closest_point_least _ _ _ _ Hfind)
      as ((segv & Hsv & Hiv) & _). cbn [fst snd] in Hsv, Hiv.
    exists segv. split; [exact Hsv|].
    rewrite view_lookup in Hsv.
    destruct (Session.segments st !! si) as [seg|] eqn:Hs; [|discriminate].
    injection Hsv as <-. rewrite list_lookup_fmap in Hiv.
    destruct (seg !! i) as [a|] eqn:Hi; [|discriminate].
    set (st1 := Session.State _ _ _ _).
    assert (Session._selected_point st1 = Some a) as Hsel.
    { unfold st1. cbn [Session._selected_point].
      unfold Session._find_closest_point. rewrite Hfind.
      cbn [mbind option_bind fst snd]. rewrite Hs.
      cbn [mbind option_bind]. exact Hi. }
    assert (Session.wf st1) as Hwf1 by exact Hwf.
    destruct (view_move st1 a x y Hwf1 Hsel) as [Hmove _].
    exact (Hmove si i seg Hs Hi).
  - intros Hnone. unfold Session.mouseMoveEvent.
    cbn [Session._selected_point].
    unfold Session._find_closest_point. rewrite Hnone. reflexivity.
  - reflexivity.
Qed.

Lemma find_closest_point_example :
  BezierCanvas._find_closest_point [[Point 0 0; Point 100 0]] 3 0
  = Some (0%nat, 0%nat, Point 0 0).
Proof.
  assert (dist (Point 0 0) 3 0 = 3) as E0
    by (unfold dist; simpl; apply hypot_eq; [lra|ring]).
  assert (dist (Point 100 0) 3 0 = 97) as E1
    by (unfold dist; simpl; apply hypot_eq; [lra|ring]).
  unfold BezierCanvas._find_closest_point. simpl.
  unfold BezierCanvas.closest_seg_step, BezierCanvas.closest_step. simpl.
  rewrite E0, E1. unfold HIT_R.
  destruct (Rlt_dec 97 3) as [H|_]; [exfalso; lra|]. simpl.
  destruct (Rle_dec 3 10) as [_|H]; [reflexivity|lra].
Qed.

(** Two dicts, at (0, 0) and (100, 0); the press at (3, 0) grabs the
    first, and the move to (20, 30) puts it there and leaves the second
    where it is. *)
Lemma drag_moves_the_point_found_witness :
  exists st1 : Session.state,
    Session.mousePressEvent
      (Session.State
         (fun a => if decide (a = 0%nat) then Point 0 0 else Point 100 0)
         2 [[0%nat; 1%nat]] None)
      Session.LeftButton false 3 0
    = Some st1
    /\ Session.view (Session.mouseMoveEvent st1 20 30)
       = [[Point 20 30; Point 100 0]].
Proof.
  destruct (drag_moves_the_point_found
              (Session.State
                 (fun a => if decide (a = 0%nat) then Point 0 0
                           else Point 100 0)
                 2 [[0%nat; 1%nat]] None)
              3 0 20 30)
    as (st1 & Hpress & _ & Hfound & _).
  { split; [|split; [|discriminate]].
    - repeat (apply NoDup_cons; split;
              [rewrite ?elem_of_cons, elem_of_nil; lia|]).
      apply NoDup_nil_2.
    - repeat constructor. }
  exists st1. split; [exact Hpress|].
  destruct (Hfound 0%nat 0%nat (Point 0 0) find_closest_point_example)
    as (seg & Hseg & ->).
  apply (inj Some) in Hseg. subst seg. reflexivity.
Defined.

(** X23. A grabbed dict that is no longer in any segment (its point was
    removed, or the collection was reset, while the button was down) is
    detached: moves write to it and leave the collection as it is; after
    [_reset] the collection stays [[[]]].  A move never changes the
    lists of the segments. *)
Theorem drag_of_a_detached_point (st : Session.state) (a : nat) (x y : R) :
  Session.wf st -> Session._selected_point st = Some a ->
  (a ∉ mjoin (Session.segments st) ->
   Session.view (Session.mouseMoveEvent st x y) = Session.view st)
  /\ Session.view (Session.mouseMoveEvent (Session._reset st) x y) = [[]]
  /\ Session.segments (Session.mouseMoveEvent st x y) = Session.segments st.
Proof.
  intros Hwf Hsel. split; [|split].
  - exact (proj2 (view_move st a x y Hwf Hsel)).
  - unfold Session.mouseMoveEvent, Session._reset.
    cbn [Session._selected_point]. destruct (Session._selected_point st);
      reflexivity.
  - unfold Session.mouseMoveEvent. rewrite Hsel. reflexivity.
Qed.

Lemma drag_of_a_detached_point_witness :
  Session.view
    (Session.mouseMoveEvent
       (Session.State (fun _ => Point 0 0) 1 [[]] (Some 0%nat)) 7 7)
  = Session.view (Session.State (fun _ => Point 0 0) 1 [[]] (Some 0%nat)).
Proof.
  refine (proj1 (drag_of_a_detached_point
                   (Session.State (fun _ => Point 0 0) 1 [[]] (Some 0%nat))
                   0 7 7 _ eq_refl) _).
  - split; [apply NoDup_nil_2|]. split; [constructor|discriminate].
  - apply not_elem_of_nil.
Defined.

(** ** Affine maps and reversal *)

Lemma row_fmap (f : point -> point) (t : R) (l : list point) :
  (forall a b : point, f (lerp a b t) = lerp (f a) (f b) t) ->
  row t (f <$> l) = f <$> row t l.
Proof.
  intros Hf. induction l as [|a [|b l] IH]; try reflexivity.
  change (row t (f <$> a :: b :: l))
    with (lerp (f a) (f b) t :: row t (f <$> b :: l)).
  rewrite IH, <- Hf. reflexivity.
Qed.

Lemma iter_row_fmap (f : point -> point) (t : R) (k : nat) :
  (forall a b : point, f (lerp a b t) = lerp (f a) (f b) t) ->
  forall l : list point,
    Nat.iter k (row t) (f <$> l) = f <$> Nat.iter k (row t) l.
Proof.
  intros Hf. induction k as [|k IH]; intros l; [reflexivity|].
  rewrite !Nat.iter_succ, IH, row_fmap by exact Hf. reflexivity.
Qed.

(** X24. In exact arithmetic [de_casteljau] commutes with every affine
    map of the plane: evaluating the mapped control points gives the
    mapped curve point (translations, and the scale that [paintEvent]
    applies, among them).  In binary64 it does so up to rounding: the
    translation by 7 of [lerp_binary64] above is an instance. *)
Theorem de_casteljau_affine (m11 m12 m21 m22 c1 c2 : R)
  (points : list point) (t : R) :
  de_casteljau (affine m11 m12 m21 m22 c1 c2 <$> points) t
  = affine m11 m12 m21 m22 c1 c2 <$> de_casteljau points t.
Proof.
  rewrite !de_casteljau_bezier. unfold bezier.
  rewrite length_fmap, iter_row_fmap.
  - destruct (Nat.iter (length points - 1) (row t) points); reflexivity.
  - intros a b. unfold affine, lerp. cbn [px py]. f_equal; ring.
Qed.

Lemma hypot_swap (a b c d : R) : hypot (a - b) (c - d) = hypot (b - a) (d - c).
Proof. unfold hypot. f_equal. ring. Qed.

Lemma polyline_reverse (g : nat -> point) (n : nat) :
  polyline (fun i => g (n - i)%nat) n = polyline g n.
Proof.
  induction n as [|n IH]; [reflexivity|].
  set (h := fun i => g (S n - i)%nat).
  change (polyline h (1 + n) = polyline g (S n)).
  rewrite (polyline_split h 1 n).
  rewrite (polyline_ext (fun i => h (1 + i)%nat)
             (fun i => g (n - i)%nat) n)
    by (intros i Hi; unfold h; f_equal; lia).
  rewrite IH. cbn [polyline]. unfold h.
  replace (S n - 1)%nat with n by lia.
  replace (S n - 0)%nat with (S n) by lia.
  rewrite (hypot_swap (px (g n)) (px (g (S n)))). ring.
Qed.

Lemma curve_rev (seg : list point) (t : R) :
  curve (rev seg) t = curve seg (1 - t).
Proof.
  unfold curve. rewrite <- (bezier_rev seg (1 - t)).
  replace (1 - (1 - t)) with t by ring. reflexivity.
Qed.

Lemma sample_rev (seg : list point) (steps i : nat) :
  (i <= steps)%nat -> (1 <= steps)%nat ->
  sample (rev seg) steps i = sample seg steps (steps - i).
Proof.
  intros Hi Hs. unfold sample. rewrite curve_rev. f_equal.
  rewrite minus_INR by exact Hi. field. apply not_0_INR. lia.
Qed.

(** X25. In exact arithmetic [approximate_length] does not depend on
    the direction of the segment: the reversed control points give the
    same length at every step count.  In binary64 the two sums differ
    in the last digits (example below). *)
Theorem approximate_length_reverse (seg : list point) (steps : nat) :
  approximate_length (rev seg) steps = approximate_length seg steps.
Proof.
  destruct seg as [|p seg]; [reflexivity|].
  assert (rev (p :: seg) <> []) as Hne.
  { intros E. apply (f_equal length) in E. rewrite length_rev in E.
    discriminate. }
  rewrite !approximate_length_closed by (exact Hne || discriminate).
  f_equal. destruct steps as [|steps]; [reflexivity|].
  rewrite <- (polyline_reverse (sample (p :: seg) (S steps)) (S steps)).
  apply polyline_ext. intros i Hi. apply sample_rev; lia.
Qed.

(** In binary64: from (0, 0) to (3, 0) the 200 pieces sum to 3.0, and
    from (3, 0) to (0, 0) to 3.000000000000007. *)
Example length_reverse_binary64 (hypot : float -> float -> float) :
  (forall x : float, hypot x 0%float = abs x) ->
  Binary64.approximate_length hypot
    [Binary64.Point 0 0; Binary64.Point 3 0] 200
  = Some 3%float
  /\ Binary64.approximate_length hypot
       [Binary64.Point 3 0; Binary64.Point 0 0] 200
     = Some 3.000000000000007%float.
Proof.
  intros Haxis. split; vm_compute; rewrite !Haxis; vm_compute; reflexivity.
Qed.
